(** * StoryToolkitAI: interval algebra, segment splitter and segment stitcher

    A shallow embedding of the pure parts of
    [storytoolkitai/core/toolkit_ops/toolkit_ops.py] (class [ToolkitOps]):

    - [combine_intervals], [combine_overlapping_intervals],
      [split_audio_by_intervals], [exclude_segments_by_intervals];
    - [split_segment_by_word_limits], [split_segment_on_punctuation_marks],
      [split_segments];
    - [post_process_whisper_result] and [whisper_transcribe_segments].

    Times are Python numbers measured in seconds; they are modelled as
    rationals ([Q]), which contain every finite float and every int.  A
    difference that the code compares with a threshold and a product that
    it truncates to a sample index are rounded as floats round them: the
    rounded operations are the parameters [Py.fsub] and [Py.fmul] of the
    model, and what is proved holds for every rounding that has the
    properties listed in [Py.Float].  Sums and quotients are not rounded
    in the model.  Python lists are [list]s, [None] is an
    [option] or a dedicated constructor, and the place where the source
    mutates a list while it iterates over it is modelled with an explicit
    store of objects.  Elsewhere the functions are modelled by the values
    they return: every interval and every segment of an input list is
    taken to be an object of its own. *)

From Stdlib Require Import QArith Qround Lqa ZArith List Bool Lia Arith.
From Stdlib Require Import Sorting.Sorted.
From Stdlib Require String Ascii.
Import (notations) Stdlib.Strings.String.
Import ListNotations.

Set Implicit Arguments.

(** ** Python primitives used by the source *)

Module Py.

Open Scope Q_scope.

(** [a <= b] and [a < b] on numbers, as booleans. *)
Definition leb (a b : Q) : bool := Qle_bool a b.
Definition ltb (a b : Q) : bool := negb (Qle_bool b a).

(** Python's floats are IEEE 754 doubles: the difference and the product
    of two floats are the exact results rounded to the nearest double.
    The numbers of the model are rationals, and the rounded operations
    are parameters of the model: [fsub a b] is [a - b] and [fmul a b] is
    [a * b] as Python computes them.  [representable c] says that [c] is
    a double.  What is assumed of the rounding is what every rounding to
    the nearest double does with the numbers of the program:
    - it is monotone and leaves a double alone, so a rounded difference
      is on the same side of a double [c] as the exact one, or on [c];
    - the difference of two numbers is zero only when they are equal
      (doubles underflow gradually). *)
Class Float : Type := {
  fsub : Q -> Q -> Q;
  fmul : Q -> Q -> Q;
  representable : Q -> Prop;
  representable_0 : representable 0;
  fsub_le : forall a b c, representable c -> a - b <= c -> fsub a b <= c;
  fsub_ge : forall a b c, representable c -> c <= a - b -> c <= fsub a b;
  fsub_zero : forall a b, fsub a b == 0 -> a == b
}.

(** The rounding that changes nothing.  It is the rounding of doubles
    on numbers whose differences and products are doubles themselves, as
    are the halves, quarters and integers of the examples; the examples
    are computed with it. *)
#[global] Instance unrounded : Float.
Proof.
  refine {| fsub := fun a b => a - b;
            fmul := fun a b => a * b;
            representable := fun _ => True |}.
  - exact I.
  - intros a b c _ H. exact H.
  - intros a b c _ H. exact H.
  - intros a b H. lra.
Defined.

(** [int(x)]: truncation towards zero. *)
Definition int (x : Q) : Z :=
  if Qle_bool 0 x then Qfloor x else Qceiling x.

(** A slice bound, as Python normalises it for a sequence of length [n]:
    negative bounds count from the end, and everything is clipped. *)
Definition slice_bound (n i : Z) : Z :=
  if (i <? 0)%Z then Z.max 0 (n + i) else Z.min i n.

(** [l[lo:hi]]. *)
Definition slice {A : Type} (lo hi : Z) (l : list A) : list A :=
  let n := Z.of_nat (length l) in
  let a := slice_bound n lo in
  let b := slice_bound n hi in
  firstn (Z.to_nat (b - a)) (skipn (Z.to_nat a) l).

(** [sorted(l, key=key)]: Python's sort is stable, so its result is the
    one of a stable insertion sort. *)
Section Sorted.
Variable A : Type.
Variable key : A -> Q.

Fixpoint insert (x : A) (l : list A) : list A :=
  match l with
  | [] => [x]
  | y :: t => if leb (key x) (key y) then x :: y :: t else y :: insert x t
  end.

Fixpoint sorted (l : list A) : list A :=
  match l with
  | [] => []
  | x :: t => insert x (sorted t)
  end.
End Sorted.

End Py.

(** ** Interval algebra *)

Module Intervals.

Open Scope Q_scope.

Section WithFloat.
Context {F : Py.Float}.

(** A time interval [[start, end]], in seconds. *)
Record interval : Type := Interval { istart : Q; iend : Q }.

(** [interval[1] = e] *)
Definition set_end (i : interval) (e : Q) : interval :=
  Interval (istart i) e.

(** An audio window [[start, end, samples]]. *)
Record window (Sample : Type) : Type :=
  Window { wstart : Q; wend : Q; wsamples : list Sample }.

(** *** [combine_intervals] *)

(** The [for interval in intervals[1:]] loop, with its two variables
    [new_intervals] and [current_timestamp]. *)
Fixpoint combine_loop (combine_min_time : Q) (new_intervals : list interval)
         (current_timestamp : interval) (rest : list interval)
  : list interval :=
  match rest with
  | [] => new_intervals ++ [current_timestamp]
  | i :: rest' =>
      if Py.leb (Py.fsub (istart i) (iend current_timestamp))
                combine_min_time
      then combine_loop combine_min_time new_intervals
                        (set_end current_timestamp (iend i)) rest'
      else combine_loop combine_min_time
                        (new_intervals ++ [current_timestamp]) i rest'
  end.

Definition combine_intervals (intervals : list interval)
           (combine_min_time : Q) : list interval :=
  match Py.sorted istart intervals with
  | [] => []
  | first :: rest => combine_loop combine_min_time [] first rest
  end.

(** *** [combine_overlapping_intervals] *)

(** An argument that may be [None], a [bool] or a list of intervals. *)
Inductive arg : Type :=
| ANone
| ABool (b : bool)
| AList (l : list interval).

Definition is_none_or_bool (a : arg) : bool :=
  match a with AList _ => false | _ => true end.
Definition is_none (a : arg) : bool :=
  match a with ANone => true | _ => false end.
Definition is_bool (a : arg) : bool :=
  match a with ABool _ => true | _ => false end.

(** [max(a, b)] and [min(a, b)]: the first argument wins a tie. *)
Definition qmax (a b : Q) : Q := if Py.ltb a b then b else a.
Definition qmin (a b : Q) : Q := if Py.ltb b a then b else a.

(** The two nested [for] loops that collect the intersections. *)
Definition intersecting (intervals additional : list interval)
  : list interval :=
  flat_map
    (fun i =>
       flat_map
         (fun a =>
            if Py.leb (istart a) (iend i) && Py.leb (istart i) (iend a)
            then [Interval (qmax (istart i) (istart a))
                           (qmin (iend i) (iend a))]
            else [])
         additional)
    intervals.

(** The result is [None] or a list.  The first test of the source reads
    [(A and B) or C] by Python's precedence. *)
Definition combine_overlapping_intervals (intervals additional : arg)
  : option (list interval) :=
  if (is_none_or_bool intervals && is_none additional) || is_bool additional
  then None
  else if is_none_or_bool intervals
            && negb (is_none additional) && negb (is_bool additional)
  then match additional with AList l => Some l | _ => None end
  else
    match intervals with
    | AList l =>
        let l := Py.sorted istart l in
        match additional with
        | AList a => Some (intersecting l (Py.sorted istart a))
        | _ => Some l
        end
    | _ => None
    end.

(** *** Vocabulary for the properties of the interval operations *)

(** The time [t] lies in the interval. *)
Definition spans (i : interval) (t : Q) : Prop :=
  istart i <= t /\ t <= iend i.

(** The time [t] lies in some interval of the list. *)
Definition covered (l : list interval) (t : Q) : Prop :=
  exists i, In i l /\ spans i t.

Definition sorted_by_start : list interval -> Prop :=
  StronglySorted (fun a b => istart a <= istart b).

(** Every interval of the list ends before any later one starts. *)
Definition non_overlapping : list interval -> Prop :=
  StronglySorted (fun a b => iend a < istart b).

(** The same, with more than [gap] seconds in between. *)
Definition separated_by (gap : Q) : list interval -> Prop :=
  StronglySorted (fun a b => iend a + gap < istart b).

(** The time [t] lies strictly between two intervals of the list that
    the merge test takes to be at most [gap] seconds apart: the
    difference is the one the code computes. *)
Definition bridged (l : list interval) (gap : Q) (t : Q) : Prop :=
  exists a b, In a l /\ In b l /\
              iend a < t /\ t < istart b
              /\ Py.fsub (istart b) (iend a) <= gap.

(** No interval ends after an interval that starts at the same time or
    later. *)
Definition ends_follow_starts (l : list interval) : Prop :=
  forall a b, In a l -> In b l -> istart a <= istart b -> iend a <= iend b.

(** The output of [combine_intervals] is sorted, non-overlapping and
    covers exactly what the input covers. *)
Definition exact_union (l : list interval) (gap : Q) : Prop :=
  let out := combine_intervals l gap in
  sorted_by_start out /\ non_overlapping out
  /\ forall t, covered out t <-> covered l t.

(** Two intervals share a stretch of positive duration. *)
Definition overlaps (a b : interval) : Prop :=
  qmax (istart a) (istart b) < qmin (iend a) (iend b).

(** [p] lies within [q]. *)
Definition within (p q : interval) : Prop :=
  istart q <= istart p /\ iend p <= iend q.

(** *** [split_audio_by_intervals] *)

Section Audio.
Variable Sample : Type.

(** [len(audio_array) / sr] *)
Definition duration (audio_array : list Sample) (sr : positive) : Q :=
  Z.of_nat (length audio_array) # sr.

Definition cut (audio_array : list Sample) (sr : positive) (i : interval)
  : window Sample :=
  Window (istart i) (iend i)
         (Py.slice (Py.int (Py.fmul (istart i) (Zpos sr # 1)))
                   (Py.int (Py.fmul (iend i) (Zpos sr # 1))) audio_array).

(** [time_intervals] is [None] or a list; the source returns the pair
    [(audio_segments, time_intervals)].  In the fall-back branch the end
    of the window is [len(audio_array / sr)], the length of the array
    divided element by element, that is the number of samples. *)
Definition split_audio_by_intervals (audio_array : list Sample)
           (time_intervals : option (list interval)) (sr : positive)
  : list (window Sample) * list interval :=
  match time_intervals with
  | Some (i :: l) =>
      let time_intervals := Py.sorted istart (i :: l) in
      let time_intervals := combine_intervals time_intervals 0 in
      (map (cut audio_array sr) time_intervals, time_intervals)
  | _ =>
      ([Window 0 (Z.of_nat (length audio_array) # 1) audio_array],
       [Interval 0 (duration audio_array sr)])
  end.

(** *** [exclude_segments_by_intervals] *)

(** One [temp_interval] against one [excluded_interval]. *)
Definition exclude_one (excluded_interval temp_interval : interval)
  : list interval :=
  if Py.leb (iend excluded_interval) (istart temp_interval)
     || Py.leb (iend temp_interval) (istart excluded_interval)
  then [temp_interval]
  else
    (if Py.ltb (istart temp_interval) (istart excluded_interval)
     then [Interval (istart temp_interval) (istart excluded_interval)]
     else [])
    ++
    (if Py.ltb (iend excluded_interval) (iend temp_interval)
     then [Interval (iend excluded_interval) (iend temp_interval)]
     else []).

(** The loop over the excluded intervals for one kept interval. *)
Definition exclude_from (excluded : list interval) (interval_ : interval)
  : list interval :=
  fold_left
    (fun temp_intervals excluded_interval =>
       flat_map (exclude_one excluded_interval) temp_intervals)
    excluded [interval_].

(** The outer loop: [new_time_intervals]. *)
Definition exclude_intervals (time_intervals excluded : list interval)
  : list interval :=
  flat_map (exclude_from (Py.sorted istart excluded)) time_intervals.

Definition truthy (l : option (list interval)) : bool :=
  match l with Some (_ :: _) => true | _ => false end.

Definition exclude_segments_by_intervals (audio_array : list Sample)
           (time_intervals excluded_time_intervals : option (list interval))
           (sr : positive)
  : list (window Sample) * list interval :=
  if negb (truthy excluded_time_intervals && truthy time_intervals)
  then split_audio_by_intervals audio_array time_intervals sr
  else
    match time_intervals, excluded_time_intervals with
    | Some t, Some e =>
        split_audio_by_intervals audio_array
                                 (Some (exclude_intervals t e)) sr
    | _, _ => split_audio_by_intervals audio_array time_intervals sr
    end.
End Audio.

(** *** What the specification says about these operations *)

(** With an absent second argument the first list comes back unchanged,
    and with both arguments absent the result is [None]. *)
Definition absent_restriction_unchanged (l : list interval) : Prop :=
  combine_overlapping_intervals (AList l) ANone = Some l
  /\ combine_overlapping_intervals ANone ANone = None.

(** No returned interval overlaps an excluded one, and excluding nothing
    returns the kept intervals unchanged. *)
Definition exclusion_exact (Sample : Type) (audio_array : list Sample)
           (kept excluded : list interval) (sr : positive) : Prop :=
  (forall r e,
      In r (snd (exclude_segments_by_intervals
                   audio_array (Some kept) (Some excluded) sr)) ->
      In e excluded -> ~ overlaps r e)
  /\ snd (exclude_segments_by_intervals audio_array (Some kept) (Some []) sr)
     = kept.

End WithFloat.

End Intervals.

(** ** Python strings *)

Module Text.

(** A Python [str] is a sequence of Unicode code points; [len] counts
    code points, so the one-character ellipsis (U+2026) has length 1. *)
Definition char : Type := N.
Definition str : Type := list char.

Definition space : char := 32%N.
Definition dot : char := 46%N.
Definition bang : char := 33%N.
Definition qmark : char := 63%N.
Definition ellipsis : char := 8230%N.

Definition of_string (s : String.string) : str :=
  map Ascii.N_of_ascii (String.list_ascii_of_string s).

Definition str_eqb (a b : str) : bool :=
  if list_eq_dec N.eq_dec a b then true else false.

(** [c in s] for a one-character [c]. *)
Definition mem (c : char) (s : str) : bool := existsb (N.eqb c) s.

(** [s.find(c)]; [None] stands for [-1]. *)
Fixpoint find (c : char) (s : str) : option nat :=
  match s with
  | [] => None
  | x :: t => if N.eqb x c then Some 0%nat else option_map S (find c t)
  end.

(** [s.find(c, start)] *)
Definition find_from (c : char) (start : nat) (s : str) : option nat :=
  option_map (Nat.add start) (find c (skipn start s)).

(** The last index of [c] in [s]. *)
Fixpoint rfind_all (c : char) (s : str) : option nat :=
  match s with
  | [] => None
  | x :: t =>
      match rfind_all c t with
      | Some i => Some (S i)
      | None => if N.eqb x c then Some 0%nat else None
      end
  end.

(** [s.rfind(c, 0, stop)] for [stop >= 0]. *)
Definition rfind (c : char) (stop : nat) (s : str) : option nat :=
  rfind_all c (firstn stop s).

(** [s.replace('...', e)] with [e] the ellipsis character: left to
    right, without overlaps. *)
Fixpoint replace_dots (s : str) : str :=
  match s with
  | [] => []
  | c1 :: t1 =>
      match t1 with
      | c2 :: c3 :: t3 =>
          if N.eqb c1 dot && N.eqb c2 dot && N.eqb c3 dot
          then ellipsis :: replace_dots t3
          else c1 :: replace_dots t1
      | _ => c1 :: replace_dots t1
      end
  end.

(** [sub in s] for strings. *)
Fixpoint prefixb (p s : str) : bool :=
  match p, s with
  | [], _ => true
  | a :: p', b :: s' => N.eqb a b && prefixb p' s'
  | _ :: _, [] => false
  end.

Fixpoint contains (sub s : str) : bool :=
  prefixb sub s || match s with [] => false | _ :: t => contains sub t end.

(** [' ' + s] unless [s] already starts with a space: what the source
    does to every resulting text "to preserve Whisper's formatting". *)
Definition with_leading_space (s : str) : str :=
  match s with
  | c :: _ => if N.eqb c space then s else space :: s
  | [] => space :: s
  end.

End Text.

(** ** Transcript segments *)

Module Segments.

Import Text.
Open Scope Q_scope.

(** Values that are neither dicts nor lists. *)
Inductive atom : Type :=
| PNone
| PInt (z : Z)
| PStr (s : str).

(** A word timing [{'word': .., 'start': .., 'end': ..}].  (Whisper also
    stores a probability, which the source never reads.) *)
Record word : Type := Word { w_word : str; w_start : Q; w_end : Q }.

(** A segment dict.  A key that may be absent is an [option]; the text
    may be present without being a string. *)
Record segment : Type := Segment {
  seg_id : option Z;
  seg_start : Q;
  seg_end : Q;
  seg_text : option atom;
  seg_words : option (list word)
}.

(** An entry of a [segments] list: nothing forces it to be a dict. *)
Inductive entry : Type :=
| NonDict (a : atom)
| Dict (s : segment).

Inductive exn : Type :=
| KeyError | TypeError | AttributeError | IndexError.

(** The outcome of running a piece of Python: a value, an exception, or
    the bound on the number of loop iterations was reached. *)
Inductive result (A : Type) : Type :=
| Return (a : A)
| Raises (e : exn)
| OutOfFuel.
Arguments Raises {A} e.
Arguments OutOfFuel {A}.

Definition bind {A B : Type} (m : result A) (k : A -> result B)
  : result B :=
  match m with
  | Return a => k a
  | Raises e => Raises e
  | OutOfFuel => OutOfFuel
  end.

(** [==] on Python values. *)
Definition atom_eqb (a b : atom) : bool :=
  match a, b with
  | PNone, PNone => true
  | PInt x, PInt y => Z.eqb x y
  | PStr x, PStr y => str_eqb x y
  | _, _ => false
  end.

Definition option_eqb {A : Type} (eqb : A -> A -> bool) (a b : option A)
  : bool :=
  match a, b with
  | None, None => true
  | Some x, Some y => eqb x y
  | _, _ => false
  end.

Fixpoint list_eqb {A : Type} (eqb : A -> A -> bool) (a b : list A)
  : bool :=
  match a, b with
  | [], [] => true
  | x :: a', y :: b' => eqb x y && list_eqb eqb a' b'
  | _, _ => false
  end.

Definition word_eqb (a b : word) : bool :=
  str_eqb (w_word a) (w_word b)
  && Qeq_bool (w_start a) (w_start b) && Qeq_bool (w_end a) (w_end b).

Definition segment_eqb (a b : segment) : bool :=
  option_eqb Z.eqb (seg_id a) (seg_id b)
  && Qeq_bool (seg_start a) (seg_start b)
  && Qeq_bool (seg_end a) (seg_end b)
  && option_eqb atom_eqb (seg_text a) (seg_text b)
  && option_eqb (list_eqb word_eqb) (seg_words a) (seg_words b).

Definition entry_eqb (a b : entry) : bool :=
  match a, b with
  | NonDict x, NonDict y => atom_eqb x y
  | Dict x, Dict y => segment_eqb x y
  | _, _ => false
  end.

(** [l.remove(x)]: drops the first element equal to [x].  (Python raises
    [ValueError] when there is none; the source only removes elements
    that are in the list.) *)
Fixpoint remove_first {A : Type} (eqb : A -> A -> bool) (x : A)
         (l : list A) : list A :=
  match l with
  | [] => []
  | y :: t => if eqb y x then t else y :: remove_first eqb x t
  end.

Definition set_seg_end (s : segment) (e : Q) : segment :=
  Segment (seg_id s) (seg_start s) e (seg_text s) (seg_words s).
Definition set_seg_start (s : segment) (b : Q) : segment :=
  Segment (seg_id s) b (seg_end s) (seg_text s) (seg_words s).
Definition set_seg_id (s : segment) (i : Z) : segment :=
  Segment (Some i) (seg_start s) (seg_end s) (seg_text s) (seg_words s).
Definition set_seg_words (s : segment) (w : option (list word)) : segment :=
  Segment (seg_id s) (seg_start s) (seg_end s) (seg_text s) w.

(** The keys of a segment dict, as [list.extend(dict)] would append them:
    the keys this model carries, in the order Whisper writes them. *)
Definition dict_keys (s : segment) : list str :=
  (match seg_id s with Some _ => [of_string "id"%string] | None => [] end)
    ++ [of_string "start"%string; of_string "end"%string]
    ++ (match seg_text s with Some _ => [of_string "text"%string] | None => [] end)
    ++ (match seg_words s with Some _ => [of_string "words"%string] | None => [] end).

End Segments.

(** ** Segment splitter *)

Module Splitter.

Import Text Segments.
Open Scope Q_scope.

(** What a splitting operation returns: the segment it was given, or the
    list [resulting_segments]. *)
Inductive split_value : Type :=
| Unsplit (e : entry)
| Parts (l : list segment).

(** A limit is an [int] or [None]; [None] and [0] are both falsy. *)
Definition truthy (limit : option nat) : bool :=
  match limit with Some (S _) => true | _ => false end.
Definition limit_value (limit : option nat) : nat :=
  match limit with Some n => n | None => 0%nat end.

(** *** The part shared by both strategies *)

(** The [for word in current_segment_words] loop: the words kept for the
    first part, by cumulative character length.  [room] is
    [len(' ' + segment_first_part)]. *)
Fixpoint first_part_words (room : nat) (character_length : nat)
         (current_segment_words : list word) : list word :=
  match current_segment_words with
  | [] => []
  | w :: rest =>
      if (room <? character_length + length (w_word w))%nat then []
      else w :: first_part_words
                  room (character_length + length (w_word w)) rest
  end.

(** [for word in words_to_remove: current_segment_words.remove(word)] *)
Definition remove_words (words_to_remove current_segment_words : list word)
  : list word :=
  fold_left (fun ws w => remove_first word_eqb w ws)
            words_to_remove current_segment_words.

(** [l[0]['start'] if l else default], and the same for the last end. *)
Definition first_start (l : list word) (default : Q) : Q :=
  match l with w :: _ => w_start w | [] => default end.
Definition last_end (l : list word) (default : Q) : Q :=
  match l with [] => default | _ => w_end (last l (Word [] 0 0)) end.

(** The dict [new_segment] built for a part. *)
Definition new_segment (segment_ : segment) (text : str) (words : list word)
  : segment :=
  Segment None
          (first_start words (seg_start segment_))
          (last_end words (seg_end segment_))
          (Some (PStr (with_leading_space text)))
          (Some words).

(** One pass of the body that follows the choice of the cut: the words of
    the first part leave [current_segment_words], and a non-empty first
    part becomes a segment. *)
Definition emit_first_part (segment_ : segment) (segment_first_part : str)
           (current_segment_words : list word)
           (resulting_segments : list segment)
  : list word * list segment :=
  let kept :=
    first_part_words (S (length segment_first_part)) 0
                     current_segment_words in
  let current_segment_words := remove_words kept current_segment_words in
  match segment_first_part with
  | [] => (current_segment_words, resulting_segments)
  | _ => (current_segment_words,
          resulting_segments ++ [new_segment segment_ segment_first_part kept])
  end.

(** The code after the [while] loop: what is left becomes a last segment. *)
Definition emit_rest (segment_ : segment) (current_segment_text : str)
           (current_segment_words : list word)
           (resulting_segments : list segment) : list segment :=
  match current_segment_text with
  | [] => resulting_segments
  | _ => resulting_segments
           ++ [new_segment segment_ current_segment_text
                           current_segment_words]
  end.

(** *** [split_segment_by_word_limits] *)

(** [find_nth(haystack, ' ', n)], always called with [skip=True]: the
    search starts at index 1. *)
Fixpoint find_nth_loop (haystack : str) (start : option nat) (n : nat)
  : option nat :=
  match n with
  | S (S _ as n') =>
      match start with
      | Some i => find_nth_loop haystack (find_from space (S i) haystack) n'
      | None => None
      end
  | _ => start
  end.

Definition find_nth (haystack : str) (n : nat) : option nat :=
  find_nth_loop haystack (find_from space 1 haystack) n.

(** [last_space_index] of the character-limit branch. *)
Definition char_limit_index (text : str) (limit : nat) : option nat :=
  match rfind space limit text with
  | Some i => Some i
  | None => find_from space limit text
  end.

(** The index at which the text is cut: the character-limit branch, or
    else the word-limit branch, which first reads
    [current_segment_text[0]]. *)
Definition limit_cut (segment_word_limit segment_character_limit : option nat)
           (current_segment_text : str) : result (option nat) :=
  if truthy segment_character_limit
  then Return (char_limit_index current_segment_text
                                (limit_value segment_character_limit))
  else
    match current_segment_text with
    | [] => Raises IndexError
    | _ => Return (find_nth current_segment_text
                            (limit_value segment_word_limit))
    end.

(** The [while] loop.  [words_count] is computed once before the loop and
    never updated by the source. *)
Fixpoint word_limits_loop (fuel : nat) (segment_ : segment)
         (segment_word_limit segment_character_limit : option nat)
         (words_count : nat)
         (current_segment_text : str) (current_segment_words : list word)
         (resulting_segments : list segment) : result (list segment) :=
  let finish :=
    Return (emit_rest segment_ current_segment_text current_segment_words
                      resulting_segments) in
  if (truthy segment_character_limit
      && (limit_value segment_character_limit
          <? length current_segment_text)%nat)
     || (truthy segment_word_limit
         && (limit_value segment_word_limit <? words_count)%nat)
  then
    match fuel with
    | O => OutOfFuel
    | S fuel' =>
        match limit_cut segment_word_limit segment_character_limit
                        current_segment_text with
        | Raises e => Raises e
        | OutOfFuel => OutOfFuel
        | Return None => finish
        | Return (Some last_space_index) =>
            let segment_first_part :=
              firstn last_space_index current_segment_text in
            let segment_second_part :=
              skipn (S last_space_index) current_segment_text in
            let '(words, resulting) :=
              emit_first_part segment_ segment_first_part
                              current_segment_words resulting_segments in
            word_limits_loop fuel' segment_ segment_word_limit
                             segment_character_limit words_count
                             segment_second_part words resulting
        end
    end
  else finish.

(** What the source does with a [text] value that is not a string, once
    the early returns are passed. *)
Definition word_limits_on_non_string (a : atom)
           (segment_word_limit segment_character_limit : option nat)
           (words_count : nat) : result split_value :=
  if truthy segment_character_limit then Raises TypeError
  else if (limit_value segment_word_limit <? words_count)%nat
  then Raises TypeError
  else match a with
       | PInt z => if Z.eqb z 0 then Return (Parts []) else Raises TypeError
       | _ => Return (Parts [])
       end.

Definition split_segment_by_word_limits (segment_ : entry)
           (segment_word_limit segment_character_limit : option nat)
  : result split_value :=
  if negb (truthy segment_word_limit)
     && negb (truthy segment_character_limit)
  then Return (Unsplit segment_)
  else
    match segment_ with
    | NonDict _ => Return (Unsplit segment_)
    | Dict s =>
        match seg_words s with
        | None | Some [] => Return (Unsplit segment_)
        | Some words =>
            match seg_text s with
            | None => Raises KeyError
            | Some (PStr text) =>
                bind (word_limits_loop
                        (S (length text)) s segment_word_limit
                        segment_character_limit (length words)
                        text words [])
                     (fun l => Return (Parts l))
            | Some a =>
                word_limits_on_non_string
                  a segment_word_limit segment_character_limit
                  (length words)
            end
        end
    end.

(** *** [split_segment_on_punctuation_marks] *)

Definition default_punctuation_marks : list char :=
  [dot; bang; qmark; ellipsis].

(** [any(mark in text for mark in marks)] *)
Definition has_mark (marks : list char) (text : str) : bool :=
  existsb (fun m => mem m text) marks.

(** [min(text.find(mark) for mark in marks if mark in text)] *)
Definition first_mark_index (marks : list char) (text : str) : nat :=
  let found :=
    flat_map (fun m => match find m text with
                       | Some i => [i]
                       | None => []
                       end) marks in
  match found with
  | [] => 0%nat
  | i :: rest => fold_left Nat.min rest i
  end.

(** The inner [while]: consecutive marks stay together.  [after] is the
    text that follows index [index]. *)
Fixpoint skip_marks (marks : list char) (after : str) (index : nat) : nat :=
  match after with
  | c :: after' =>
      if mem c marks then skip_marks marks after' (S index) else index
  | [] => index
  end.

Fixpoint punctuation_loop (fuel : nat) (segment_ : segment)
         (marks : list char)
         (current_segment_text : str) (current_segment_words : list word)
         (resulting_segments : list segment) : result (list segment) :=
  if has_mark marks current_segment_text
  then
    match fuel with
    | O => OutOfFuel
    | S fuel' =>
        let first_index := first_mark_index marks current_segment_text in
        let index :=
          skip_marks marks (skipn (S first_index) current_segment_text)
                     first_index in
        let segment_first_part := firstn (S index) current_segment_text in
        let '(words, resulting) :=
          emit_first_part segment_ segment_first_part
                          current_segment_words resulting_segments in
        punctuation_loop fuel' segment_ marks
                         (skipn (S index) current_segment_text)
                         words resulting
    end
  else
    Return (emit_rest segment_ current_segment_text current_segment_words
                      resulting_segments).

(** The marks are single characters, as in the default list and as a
    string of marks is turned into by [list(punctuation_marks)]. *)
Definition split_segment_on_punctuation_marks (segment_ : entry)
           (punctuation_marks : list char) : result split_value :=
  match segment_ with
  | NonDict (PStr s) =>
      if contains (of_string "words"%string) s then Raises TypeError
      else Return (Unsplit segment_)
  | NonDict _ => Raises TypeError
  | Dict s =>
      match seg_words s with
      | None | Some [] => Return (Unsplit segment_)
      | Some words =>
          match seg_text s with
          | None => Raises KeyError
          | Some (PStr text) =>
              let text := replace_dots text in
              bind (punctuation_loop (S (length text)) s punctuation_marks
                                     text words [])
                   (fun l => Return (Parts l))
          | Some _ => Raises AttributeError
          end
      end
  end.

(** *** Vocabulary for the properties of the splitter *)

(** The texts of a list of segments. *)
Definition texts (l : list segment) : list (option atom) :=
  map seg_text l.

(** The text a part gets from the raw piece of text cut for it. *)
Definition part_text (raw : str) : option atom :=
  Some (PStr (with_leading_space raw)).

Definition non_empty (s : str) : bool :=
  match s with [] => false | _ => true end.

(** [' '.join(pieces)] *)
Fixpoint join (pieces : list str) : str :=
  match pieces with
  | [] => []
  | p :: rest =>
      match rest with
      | [] => p
      | _ => p ++ space :: join rest
      end
  end.

(** The segment carries word-level timings. *)
Definition has_word_timings (s : segment) : bool :=
  match seg_words s with
  | Some (_ :: _) => true
  | _ => false
  end.

(** [raw] is the text [t] of a part, with or without its leading space:
    the reading of "stripped of the synthetic leading space" that asks
    the least. *)
Definition strips_to (t raw : str) : Prop :=
  t = raw \/ t = space :: raw.

(** The texts of the parts, each stripped that way, concatenate to
    [text]. *)
Definition round_trip (parts : list segment) (text : str) : Prop :=
  exists raws,
    Forall2 (fun p raw => exists t, seg_text p = Some (PStr t)
                                    /\ strips_to t raw) parts raws
    /\ concat raws = text.

(** The round-trip property of the specification, for each strategy. *)
Definition punctuation_round_trip (s : segment) (marks : list char)
  : Prop :=
  forall text parts,
    seg_text s = Some (PStr text) ->
    split_segment_on_punctuation_marks (Dict s) marks
    = Return (Parts parts) ->
    round_trip parts text.

Definition limits_round_trip (s : segment)
           (segment_word_limit segment_character_limit : option nat)
  : Prop :=
  forall text parts,
    seg_text s = Some (PStr text) ->
    split_segment_by_word_limits
      (Dict s) segment_word_limit segment_character_limit
    = Return (Parts parts) ->
    round_trip parts text.

End Splitter.

(** ** Post-processing of one inference result *)

Module PostProcess.

Import Text Segments Splitter.
Open Scope Q_scope.

Section WithFloat.
Context {F : Py.Float}.

(** The keyword options the functions read.  [prevent_short_gaps] is the
    value the source holds after its [float(...)] conversion when that
    value is a float, and [None] otherwise (unset, [False], or an int
    [0], which the source leaves alone and then ignores).
    [post_remove_word_timestamps] is [None] when the key is not given. *)
Record options : Type := Options {
  split_on_punctuation_marks : bool;
  custom_punctuation_marks : list char;
  max_words_per_segment : option nat;
  max_chars_per_segment : option nat;
  prevent_short_gaps : option Q;
  post_remove_word_timestamps : option bool
}.

Definition default_options : options :=
  Options false default_punctuation_marks None None None None.

Inductive status : Type :=
| Canceled
| Failed
| OtherStatus (s : str).

(** What the inference backend returns: a dict with optional keys
    [segments], [language] and [status], or something else. *)
Inductive whisper_result : Type :=
| NotADict
| ResultDict (segments : option (list entry)) (language : option str)
             (status_ : option status).

(** *** [split_segments] *)

(** ['words' in x] *)
Definition has_words_key (e : entry) : result bool :=
  match e with
  | Dict s => Return (match seg_words s with Some _ => true | None => false end)
  | NonDict (PStr x) => Return (contains (of_string "words"%string) x)
  | NonDict _ => Raises TypeError
  end.

(** [new_segments.extend(v)]: a list is appended; a dict contributes its
    keys, and a string its characters. *)
Definition extend (new_segments : list entry) (v : split_value)
  : result (list entry) :=
  match v with
  | Parts l => Return (new_segments ++ map Dict l)
  | Unsplit (Dict s) =>
      Return (new_segments ++ map (fun k => NonDict (PStr k)) (dict_keys s))
  | Unsplit (NonDict (PStr x)) =>
      Return (new_segments ++ map (fun c => NonDict (PStr [c])) x)
  | Unsplit (NonDict _) => Raises TypeError
  end.

Fixpoint split_each (split : entry -> result split_value)
         (segments new_segments : list entry) : result (list entry) :=
  match segments with
  | [] => Return new_segments
  | s :: rest =>
      bind (split s) (fun v =>
      bind (extend new_segments v) (fun new_segments' =>
      split_each split rest new_segments'))
  end.

Definition is_some {A : Type} (o : option A) : bool :=
  match o with Some _ => true | None => false end.

Definition split_segments (segments : list entry) (o : options)
  : result (list entry) :=
  match segments with
  | [] => Return segments
  | first :: _ =>
      bind (has_words_key first) (fun has_words =>
      if negb has_words then Return segments
      else
        bind (if split_on_punctuation_marks o
              then split_each
                     (fun s => split_segment_on_punctuation_marks
                                 s (custom_punctuation_marks o))
                     segments []
              else Return segments) (fun segments =>
        if is_some (max_chars_per_segment o)
           || is_some (max_words_per_segment o)
        then split_each
               (fun s => split_segment_by_word_limits
                           s (max_words_per_segment o)
                           (max_chars_per_segment o))
               segments []
        else Return segments))
  end.

(** *** The housekeeping loop of [post_process_whisper_result]

    The loop iterates over [result['segments']] while removing entries
    from that same list, and it changes the end of a segment it has
    already appended to [new_result_segments].  Both lists hold
    references to the same dicts, so the model keeps the objects in a
    store, and the two lists are lists of references (the position of
    the object in the list the loop started with: each position holds
    a dict of its own, as in the lists the backend and the splitter
    build). *)

Record state : Type := State {
  store : list entry;
  result_segments : list nat;
  new_result_segments : list nat;
  previous_segment_end_time : option Q
}.

Definition lookup (st : list entry) (r : nat) : entry :=
  nth r st (NonDict PNone).

Fixpoint update (st : list entry) (r : nat) (e : entry) : list entry :=
  match st, r with
  | [], _ => []
  | _ :: t, O => e :: t
  | x :: t, S r' => x :: update t r' e
  end.

(** ['text' in segment and isinstance(segment['text'], str)
    and segment['text'] != ''] *)
Definition valid_text (s : segment) : bool :=
  match seg_text s with
  | Some (PStr (_ :: _)) => true
  | _ => false
  end.

Definition valid_entry (e : entry) : bool :=
  match e with
  | Dict s => valid_text s
  | NonDict _ => false
  end.

(** [result['segments'].remove(segment)] *)
Definition remove_segment (st : state) (r : nat) : state :=
  State (store st)
        (remove_first
           (fun a b => entry_eqb (lookup (store st) a) (lookup (store st) b))
           r (result_segments st))
        (new_result_segments st)
        (previous_segment_end_time st).

(** [kwargs.get('post_remove_word_timestamps', False)] *)
Definition remove_words_option (o : options) : bool :=
  match post_remove_word_timestamps o with Some b => b | None => false end.

(** [if 'words' in segment and kwargs.get(...): del segment['words']] *)
Definition strip_words (o : options) (s : segment) : segment :=
  if remove_words_option o then set_seg_words s None else s.

(** The body of the loop for a segment that passes both checks. *)
Definition keep_segment (o : options) (st : state) (r : nat) (s : segment)
  : state :=
  let s1 := strip_words o s in
  let store1 := update (store st) r (Dict s1) in
  let store2 :=
    match previous_segment_end_time st, prevent_short_gaps o with
    | Some previous_end, Some threshold =>
        if Py.ltb (Py.fsub (seg_start s1) previous_end) threshold
        then
          let previous := last (new_result_segments st) O in
          match lookup store1 previous with
          | Dict p => update store1 previous (Dict (set_seg_end p (seg_start s1)))
          | NonDict _ => store1
          end
        else store1
    | _, _ => store1
    end in
  State store2 (result_segments st) (new_result_segments st ++ [r])
        (Some (seg_end s1)).

(** [for n, segment in enumerate(result['segments'])]: the iterator reads
    position [n] of the list as it is at that moment. *)
Fixpoint housekeeping_loop (fuel : nat) (o : options) (n : nat) (st : state)
  : result state :=
  match nth_error (result_segments st) n with
  | None => Return st
  | Some r =>
      match fuel with
      | O => OutOfFuel
      | S fuel' =>
          match lookup (store st) r with
          | NonDict _ =>
              housekeeping_loop fuel' o (S n) (remove_segment st r)
          | Dict s =>
              if valid_text s
              then housekeeping_loop fuel' o (S n) (keep_segment o st r s)
              else housekeeping_loop fuel' o (S n) (remove_segment st r)
          end
      end
  end.

Definition housekeeping_state (o : options) (segments : list entry)
  : result state :=
  housekeeping_loop (length segments) o 0
                    (State segments (seq 0 (length segments)) [] None).

(** The references the loop appended to [new_result_segments]. *)
Definition housekeeping_refs (o : options) (segments : list entry)
  : result (list nat) :=
  bind (housekeeping_state o segments)
       (fun st => Return (new_result_segments st)).

(** The list [new_result_segments], as values. *)
Definition housekeeping (o : options) (segments : list entry)
  : result (list entry) :=
  bind (housekeeping_state o segments)
       (fun st => Return (map (lookup (store st)) (new_result_segments st))).

Definition post_process_whisper_result (r : whisper_result) (o : options)
  : result whisper_result :=
  match r with
  | NotADict => Return r
  | ResultDict None _ _ => Return r
  | ResultDict (Some segments) language status_ =>
      bind (split_segments segments o) (fun segments =>
      bind (housekeeping o segments) (fun segments =>
      Return (ResultDict (Some segments) language status_)))
  end.

(** The references of the segments [post_process_whisper_result]
    returns: their positions in the list that [split_segments] hands to
    the housekeeping loop. *)
Definition post_process_refs (r : whisper_result) (o : options)
  : result (list nat) :=
  match r with
  | ResultDict (Some segments) _ _ =>
      bind (split_segments segments o) (housekeeping_refs o)
  | _ => Return []
  end.

(** *** Vocabulary for the properties of the housekeeping loop *)

(** The positions the loop keeps, counted from [k]: a valid entry is
    kept, and an invalid entry takes the entry after it away with it. *)
Fixpoint kept_refs (k : nat) (l : list entry) : list nat :=
  match l with
  | [] => []
  | x :: rest =>
      if valid_entry x then k :: kept_refs (S k) rest
      else match rest with
           | [] => []
           | _ :: rest' => kept_refs (S (S k)) rest'
           end
  end.

(** The segments at those positions. *)
Fixpoint kept_segments (l : list entry) : list segment :=
  match l with
  | [] => []
  | x :: rest =>
      match x with
      | Dict s =>
          if valid_text s then s :: kept_segments rest
          else match rest with
               | [] => []
               | _ :: rest' => kept_segments rest'
               end
      | NonDict _ =>
          match rest with
          | [] => []
          | _ :: rest' => kept_segments rest'
          end
      end
  end.

(** What the gap rule does to a segment [a] followed by [b]. *)
Definition close_gap (threshold : option Q) (a b : segment) : segment :=
  match threshold with
  | Some t =>
      if Py.ltb (Py.fsub (seg_start b) (seg_end a)) t
      then set_seg_end a (seg_start b)
      else a
  | None => a
  end.

Fixpoint fill_gaps (threshold : option Q) (l : list segment)
  : list segment :=
  match l with
  | [] => []
  | a :: rest =>
      match rest with
      | [] => [a]
      | b :: _ => close_gap threshold a b :: fill_gaps threshold rest
      end
  end.

(** The end of the last segment of a list, if any. *)
Definition last_end (l : list segment) : option Q :=
  match rev l with
  | [] => None
  | a :: _ => Some (seg_end a)
  end.

(** What holds of the store each time the loop is about to read an
    entry: [k] entries of the initial list [initial] are behind the
    iterator, the entries from [k] on are untouched, and the segments
    appended so far are the list [l] with its gaps closed. *)
Definition store_invariant (o : options) (initial : list entry) (k : nat)
           (st : state) (l : list segment) : Prop :=
  length (store st) = length initial
  /\ (forall r, (k <= r)%nat -> lookup (store st) r = lookup initial r)
  /\ NoDup (new_result_segments st)
  /\ (forall r, In r (new_result_segments st) -> (r < k)%nat)
  /\ map (lookup (store st)) (new_result_segments st)
     = map Dict (fill_gaps (prevent_short_gaps o) l)
  /\ previous_segment_end_time st = last_end l.

(** No two entries of the list are equal. *)
Definition distinct_entries (l : list entry) : Prop :=
  forall i j a b,
    i <> j -> nth_error l i = Some a -> nth_error l j = Some b ->
    entry_eqb a b = false.

(** An invalid entry at position [p], followed by a valid segment, takes
    that segment out of the result. *)
Definition drops_successor (o : options) (l : list entry) (p : nat)
  : Prop :=
  forall x v,
    distinct_entries l ->
    nth_error l p = Some x -> valid_entry x = false ->
    nth_error l (S p) = Some v -> valid_entry v = true ->
    exists refs,
      post_process_refs (ResultDict (Some l) None None) o = Return refs
      /\ ~ In (S p) refs.

End WithFloat.

End PostProcess.

(** ** Segment stitcher *)

Module Stitcher.

Import Text Segments Intervals PostProcess.
Open Scope Q_scope.

Section WithFloat.
Context {F : Py.Float}.

(** What the stitcher asks of the transcription store. *)
Inductive store_event : Type :=
| DeleteSegmentsBetween (start end_ : Q)
| AddSegments (batch : list segment)
| SaveSoon.

(** The dict [results]. *)
Record results : Type := Results {
  res_segments : list segment;
  res_whisper_language : option str;
  res_status : option status
}.

(** What a call leaves behind: the requests made to the store, which
    stay made when an exception ends the call, and the returned value. *)
Record outcome : Type := Outcome {
  events : list store_event;
  returned : result results
}.

(** The local variables of the loop over the audio segments. *)
Record locals : Type := Locals {
  l_segments : list segment;
  l_language : option str;
  l_result : option whisper_result;
  l_id_count : Z;
  l_events : list store_event
}.

Definition clip_word (audio_segment_start audio_segment_end : Q) (w : word)
  : word :=
  let s := w_start w + audio_segment_start in
  let e := w_end w + audio_segment_start in
  let e := if Py.ltb audio_segment_end e then audio_segment_end else e in
  let s := if Py.ltb s audio_segment_start then audio_segment_start else s in
  Word (w_word w) s e.

(** The body of [for i, transcript_segment in enumerate(result['segments'])]:
    offset, clip, then the id. *)
Definition place_segment (audio_segment_start audio_segment_end : Q)
           (id : Z) (t : segment) : segment :=
  let s := seg_start t + audio_segment_start in
  let e := seg_end t + audio_segment_start in
  let e := if Py.ltb audio_segment_end e then audio_segment_end else e in
  let s := if Py.ltb s audio_segment_start then audio_segment_start else s in
  Segment (Some id) s e (seg_text t)
          (option_map (map (clip_word audio_segment_start audio_segment_end))
                      (seg_words t)).

Fixpoint place_segments (audio_segment_start audio_segment_end : Q)
         (next_segment_id id_count : Z) (segments : list entry)
  : result (list segment) :=
  match segments with
  | [] => Return []
  | NonDict _ :: _ => Raises TypeError
  | Dict t :: rest =>
      bind (place_segments audio_segment_start audio_segment_end
                           next_segment_id (id_count + 1) rest)
           (fun placed =>
              Return (place_segment audio_segment_start audio_segment_end
                                    (next_segment_id + id_count) t
                        :: placed))
  end.

(** [other_options.get('post_remove_word_timestamps', True)] *)
Definition stitcher_options (o : options) : options :=
  Options (split_on_punctuation_marks o) (custom_punctuation_marks o)
          (max_words_per_segment o) (max_chars_per_segment o)
          (prevent_short_gaps o)
          (Some (match post_remove_word_timestamps o with
                 | Some b => b
                 | None => true
                 end)).

Section Backend.
Variable Sample : Type.

(** The inference backend: the number of calls made before this one
    (the backend is stateful: it reads the queue, the progress and the
    clock), the audio window and [total_duration]. *)
Variable transcribe : nat -> window Sample -> Q -> whisper_result.

(** [transcription] is [None] or the store; [next_segment_id] is [0] or
    what [generate_new_segment_id()] returned. *)
Variable has_transcription : bool.
Variable next_segment_id : Z.

Definition log (l : list store_event) (e : store_event)
  : list store_event :=
  if has_transcription then l ++ [e] else l.

Definition total_duration (audio_segments : list (window Sample)) : Q :=
  fold_left Qplus (map (fun w => wend w - wstart w) audio_segments) 0.

Fixpoint transcribe_loop (o : options) (total : Q) (calls : nat)
         (audio_segments : list (window Sample)) (v : locals)
  : list store_event * result locals :=
  match audio_segments with
  | [] => (l_events v, Return v)
  | audio_segment :: rest =>
      let events1 :=
        log (l_events v)
            (DeleteSegmentsBetween (wstart audio_segment)
                                   (wend audio_segment)) in
      let raw := transcribe calls audio_segment total in
      match post_process_whisper_result raw (stitcher_options o) with
      | Raises e => (events1, Raises e)
      | OutOfFuel => (events1, OutOfFuel)
      | Return r =>
          match r with
          | ResultDict (Some (t :: ts)) language _ =>
              match place_segments (wstart audio_segment)
                                   (wend audio_segment)
                                   next_segment_id (l_id_count v)
                                   (t :: ts) with
              | Raises e => (events1, Raises e)
              | OutOfFuel => (events1, OutOfFuel)
              | Return batch =>
                  transcribe_loop
                    o total (S calls) rest
                    (Locals (l_segments v ++ batch)
                            (Some (match language with
                                   | Some l => l
                                   | None => []
                                   end))
                            (Some r)
                            (l_id_count v + Z.of_nat (length batch))
                            (log (log events1 (AddSegments batch))
                                 SaveSoon))
              end
          | _ =>
              transcribe_loop
                o total (S calls) rest
                (Locals (l_segments v) (l_language v) (Some r)
                        (l_id_count v) (log events1 SaveSoon))
          end
      end
  end.

Definition whisper_transcribe_segments
           (audio_segments : list (window Sample)) (o : options) : outcome :=
  let '(ev, r) :=
    transcribe_loop o (total_duration audio_segments) 0 audio_segments
                    (Locals [] None None 0 []) in
  Outcome ev
    (bind r (fun v =>
       Return (Results (l_segments v) (l_language v)
                       (match l_result v with
                        | Some (ResultDict _ _ status_) => status_
                        | _ => None
                        end)))).

(** The status [whisper_transcribe] writes to the queue item when the
    call above is over: a missing result (an exception was caught)
    fails the item, a result with status failed or canceled passes its
    status on, and anything else goes on to save the files. *)
Inductive queue_status : Type :=
| QueueFailed
| QueueCanceled
| QueueSavingFiles.

Definition whisper_transcribe_status (r : result results) : queue_status :=
  match r with
  | Return res =>
      match res_status res with
      | Some Failed => QueueFailed
      | Some Canceled => QueueCanceled
      | _ => QueueSavingFiles
      end
  | _ => QueueFailed
  end.
End Backend.

(** *** Vocabulary for the properties of the stitcher *)

(** The segments handed to [add_segments], in order. *)
Definition persisted (ev : list store_event) : list segment :=
  flat_map (fun e => match e with
                     | AddSegments batch => batch
                     | _ => []
                     end) ev.

(** The ids of the list are [n], [n + 1], [n + 2], ... in order. *)
Fixpoint ids_from (n : Z) (l : list segment) : Prop :=
  match l with
  | [] => True
  | s :: rest => seg_id s = Some n /\ ids_from (n + 1) rest
  end.

(** Every segment has an id, and a later segment has a larger id. *)
Definition strictly_increasing_ids (l : list segment) : Prop :=
  forall i j a b,
    (i < j)%nat -> nth_error l i = Some a -> nth_error l j = Some b ->
    exists x y, seg_id a = Some x /\ seg_id b = Some y /\ (x < y)%Z.

(** What holds of the local variables between two audio segments. *)
Definition locals_invariant (has_transcription : bool)
           (next_segment_id : Z) (v : locals) : Prop :=
  l_id_count v = Z.of_nat (length (l_segments v))
  /\ ids_from next_segment_id (l_segments v)
  /\ persisted (l_events v)
     = (if has_transcription then l_segments v else []).

End WithFloat.

End Stitcher.

(** ** Sample data *)

Module Samples.

Import Text Segments.
Open Scope Q_scope.

(** ["Wait... ok"], two words. *)
Definition wait_ok : segment :=
  Segment (Some 0%Z) 0 2 (Some (PStr (of_string "Wait... ok"%string)))
          (Some [Word (of_string "Wait..."%string) 0 1;
                 Word (of_string " ok"%string) 1 2]).

(** ["a  b"], with two spaces between the words. *)
Definition a_b : segment :=
  Segment (Some 0%Z) 0 2 (Some (PStr (of_string "a  b"%string)))
          (Some [Word (of_string "a"%string) 0 1;
                 Word (of_string "  b"%string) 1 2]).

(** The segment of the specification's scenario. *)
Definition hello_world : segment :=
  Segment (Some 0%Z) 0 5
          (Some (PStr (of_string "Hello world. How are you?"%string)))
          (Some [Word (of_string "Hello"%string) 0 1;
                 Word (of_string " world."%string) 1 2;
                 Word (of_string " How"%string) 2 3;
                 Word (of_string " are"%string) 3 4;
                 Word (of_string " you?"%string) 4 5]).

(** Entries for the housekeeping loop: no text, an empty text, and a
    segment with a text. *)
Definition no_text : entry := Dict (Segment None 0 0 None None).
Definition empty_text : entry := Dict (Segment None 0 0 (Some (PStr [])) None).
Definition spoken (t : String.string) (a b : Q) : entry :=
  Dict (Segment None a b (Some (PStr (of_string t))) None).

(** A backend for a run of three windows in which cancellation is
    requested before the second one: the first call transcribes, the
    second call reports [canceled] without segments, and the third call
    transcribes again. *)
Definition canceled_at_second_call (calls : nat)
           (w : Intervals.window Z) (total_duration : Q)
  : PostProcess.whisper_result :=
  match calls with
  | 0%nat => PostProcess.ResultDict (Some [spoken " one" 0 1]) None None
  | 1%nat =>
      PostProcess.ResultDict (Some []) None (Some PostProcess.Canceled)
  | _ => PostProcess.ResultDict (Some [spoken " three" 0 1]) None None
  end.

Definition three_windows : list (Intervals.window Z) :=
  [Intervals.Window 0 1 []; Intervals.Window 1 2 [];
   Intervals.Window 2 3 []].

End Samples.

(** ** Further parts of the same file

    The modules below embed [get_speech_intervals],
    [_split_audio_into_segments], [whisper_options] and the decoding
    options of [whisper_transcribe_segments], the observer registry of
    [ToolkitOps], [NotificationService], the speaker markers of
    [speaker_detection] and [classify_segments].  What lies outside the
    code (the voice activity detector, the classifier, the cancellation
    flag of the queue, the receivers of a notification) is a parameter of
    the model. *)

(** ** More vocabulary for the interval operations *)

Module IntervalShapes.

Import Intervals.
Open Scope Q_scope.

Definition well_formed (i : interval) : Prop := istart i <= iend i.
Definition proper (i : interval) : Prop := istart i < iend i.

(** Consecutive pieces: each one ends before the next one starts. *)
Definition chain : list interval -> Prop :=
  StronglySorted (fun a b => iend a <= istart b).

(** The time [t] is strictly outside the interval. *)
Definition outside (e : interval) (t : Q) : Prop :=
  t < istart e \/ iend e < t.

(** The pieces of one kept interval: either the interval itself, or
    proper pieces in a chain. *)
Definition pieces_of (q : interval) (temps : list interval) : Prop :=
  temps = [q] \/ (Forall proper temps /\ chain temps).

Section WithFloat.
Context {F : Py.Float}.

(** The merge test of [combine_intervals] fails between each interval
    of the list and the next one. *)
Fixpoint unmerged (g : Q) (l : list interval) : Prop :=
  match l with
  | a :: rest =>
      match rest with
      | b :: _ =>
          Py.leb (Py.fsub (istart b) (iend a)) g = false /\ unmerged g rest
      | [] => True
      end
  | [] => True
  end.

End WithFloat.

End IntervalShapes.

(** ** Speech detection and the preparation of the audio *)

Module Speech.

Import Intervals Segments.
Open Scope Q_scope.

Section WithFloat.
Context {F : Py.Float}.

(** [interval[0] = s] *)
Definition set_start (i : interval) (s : Q) : interval :=
  Interval s (iend i).

(** What the voice activity detector returns for a stretch of speech:
    [{'start': .., 'end': ..}], in samples. *)
Record speech_timestamp : Type :=
  SpeechTimestamp { ts_start : Z; ts_end : Z }.

(** [[t['start'] / sample_rate, t['end'] / sample_rate]] *)
Definition to_seconds (sample_rate : positive) (t : speech_timestamp)
  : interval :=
  Interval (ts_start t # sample_rate) (ts_end t # sample_rate).

(** [get_speech_intervals], from the point where the detector has
    returned [detected].  [sample_rate] and [combine_speech_min_time]
    are the keyword arguments of these names ([16_000] and [3] when
    they are not given).  Reading [speech_timestamps[0]] raises
    [IndexError] on an empty list. *)
Definition get_speech_intervals (detected : list speech_timestamp)
           (sample_rate : positive) (combine_speech_min_time : Q)
  : result (list interval) :=
  let speech_timestamps := map (to_seconds sample_rate) detected in
  match speech_timestamps with
  | [] => Return []
  | _ :: _ =>
      match combine_intervals speech_timestamps combine_speech_min_time with
      | [] => Raises IndexError
      | first :: rest =>
          if Py.ltb 0 (istart first) && Py.ltb (istart first) 1
          then Return (set_start first 0 :: rest)
          else Return (first :: rest)
      end
  end.

(** *** [_split_audio_into_segments] *)

(** The keyword arguments the function reads. *)
Record request : Type := Request {
  pre_detect_speech : bool;
  time_intervals : arg;
  excluded_time_intervals : arg
}.

(** [kwargs.get(key, None) and type(kwargs.get(key, None)) is not bool]:
    the list when the test passes. *)
Definition requested (a : arg) : option (list interval) :=
  match a with
  | AList (i :: l) => Some (i :: l)
  | _ => None
  end.

(** The calls of [update_queue_item] the function makes. *)
Inductive queue_update : Type :=
| PreDetectingSpeech
| FailedNoSpeechDetected.

Section Audio.
Variable Sample : Type.

(** The sample rate [librosa.load] is asked for, and the one the
    fall-back sets. *)
Definition sr : positive := 16000.

(** The body of [_split_audio_into_segments] from the point where
    the speech intervals are known ([time_intervals_] is [None] when
    speech detection is off): the intervals of the request, the
    split, the exclusions, and the last two cancellation
    checkpoints.  [updates] are the queue updates made so far. *)
Definition split_selected (audio_array : list Sample)
           (canceled : nat -> bool) (kwargs : request)
           (updates : list queue_update)
           (time_intervals_ : option (list interval))
  : list queue_update
    * result (option (list (window Sample) * list interval)) :=
  let time_intervals_ :=
    match requested (time_intervals kwargs) with
    | Some from_request =>
        match time_intervals_ with
        | None => Some from_request
        | Some speech =>
            combine_overlapping_intervals (AList from_request)
                                          (AList speech)
        end
    | None => time_intervals_
    end in
  let '(audio_segments, time_intervals_) :=
    split_audio_by_intervals audio_array time_intervals_ sr in
  if canceled 1%nat then (updates, Return None)
  else
    let '(audio_segments, time_intervals_) :=
      match requested (excluded_time_intervals kwargs) with
      | Some excluded =>
          exclude_segments_by_intervals
            audio_array (Some time_intervals_) (Some excluded) sr
      | None => (audio_segments, time_intervals_)
      end in
    if canceled 2%nat then (updates, Return None)
    else (updates, Return (Some (audio_segments, time_intervals_))).

(** [audio_array] is the loaded audio; [canceled k] is what the
    [k]-th call of [cancel_if_canceled] answers; [detected] is what the
    detector returns for this audio; [has_queue_id] tells whether
    [queue_id] is given.  The pair [(None, None)] is [None]. *)
Definition _split_audio_into_segments (audio_array : list Sample)
           (canceled : nat -> bool) (detected : list speech_timestamp)
           (has_queue_id : bool) (kwargs : request)
  : list queue_update
    * result (option (list (window Sample) * list interval)) :=
  if canceled 0%nat then ([], Return None)
  else if pre_detect_speech kwargs
  then
    match get_speech_intervals detected 16000 3 with
    | Raises e => ([PreDetectingSpeech], Raises e)
    | OutOfFuel => ([PreDetectingSpeech], OutOfFuel)
    | Return [] =>
        ([PreDetectingSpeech]
           ++ (if has_queue_id then [FailedNoSpeechDetected] else []),
         Return None)
    | Return speech =>
        split_selected audio_array canceled kwargs
                       [PreDetectingSpeech] (Some speech)
    end
  else split_selected audio_array canceled kwargs [] None.
End Audio.

(** *** Vocabulary *)

(** The windows and the intervals go together: one window per interval,
    starting where the interval starts. *)
Definition aligned (Sample : Type) (audio_segments : list (window Sample))
           (intervals : list interval) : Prop :=
  map (@wstart Sample) audio_segments = map istart intervals.

(** The two intervals share no time. *)
Definition apart (a b : interval) : Prop :=
  iend a < istart b \/ iend b < istart a.

End WithFloat.

End Speech.

(** ** More vocabulary for the splitter *)

Module SplitterShapes.

Import Text Segments Splitter.
Open Scope Q_scope.

(** The word timings a part carries. *)
Definition part_words (p : segment) : list word :=
  match seg_words p with
  | Some ws => ws
  | None => []
  end.

(** What every part made from the segment [s] looks like: no id, a text
    that starts with a space, a list of words, and the times of its
    first and last word, or those of [s] when it has no word. *)
Definition part_of (s p : segment) : Prop :=
  seg_id p = None
  /\ (exists t, seg_text p = Some (PStr (space :: t)))
  /\ exists ws,
      seg_words p = Some ws
      /\ seg_start p = first_start ws (seg_start s)
      /\ seg_end p = Splitter.last_end ws (seg_end s).

End SplitterShapes.

(** ** More vocabulary for the stitcher *)

Module StitcherShapes.

Import Segments Intervals Stitcher.
Open Scope Q_scope.

(** The segment and its words lie within the bounds of a window from
    below (starts) and from above (ends). *)
Definition clipped_to (window_start window_end : Q) (p : segment) : Prop :=
  window_start <= seg_start p /\ seg_end p <= window_end
  /\ forall ws w, seg_words p = Some ws -> In w ws ->
                  window_start <= w_start w /\ w_end w <= window_end.

Definition within_a_window (Sample : Type)
           (audio_segments : list (window Sample)) (p : segment) : Prop :=
  exists w, In w audio_segments /\ clipped_to (wstart w) (wend w) p.

(** The bounds of the [delete_segments_between] requests, in order. *)
Definition deleted (ev : list store_event) : list (Q * Q) :=
  flat_map (fun e => match e with
                     | DeleteSegmentsBetween a b => [(a, b)]
                     | _ => []
                     end) ev.

(** The number of [save_soon] requests. *)
Definition saves (ev : list store_event) : nat :=
  length (filter (fun e => match e with SaveSoon => true | _ => false end)
                 ev).

(** The batches handed to [add_segments], in order. *)
Definition batches (ev : list store_event) : list (list segment) :=
  flat_map (fun e => match e with
                     | AddSegments batch => [batch]
                     | _ => []
                     end) ev.

Definition bounds (Sample : Type) (w : window Sample) : Q * Q :=
  (wstart w, wend w).

End StitcherShapes.

(** ** More sample data *)

Module MoreSamples.

Import Text Segments.
Open Scope Q_scope.

(** A backend whose second answer holds an entry that is not a
    segment. *)
Definition not_a_segment_at_second_call (calls : nat)
           (w : Intervals.window Z) (total_duration : Q)
  : PostProcess.whisper_result :=
  match calls with
  | 0%nat =>
      PostProcess.ResultDict (Some [Samples.spoken " one" 0 1]) None None
  | _ => PostProcess.ResultDict (Some [NonDict PNone]) None None
  end.

End MoreSamples.

(** ** The options passed on to the inference backend *)

Module WhisperOptions.

Import Text.
Local Open Scope string_scope.
Local Open Scope list_scope.

(** The Python values a keyword argument may hold, as far as
    [isinstance] tells them apart. *)
Inductive value : Type :=
| VNone
| VBool (b : bool)
| VInt (z : Z)
| VFloat (q : Q)
| VStr (s : str)
| VOther.

Inductive param_type : Type := TStr | TInt | TFloat | TBool.

(** [isinstance(v, t)]: [bool] is a subclass of [int], and an [int] is
    not a [float]. *)
Definition isinstance (v : value) (t : param_type) : bool :=
  match t, v with
  | TStr, VStr _ => true
  | TInt, VInt _ => true
  | TInt, VBool _ => true
  | TFloat, VFloat _ => true
  | TBool, VBool _ => true
  | _, _ => false
  end.

(** A dict with string keys, in insertion order. *)
Definition dict (A : Type) : Type := list (String.string * A).

(** [d[k]], or [None] when [k not in d]. *)
Fixpoint get (A : Type) (k : String.string) (d : dict A) : option A :=
  match d with
  | [] => None
  | (k', v) :: rest => if String.eqb k k' then Some v else get k rest
  end.

(** [del d[k]] *)
Fixpoint del (A : Type) (k : String.string) (d : dict A) : dict A :=
  match d with
  | [] => []
  | (k', v) :: rest =>
      if String.eqb k k' then del k rest else (k', v) :: del k rest
  end.

Definition keys (A : Type) (d : dict A) : list String.string :=
  map fst d.

Definition allowed_parameters : list (String.string * param_type) :=
  [("audio_file_path", TStr);
   ("language", TStr);
   ("model", TStr);
   ("device", TStr);
   ("task", TStr);
   ("initial_prompt", TStr);
   ("beam_size", TInt);
   ("best_of", TInt);
   ("temperature", TFloat);
   ("compression_ratio_threshold", TFloat);
   ("logprob_threshold", TFloat);
   ("no_speech_threshold", TFloat);
   ("word_timestamps", TBool);
   ("prepend_punctuations", TBool);
   ("append_punctuations", TBool);
   ("prompt", TStr);
   ("queue_id", TStr)].

(** The [for param, param_type in allowed] loop of [whisper_options],
    over any list of allowed parameters. *)
Definition filter_parameters (allowed : list (String.string * param_type))
           (parameters : dict value) : dict value :=
  flat_map
    (fun entry =>
       match get (fst entry) parameters with
       | Some v => if isinstance v (snd entry) then [(fst entry, v)] else []
       | None => []
       end)
    allowed.

Definition whisper_options (parameters : dict value) : dict value :=
  filter_parameters allowed_parameters parameters.

(** The decoding options [whisper_transcribe_segments] hands to the
    backend: the filtered options, without a language that is not a
    string, is [None] or is empty. *)
Definition decoding_options (parameters : dict value) : dict value :=
  let decoding_options := whisper_options parameters in
  match get "language" decoding_options with
  | Some (VStr []) => del "language" decoding_options
  | Some (VStr _) => decoding_options
  | Some _ => del "language" decoding_options
  | None => decoding_options
  end.

(** What the filter lets through for the key [k]. *)
Definition admitted (parameters : dict value) (k : String.string)
  : option value :=
  match get k allowed_parameters, get k parameters with
  | Some t, Some v => if isinstance v t then Some v else None
  | _, _ => None
  end.

End WhisperOptions.

(** ** Observers *)

Module Observers.

Import WhisperOptions.

(** An observer is an object; [list.remove] and [in] compare objects by
    identity, which is what the number stands for. *)
Definition observer : Type := nat.

(** [self._observers]: a dict from action names to lists of
    observers. *)
Definition observers : Type := dict (list observer).

(** [d[k] = v]: an existing key keeps its place, a new one goes last. *)
Fixpoint set (A : Type) (k : String.string) (v : A) (d : dict A)
  : dict A :=
  match d with
  | [] => [(k, v)]
  | (k', v') :: rest =>
      if String.eqb k k' then (k, v) :: rest else (k', v') :: set k v rest
  end.

(** [l.remove(x)]: [None] stands for [ValueError]. *)
Fixpoint remove (x : observer) (l : list observer)
  : option (list observer) :=
  match l with
  | [] => None
  | y :: rest =>
      if Nat.eqb y x then Some rest
      else option_map (cons y) (remove x rest)
  end.

Definition attach_observer (d : observers) (action : String.string)
           (o : observer) : observers :=
  match get action d with
  | None => set action [o] d
  | Some l => set action (l ++ [o]) d
  end.

(** What a call returns or raises. *)
Inductive answer : Type :=
| ReturnsFalse
| ReturnsNone
| RaisesValueError.

Definition dettach_observer (d : observers) (action : String.string)
           (o : observer) : observers * answer :=
  match get action d with
  | None => (d, ReturnsFalse)
  | Some l =>
      match remove o l with
      | None => (d, RaisesValueError)
      | Some [] => (del action d, ReturnsNone)
      | Some l' => (set action l' d, ReturnsNone)
      end
  end.

(** [notify_observers]: [None] when the call returns [False], and
    otherwise the observers whose [update()] it calls, in order (each
    call is taken to return). *)
Definition notify_observers (d : observers) (action : String.string)
  : option (list observer) :=
  get action d.

(** A call of one of the two methods that change the registry. *)
Inductive call : Type :=
| Attach (action : String.string) (o : observer)
| Dettach (action : String.string) (o : observer).

Definition step (d : observers) (c : call) : observers :=
  match c with
  | Attach a o => attach_observer d a o
  | Dettach a o => fst (dettach_observer d a o)
  end.

(** The registry after a series of calls on a new [ToolkitOps]. *)
Definition after (calls : list call) : observers :=
  fold_left step calls [].

(** Every action of the registry has at least one observer, and no
    action is there twice. *)
Definition tidy (d : observers) : Prop :=
  NoDup (keys d) /\ forall a l, In (a, l) d -> l <> [].

End Observers.

(** ** Notifications *)

Module Notifications.

Import Text WhisperOptions.

Record notification_message : Type := NotificationMessage {
  message : str;
  display_message : str;
  level : String.string;
  exc_info : option bool
}.

(** A receiver is an object with a [receive_notification] method. *)
Definition receiver : Type := nat.

Record notification_service : Type := NotificationService {
  batch : list notification_message;
  receivers : dict (list receiver)
}.

(** [x or y] on a value that is [None] or a string. *)
Definition or_else (x : option str) (y : str) : str :=
  match x with
  | Some (c :: s) => c :: s
  | _ => y
  end.

Definition add_message (self : notification_service) (message_ : str)
           (display_message_ : option str) (level_ : String.string)
           (exc_info_ : option bool) : notification_service :=
  NotificationService
    (batch self
       ++ [NotificationMessage message_ (or_else display_message_ message_)
                               level_ exc_info_])
    (receivers self).

(** [NotificationService(message, display_message=.., level=..,
    exc_info=..)]; [None] stands for [ValueError]. *)
Definition init (message_ display_message_ : option str)
           (level_ : String.string) (exc_info_ : option bool)
  : option notification_service :=
  match message_ with
  | Some (c :: s) =>
      Some (add_message (NotificationService [] []) (c :: s)
                        display_message_ level_ exc_info_)
  | _ =>
      match display_message_ with
      | Some (_ :: _) => None
      | _ => Some (NotificationService [] [])
      end
  end.

Definition RECEIVER_TYPES : list String.string := ["window"%string].

(** [to(receiver_type, receiver_reference)]; [None] stands for
    [ValueError]. *)
Definition to (self : notification_service) (receiver_type : String.string)
           (receiver_reference : receiver) : option notification_service :=
  if existsb (String.eqb receiver_type) RECEIVER_TYPES
  then
    Some (NotificationService
            (batch self)
            (match get receiver_type (receivers self) with
             | None =>
                 Observers.set receiver_type [receiver_reference]
                               (receivers self)
             | Some l =>
                 Observers.set receiver_type (l ++ [receiver_reference])
                               (receivers self)
             end))
  else None.

(** What a push does: calls of the logger and of the receivers. *)
Inductive event : Type :=
| Logged (m : notification_message)
| Received (r : receiver) (m : notification_message)
| LoggedProcessingError.

Section Receivers.
(** Whether [receive_notification] raises for this receiver and this
    message. *)
Variable raises : receiver -> notification_message -> bool.

(** The loop over the receivers: the events, and whether an
    exception ended it. *)
Fixpoint deliver (m : notification_message) (l : list receiver)
  : list event * bool :=
  match l with
  | [] => ([], false)
  | r :: rest =>
      if raises r m then ([Received r m], true)
      else let '(ev, failed) := deliver m rest in
           (Received r m :: ev, failed)
  end.

(** [_process_message]: the events and the returned boolean. *)
Definition _process_message (self : notification_service)
           (m : notification_message) : list event * bool :=
  let '(ev, failed) := deliver m (concat (map snd (receivers self))) in
  if failed then (Logged m :: ev ++ [LoggedProcessingError], false)
  else (Logged m :: ev, true).

Definition push (self : notification_service) : list event :=
  flat_map (fun m => fst (_process_message self m)) (batch self).
End Receivers.

(** The messages logged, in order. *)
Definition logged (ev : list event) : list notification_message :=
  flat_map (fun e => match e with Logged m => [m] | _ => [] end) ev.

(** The messages the receiver [r] was handed, in order. *)
Definition received_by (r : receiver) (ev : list event)
  : list notification_message :=
  flat_map (fun e => match e with
                     | Received r' m => if Nat.eqb r' r then [m] else []
                     | _ => []
                     end) ev.

End Notifications.

(** ** Speaker markers *)

Module Speakers.

Import Text.
Open Scope Q_scope.

Section Ids.
(** The values [segment['speaker_id']] takes, with their truth value
    and their [==]; [format id] is ['Speaker {}'.format(id)]. *)
Variable Id : Type.
Variable truthy : Id -> bool.
Variable eqb : Id -> Id -> bool.
Variable format : Id -> str.

(** A segment as the speaker detection returns it: its start, and
    its speaker id when it has the key. *)
Record detected : Type :=
  Detected { d_start : Q; d_speaker_id : option Id }.

Record meta_segment : Type := MetaSegment {
  m_start : Q;
  m_end : Q;
  m_meta : bool;
  m_category : str;
  m_text : str
}.

(** [not last_speaker_id or segment['speaker_id'] != last_speaker_id] *)
Definition speaker_changed (last_speaker_id : option Id) (id : Id)
  : bool :=
  match last_speaker_id with
  | None => true
  | Some last => negb (truthy last) || negb (eqb id last)
  end.

(** The loop over [resulting_segments], as the list of the segments
    for which it makes a meta segment, each with its speaker id. *)
Fixpoint speaker_changes (last_speaker_id : option Id)
         (resulting_segments : list detected) : list (Q * Id) :=
  match resulting_segments with
  | [] => []
  | segment_ :: rest =>
      match d_speaker_id segment_ with
      | None => speaker_changes last_speaker_id rest
      | Some id =>
          (if speaker_changed last_speaker_id id
           then [(d_start segment_, id)]
           else [])
            ++ speaker_changes (Some id) rest
      end
  end.

Definition meta_segment_of (change : Q * Id) : meta_segment :=
  MetaSegment (fst change) (fst change) true
              (of_string "speaker"%string) (format (snd change)).

(** The list [speaker_segments]. *)
Definition speaker_segments (resulting_segments : list detected)
  : list meta_segment :=
  map meta_segment_of (speaker_changes None resulting_segments).

(** *** Vocabulary *)

(** The speaker ids of the segments that have one, in order. *)
Definition speaker_ids (l : list detected) : list Id :=
  flat_map (fun s => match d_speaker_id s with
                     | Some id => [id]
                     | None => []
                     end) l.

(** A list of ids without its repetitions of the id just before. *)
Fixpoint without_repeats (last : option Id) (ids : list Id) : list Id :=
  match ids with
  | [] => []
  | id :: rest =>
      match last with
      | Some l => if eqb id l then without_repeats (Some id) rest
                  else id :: without_repeats (Some id) rest
      | None => id :: without_repeats (Some id) rest
      end
  end.
End Ids.

End Speakers.

(** ** Classification of segments *)

Module Classifier.

Import Text WhisperOptions.
Local Open Scope Q_scope.
Local Open Scope list_scope.

Definition label : Type := String.string.

(** [labels]: a list of strings, or a list of lists of strings. *)
Inductive label_groups : Type :=
| Flat (labels : list label)
| Grouped (labels : list (list label)).

(** [min_confidence]: a number, or a list of numbers. *)
Inductive confidence : Type :=
| One (c : Q)
| Many (cs : list Q).

Inductive outcome (A : Type) : Type :=
| Returns (a : A)
| RaisesException
| RaisesTypeError
| RaisesIndexError.
Arguments RaisesException {A}.
Arguments RaisesTypeError {A}.
Arguments RaisesIndexError {A}.

Definition pass_key : String.string := "_multi_label_pass_"%string.

(** [labels.index(sub_labels)] *)
Fixpoint index (sub_labels : list label) (labels : list (list label))
  : option nat :=
  match labels with
  | [] => None
  | g :: rest =>
      if list_eq_dec String.string_dec g sub_labels then Some 0%nat
      else option_map S (index sub_labels rest)
  end.

Section Classify.
(** A segment is a [TranscriptionSegment] or a dict; [seg_eqb] is
    [==], [text_of] and [words_of] read its text and the ['word'] of
    each of its words ([None] for [None] or a missing key),
    [is_space] tells the characters that [strip()] removes, and
    [classifier text labels] is the best label and its score. *)
Variable Segment : Type.
Variable seg_eqb : Segment -> Segment -> bool.
Variable text_of : Segment -> option str.
Variable words_of : Segment -> option (list str).
Variable is_space : char -> bool.
Variable classifier : str -> list label -> label * Q.

(** [not x] on a text and on a list of words. *)
Definition no_text (t : option str) : bool :=
  match t with Some (_ :: _) => false | _ => true end.
Definition no_words (w : option (list str)) : bool :=
  match w with Some (_ :: _) => false | _ => true end.

(** [not t or t.strip() == ''] *)
Definition blank (t : option str) : bool :=
  match t with
  | Some (c :: s) => forallb is_space (c :: s)
  | _ => true
  end.

(** The text that is classified for a segment; [None] when the loop
    moves on to the next segment. *)
Definition segment_text (s : Segment) : outcome (option str) :=
  if no_text (text_of s) && no_words (words_of s) then Returns None
  else
    let joined :=
      if blank (text_of s)
      then match words_of s with
           | Some ws => Returns (Some (Splitter.join ws))
           | None => RaisesTypeError
           end
      else Returns (text_of s) in
    match joined with
    | Returns t => if blank t then Returns None else Returns t
    | other => other
    end.

(** [classified_segments[label].append(segment)], after the key was
    made if need be. *)
Definition add (l : label) (s : Segment) (d : dict (list Segment))
  : dict (list Segment) :=
  match get l d with
  | None => Observers.set l [s] d
  | Some segments => Observers.set l (segments ++ [s]) d
  end.

(** The local variables the loop over the segments changes. *)
Record state : Type := State {
  classified_segments : dict (list Segment);
  min_confidence : confidence;
  polls : nat
}.

(** The [for sub_labels in labels] loop of the multi-label branch. *)
Fixpoint grouped_loop (labels : list (list label)) (text : str)
         (s : Segment) (groups : list (list label)) (passed : bool)
         (d : dict (list Segment)) (mc : confidence)
  : outcome (dict (list Segment) * confidence) :=
  match groups with
  | [] => Returns (d, mc)
  | sub_labels :: rest =>
      if negb passed then grouped_loop labels text s rest passed d mc
      else
        let '(best, score) := classifier text sub_labels in
        let threshold :=
          match mc with
          | One c => Some c
          | Many cs =>
              match index sub_labels labels with
              | Some i => nth_error cs i
              | None => None
              end
          end in
        match threshold with
        | None => RaisesIndexError
        | Some c =>
            if Py.ltb score c
            then grouped_loop labels text s rest false d (One c)
            else grouped_loop labels text s rest true (add best s d)
                              (One c)
        end
  end.

(** The classification of one text: [None] when the flat branch
    finds the confidence too low and moves on to the next segment. *)
Definition classify_text (labels : label_groups) (text : str)
           (s : Segment) (d : dict (list Segment)) (mc : confidence)
  : outcome (option (dict (list Segment) * confidence)) :=
  match labels with
  | Flat flat =>
      let '(best, score) := classifier text flat in
      match mc with
      | One c =>
          if negb (Qeq_bool c 0) && Py.ltb score c then Returns None
          else Returns (Some (add best s d, mc))
      | Many [] => Returns (Some (add best s d, mc))
      | Many (_ :: _) => RaisesTypeError
      end
  | Grouped groups =>
      match grouped_loop groups text s groups true d mc with
      | Returns r => Returns (Some r)
      | RaisesException => RaisesException
      | RaisesTypeError => RaisesTypeError
      | RaisesIndexError => RaisesIndexError
      end
  end.

(** The loop over the segments; [None] when a cancellation ends it.
    [canceled k] is what the [k]-th call of [cancel_if_canceled]
    answers. *)
Fixpoint classify_loop (labels : label_groups) (has_queue_id : bool)
         (canceled : nat -> bool) (segments : list Segment) (st : state)
  : outcome (option state) :=
  match segments with
  | [] => Returns (Some st)
  | s :: rest =>
      match segment_text s with
      | Returns None =>
          classify_loop labels has_queue_id canceled rest st
      | Returns (Some text) =>
          match classify_text labels text s (classified_segments st)
                              (min_confidence st) with
          | Returns None =>
              classify_loop labels has_queue_id canceled rest st
          | Returns (Some (d, mc)) =>
              if has_queue_id
              then if canceled (polls st) then Returns None
                   else classify_loop labels has_queue_id canceled rest
                                      (State d mc (S (polls st)))
              else classify_loop labels has_queue_id canceled rest
                                 (State d mc (polls st))
          | RaisesException => RaisesException
          | RaisesTypeError => RaisesTypeError
          | RaisesIndexError => RaisesIndexError
          end
      | RaisesException => RaisesException
      | RaisesTypeError => RaisesTypeError
      | RaisesIndexError => RaisesIndexError
      end
  end.

(** The outcome of the loop, without the threshold it ends with. *)
Definition classified (o : outcome (option state))
  : outcome (option (dict (list Segment) * nat)) :=
  match o with
  | Returns (Some st) =>
      Returns (Some (classified_segments st, polls st))
  | Returns None => Returns None
  | RaisesException => RaisesException
  | RaisesTypeError => RaisesTypeError
  | RaisesIndexError => RaisesIndexError
  end.

(** [[item for item in a if item in b]] *)
Definition intersect (a b : list Segment) : list Segment :=
  filter (fun item => existsb (seg_eqb item) b) a.

(** The [for label in multi_label_pass] loop. *)
Fixpoint multi_label_pass_loop (d : dict (list Segment))
         (multi_label_pass : list label) : dict (list Segment) :=
  match multi_label_pass with
  | [] => d
  | l :: rest =>
      match get l d with
      | None => d
      | Some segments =>
          match get pass_key d with
          | Some (x :: passed) =>
              multi_label_pass_loop
                (Observers.set pass_key (intersect (x :: passed) segments)
                               d)
                rest
          | _ =>
              multi_label_pass_loop (Observers.set pass_key segments d)
                                    rest
          end
      end
  end.

Definition groups_count (labels : label_groups) : nat :=
  match labels with
  | Flat l => length l
  | Grouped l => length l
  end.

(** The end of [classify_segments], from [if not classified_segments]
    on. *)
Definition finish (d : dict (list Segment)) (labels : label_groups)
           (multi_label_pass : option (list label))
  : option (dict (list Segment)) :=
  match d with
  | [] => None
  | _ =>
      match multi_label_pass with
      | Some (l :: rest) =>
          if (length (l :: rest) <=? groups_count labels)%nat
          then Some (multi_label_pass_loop (Observers.set pass_key [] d)
                                           (l :: rest))
          else Some d
      | _ => Some d
      end
  end.

(** The checks made before anything is classified: what they raise,
    or the [multi_label_pass] they leave. *)
Definition check_arguments (labels : label_groups) (mc : confidence)
           (multi_label_pass : option (list label))
  : outcome (option (list label)) :=
  match labels with
  | Flat [] | Grouped [] => RaisesIndexError
  | Flat _ =>
      match mc with
      | Many _ => RaisesException
      | One _ => Returns multi_label_pass
      end
  | Grouped groups =>
      if match mc with
         | Many cs => negb (length groups =? length cs)%nat
         | One _ => false
         end
      then RaisesException
      else
        match multi_label_pass with
        | None => RaisesTypeError
        | Some pass =>
            if (length groups <? length pass)%nat then Returns None
            else Returns (Some pass)
        end
  end.

Definition classify_segments (segments : list Segment)
           (labels : label_groups) (mc : confidence)
           (multi_label_pass : option (list label))
           (has_queue_id : bool) (canceled : nat -> bool)
  : outcome (option (dict (list Segment))) :=
  match segments with
  | [] => Returns None
  | _ =>
      match check_arguments labels mc multi_label_pass with
      | Returns multi_label_pass =>
          match classify_loop labels has_queue_id canceled segments
                              (State [] mc 0) with
          | Returns None => Returns None
          | Returns (Some st) =>
              Returns (finish (classified_segments st) labels
                              multi_label_pass)
          | RaisesException => RaisesException
          | RaisesTypeError => RaisesTypeError
          | RaisesIndexError => RaisesIndexError
          end
      | RaisesException => RaisesException
      | RaisesTypeError => RaisesTypeError
      | RaisesIndexError => RaisesIndexError
      end
  end.
End Classify.

End Classifier.

(** ** Vocabulary for the speaker markers and the classifier *)

Module MarkerShapes.

(** No element of the list is followed by an equal one. *)
Definition adjacent_differ (A : Type) (l : list A) : Prop :=
  forall i a b,
    nth_error l i = Some a -> nth_error l (S i) = Some b -> a <> b.

(** The intersections made so far are not empty when the next list is
    met. *)
Fixpoint never_empty (A : Type) (intersect : list A -> list A -> list A)
         (acc : list A) (rest : list (list A)) : Prop :=
  match rest with
  | [] => True
  | s :: r => acc <> [] /\ never_empty intersect (intersect acc s) r
  end.

End MarkerShapes.

(** * Properties *)

(** ** Comparisons and sorting *)

Module PyFacts.

Open Scope Q_scope.

Lemma leb_true (a b : Q) : Py.leb a b = true <-> a <= b.
Proof. unfold Py.leb. apply Qle_bool_iff. Qed.

Lemma leb_false (a b : Q) : Py.leb a b = false <-> b < a.
Proof.
  unfold Py.leb. split; intro H.
  - apply Qnot_le_lt. intro Hle. apply Qle_bool_iff in Hle. congruence.
  - destruct (Qle_bool a b) eqn:E; [|reflexivity].
    apply Qle_bool_iff in E. lra.
Qed.

Lemma ltb_true (a b : Q) : Py.ltb a b = true <-> a < b.
Proof.
  unfold Py.ltb. rewrite negb_true_iff. apply (leb_false b a).
Qed.

Lemma ltb_false (a b : Q) : Py.ltb a b = false <-> b <= a.
Proof.
  unfold Py.ltb. rewrite negb_false_iff. apply (leb_true b a).
Qed.

(** *** Float differences

    What the laws of [Py.Float] give for the tests of the code. *)
Section FloatFacts.
Context {F : Py.Float}.

(** The difference of a larger and a smaller float is positive. *)
Lemma fsub_pos (a b : Q) : b < a -> 0 < Py.fsub a b.
Proof.
  intros H.
  assert (H0 : 0 <= Py.fsub a b)
    by (apply Py.fsub_ge; [apply Py.representable_0|lra]).
  destruct (Qlt_le_dec 0 (Py.fsub a b)) as [Hp|Hn]; [exact Hp|].
  assert (Hz : Py.fsub a b == 0) by lra.
  apply Py.fsub_zero in Hz. lra.
Qed.

(** The test [a - b <= 0] of the code decides [a <= b]. *)
Lemma fsub_test_zero (a b : Q) :
  Py.leb (Py.fsub a b) 0 = true <-> a <= b.
Proof.
  rewrite leb_true. split; intros H.
  - destruct (Qlt_le_dec b a) as [Hlt|Hle]; [|exact Hle].
    apply fsub_pos in Hlt. lra.
  - apply Py.fsub_le; [apply Py.representable_0|lra].
Qed.

Lemma fsub_test_zero_false (a b : Q) :
  Py.leb (Py.fsub a b) 0 = false <-> b < a.
Proof.
  split; intros H.
  - destruct (Qlt_le_dec b a) as [Hlt|Hle]; [exact Hlt|].
    apply fsub_test_zero in Hle. congruence.
  - destruct (Py.leb (Py.fsub a b) 0) eqn:E; [|reflexivity].
    apply fsub_test_zero in E. lra.
Qed.

(** A difference the code finds above a float [g] is above it. *)
Lemma fsub_test_false (a b g : Q) :
  Py.representable g ->
  Py.leb (Py.fsub a b) g = false -> g < a - b.
Proof.
  intros Hg H. apply leb_false in H.
  destruct (Qlt_le_dec g (a - b)) as [Hlt|Hle]; [exact Hlt|].
  pose proof (@Py.fsub_le F a b g Hg Hle). lra.
Qed.

(** A difference the code finds above a non-negative [g] is positive. *)
Lemma fsub_test_false_pos (a b g : Q) :
  0 <= g -> Py.leb (Py.fsub a b) g = false -> b < a.
Proof.
  intros Hg H. apply leb_false in H.
  destruct (Qlt_le_dec b a) as [Hlt|Hle]; [exact Hlt|].
  assert (Py.fsub a b <= 0)
    by (apply Py.fsub_le; [apply Py.representable_0|lra]).
  lra.
Qed.

End FloatFacts.

Section SortedFacts.
Variable A : Type.
Variable key : A -> Q.

Let le_key (a b : A) : Prop := key a <= key b.

Lemma insert_In (x y : A) (l : list A) :
  In y (Py.insert key x l) <-> y = x \/ In y l.
Proof.
  induction l as [|z t IH]; simpl.
  - intuition.
  - destruct (Py.leb (key x) (key z)); simpl.
    + intuition.
    + rewrite IH. intuition.
Qed.

Lemma sorted_In (y : A) (l : list A) :
  In y (Py.sorted key l) <-> In y l.
Proof.
  induction l as [|x t IH]; simpl.
  - tauto.
  - rewrite insert_In, IH. intuition.
Qed.

Lemma insert_sorted (x : A) (l : list A) :
  StronglySorted le_key l -> StronglySorted le_key (Py.insert key x l).
Proof.
  induction 1 as [|z t Ht IH Hz]; simpl.
  - constructor; constructor.
  - destruct (Py.leb (key x) (key z)) eqn:E.
    + apply leb_true in E.
      constructor; [constructor; assumption|].
      constructor; [exact E|].
      rewrite Forall_forall in *. intros u Hu.
      unfold le_key in *. specialize (Hz u Hu). lra.
    + apply leb_false in E.
      constructor; [exact IH|].
      rewrite Forall_forall in *. intros u Hu.
      apply insert_In in Hu. destruct Hu as [->|Hu].
      * unfold le_key. lra.
      * apply Hz, Hu.
Qed.

Lemma sorted_sorted (l : list A) : StronglySorted le_key (Py.sorted key l).
Proof.
  induction l as [|x t IH]; simpl.
  - constructor.
  - apply insert_sorted, IH.
Qed.

(** Sorting a list that is in order gives the list back. *)
Lemma sorted_id (l : list A) :
  StronglySorted le_key l -> Py.sorted key l = l.
Proof.
  induction 1 as [|x t Ht IH Hx]; simpl.
  - reflexivity.
  - rewrite IH. destruct t as [|y t']; simpl.
    + reflexivity.
    + inversion Hx as [|? ? Hxy _]; subst.
      apply leb_true in Hxy. rewrite Hxy. reflexivity.
Qed.
End SortedFacts.

End PyFacts.

(** Turns the boolean tests of the hypotheses into inequalities. *)
Ltac py_tests :=
  repeat match goal with
    | H : Py.leb _ _ = true |- _ => apply PyFacts.leb_true in H
    | H : Py.leb _ _ = false |- _ => apply PyFacts.leb_false in H
    | H : Py.ltb _ _ = true |- _ => apply PyFacts.ltb_true in H
    | H : Py.ltb _ _ = false |- _ => apply PyFacts.ltb_false in H
    end.

(** ** Interval algebra *)

Module IntervalFacts.

Import Intervals.
Open Scope Q_scope.

Section WithFloat.
Context {F : Py.Float}.

(** *** [combine_intervals] *)

Lemma combine_loop_acc (g : Q) (rest : list interval) :
  forall acc cur,
    combine_loop g acc cur rest = acc ++ combine_loop g [] cur rest.
Proof.
  induction rest as [|x r IH]; intros acc cur; simpl.
  - reflexivity.
  - destruct (Py.leb (Py.fsub (istart x) (iend cur)) g).
    + apply IH.
    + rewrite (IH (acc ++ [cur])), (IH [cur]), <- app_assoc. reflexivity.
Qed.

(** The loop, one step at a time. *)
Lemma combine_loop_step (g : Q) (cur x : interval) (r : list interval) :
  combine_loop g [] cur (x :: r) =
    if Py.leb (Py.fsub (istart x) (iend cur)) g
    then combine_loop g [] (set_end cur (iend x)) r
    else cur :: combine_loop g [] x r.
Proof.
  simpl. destruct (Py.leb (Py.fsub (istart x) (iend cur)) g); [reflexivity|].
  apply (combine_loop_acc g r [cur] x).
Qed.

Lemma combine_loop_starts (g lo : Q) (rest : list interval) :
  forall cur,
    lo <= istart cur ->
    Forall (fun y => lo <= istart y) rest ->
    Forall (fun o => lo <= istart o) (combine_loop g [] cur rest).
Proof.
  induction rest as [|x r IH]; intros cur Hc Hr.
  - simpl. constructor; [exact Hc|constructor].
  - rewrite combine_loop_step. inversion Hr as [|? ? Hx Hr']; subst.
    destruct (Py.leb (Py.fsub (istart x) (iend cur)) g).
    + apply IH; assumption.
    + constructor; [exact Hc|]. apply IH; assumption.
Qed.

Lemma combine_loop_sorted (g : Q) (rest : list interval) :
  forall cur,
    sorted_by_start (cur :: rest) ->
    sorted_by_start (combine_loop g [] cur rest).
Proof.
  unfold sorted_by_start.
  induction rest as [|x r IH]; intros cur Hs.
  - simpl. constructor; constructor.
  - rewrite combine_loop_step.
    inversion Hs as [|? ? Hxr Hcur]; subst.
    inversion Hcur as [|? ? Hcx Hcr]; subst.
    destruct (Py.leb (Py.fsub (istart x) (iend cur)) g).
    + apply IH. inversion Hxr; subst.
      constructor; [assumption|exact Hcr].
    + constructor; [apply IH; exact Hxr|].
      apply combine_loop_starts; [exact Hcx|exact Hcr].
Qed.

(** Two intervals the merge test keeps apart are more than [d] apart
    whenever a failed test means so. *)
Lemma combine_loop_separated (g d : Q) (rest : list interval) :
  (forall a b, Py.leb (Py.fsub a b) g = false -> d < a - b) ->
  forall cur,
    sorted_by_start (cur :: rest) ->
    separated_by d (combine_loop g [] cur rest).
Proof.
  intros Htest. unfold sorted_by_start, separated_by.
  induction rest as [|x r IH]; intros cur Hs.
  - simpl. constructor; constructor.
  - rewrite combine_loop_step.
    inversion Hs as [|? ? Hxr Hcur]; subst.
    inversion Hcur as [|? ? Hcx Hcr]; subst.
    destruct (Py.leb (Py.fsub (istart x) (iend cur)) g) eqn:E.
    + apply IH. inversion Hxr; subst.
      constructor; [assumption|exact Hcr].
    + apply Htest in E.
      constructor; [apply IH; exact Hxr|].
      inversion Hxr as [|? ? _ Hxr']; subst.
      assert (Hlo : Forall (fun o => istart x <= istart o)
                           (combine_loop g [] x r)).
      { apply combine_loop_starts; [lra|exact Hxr']. }
      rewrite Forall_forall in *. intros o Ho.
      specialize (Hlo o Ho). simpl in Hlo. lra.
Qed.

(** What an output interval spans is input time or a bridged gap. *)
Lemma combine_loop_explained (l : list interval) (g : Q)
      (rest : list interval) :
  forall cur,
    (forall x, In x rest -> In x l) ->
    (exists a, In a l /\ iend a = iend cur) ->
    (forall t, spans cur t -> covered l t \/ bridged l g t) ->
    forall o t, In o (combine_loop g [] cur rest) -> spans o t ->
                covered l t \/ bridged l g t.
Proof.
  induction rest as [|x r IH]; intros cur Hin Hend Hcur o t Ho Ht.
  - simpl in Ho. destruct Ho as [<-|[]]. apply Hcur, Ht.
  - rewrite combine_loop_step in Ho.
    assert (Hr : forall y, In y r -> In y l)
      by (intros y Hy; apply Hin; right; exact Hy).
    assert (Hx : In x l) by (apply Hin; left; reflexivity).
    destruct (Py.leb (Py.fsub (istart x) (iend cur)) g) eqn:E.
    + py_tests.
      apply (IH (set_end cur (iend x))) with (o := o); try assumption.
      * exists x. split; [exact Hx|reflexivity].
      * intros u [Hu1 Hu2]. simpl in Hu1, Hu2.
        destruct (Qlt_le_dec (iend cur) u) as [Hgt|Hle].
        -- destruct (Qlt_le_dec u (istart x)) as [Hlt|Hge].
           ++ right. destruct Hend as [a [Ha Hae]].
              exists a, x. rewrite Hae. repeat split; try assumption.
           ++ left. exists x. split; [exact Hx|split; assumption].
        -- apply Hcur. split; assumption.
    + destruct Ho as [<-|Ho].
      * apply Hcur, Ht.
      * apply (IH x) with (o := o); try assumption.
        -- exists x. split; [exact Hx|reflexivity].
        -- intros u Hu. left. exists x. split; assumption.
Qed.

(** When ends follow starts, nothing the input spans is lost. *)
Lemma combine_loop_covers (g : Q) (rest : list interval) :
  forall cur,
    StronglySorted
      (fun a b => istart a <= istart b /\ iend a <= iend b) (cur :: rest) ->
    forall t, covered (cur :: rest) t ->
              covered (combine_loop g [] cur rest) t.
Proof.
  induction rest as [|x r IH]; intros cur Hs t Ht.
  - exact Ht.
  - rewrite combine_loop_step.
    inversion Hs as [|? ? Hxr Hcur]; subst.
    inversion Hcur as [|? ? [Hcx1 Hcx2] Hcr]; subst.
    inversion Hxr as [|? ? Hr Hx]; subst.
    destruct (Py.leb (Py.fsub (istart x) (iend cur)) g) eqn:E.
    + apply IH.
      * constructor; [exact Hr|].
        rewrite Forall_forall in *. intros y Hy. simpl.
        destruct (Hx y Hy), (Hcr y Hy). split; assumption.
      * destruct Ht as [i [[<-|[<-|Hi]] [Hi1 Hi2]]].
        -- exists (set_end cur (iend x)). split; [left; reflexivity|].
           split; simpl; lra.
        -- exists (set_end cur (iend x)). split; [left; reflexivity|].
           split; simpl; lra.
        -- exists i. split; [right; exact Hi|split; assumption].
    + destruct Ht as [i [[<-|Hi] Hsp]].
      * exists cur. split; [left; reflexivity|exact Hsp].
      * destruct (IH x Hxr t) as [o [Ho Hso]].
        { exists i. split; assumption. }
        exists o. split; [right; exact Ho|exact Hso].
Qed.

Lemma separated_non_overlapping (g : Q) (l : list interval) :
  0 <= g -> separated_by g l -> non_overlapping l.
Proof.
  intros Hg. unfold separated_by, non_overlapping.
  induction 1 as [|x t Ht IH Hx]; constructor; try assumption.
  rewrite Forall_forall in *. intros y Hy. specialize (Hx y Hy). lra.
Qed.

Lemma sorted_ends (l : list interval) :
  ends_follow_starts l ->
  StronglySorted (fun a b => istart a <= istart b /\ iend a <= iend b)
                 (Py.sorted istart l).
Proof.
  intros Hm.
  assert (Hin : forall x, In x (Py.sorted istart l) -> In x l)
    by (intros x; apply PyFacts.sorted_In).
  pose proof (PyFacts.sorted_sorted istart l) as Hs.
  induction Hs as [|x t Ht IH Hx]; constructor.
  - apply IH. intros y Hy. apply Hin. right. exact Hy.
  - rewrite Forall_forall in *. intros y Hy.
    specialize (Hx y Hy). split; [exact Hx|].
    apply Hm; [apply Hin; left; reflexivity|apply Hin; right; exact Hy|].
    exact Hx.
Qed.

(** C1, amended: for every list of intervals and every non-negative
    [min_gap], the output of [combine_intervals] is sorted by start and
    its intervals do not overlap; when [min_gap] is a float they are
    more than [min_gap] apart; every time the output covers is covered
    by the input or lies between two input intervals whose distance, as
    the merge test computes it, is at most [min_gap]; with [min_gap] 0
    every time the output covers is covered by the input; and when no
    input interval ends after an input interval that starts at the same
    time or later, every time the input covers is covered by the
    output. *)
Theorem combine_intervals_spec (l : list interval) (gap : Q) :
  0 <= gap ->
  let out := combine_intervals l gap in
  sorted_by_start out
  /\ non_overlapping out
  /\ (Py.representable gap -> separated_by gap out)
  /\ (forall t, covered out t -> covered l t \/ bridged l gap t)
  /\ (gap == 0 -> forall t, covered out t -> covered l t)
  /\ (ends_follow_starts l -> forall t, covered l t -> covered out t).
Proof.
  intros Hg out. subst out.
  assert (Hexp : forall t, covered (combine_intervals l gap) t ->
                           covered l t \/ bridged l gap t).
  { unfold combine_intervals.
    pose proof (fun x => proj1 (PyFacts.sorted_In istart x l)) as Hin.
    destruct (Py.sorted istart l) as [|first rest].
    - intros t [i [[] _]].
    - intros t [o [Ho Hsp]].
      apply combine_loop_explained
        with (rest := rest) (cur := first) (o := o); try assumption.
      + intros x Hx. apply Hin. right. exact Hx.
      + exists first. split; [apply Hin; left|]; reflexivity.
      + intros u Hu. left. exists first.
        split; [apply Hin; left; reflexivity|exact Hu]. }
  assert (Hzero : gap == 0 -> forall t, covered (combine_intervals l gap) t
                                        -> covered l t).
  { intros H0 t Ht. destruct (Hexp t Ht) as [Hc|Hb]; [exact Hc|].
    destruct Hb as [a [b [_ [_ [H1 [H2 H3]]]]]].
    assert (Hp : 0 < Py.fsub (istart b) (iend a))
      by (apply PyFacts.fsub_pos; lra).
    lra. }
  unfold combine_intervals in *.
  pose proof (PyFacts.sorted_sorted istart l) as Hs.
  pose proof (fun x => proj1 (PyFacts.sorted_In istart x l)) as Hin.
  pose proof (fun x => proj2 (PyFacts.sorted_In istart x l)) as Hni.
  pose proof (sorted_ends (l := l)) as He.
  destruct (Py.sorted istart l) as [|first rest].
  - split; [constructor|]. split; [constructor|].
    split; [intros _; constructor|].
    split; [exact Hexp|]. split; [exact Hzero|].
    intros _ t [i [Hi _]]. destruct (Hni i Hi).
  - split; [apply combine_loop_sorted; exact Hs|].
    split.
    { apply (separated_non_overlapping (g := 0)); [lra|].
      apply combine_loop_separated; [|exact Hs].
      intros a b E. apply (@PyFacts.fsub_test_false_pos F a b gap Hg) in E.
      lra. }
    split.
    { intros Hrep. apply combine_loop_separated; [|exact Hs].
      intros a b E. exact (@PyFacts.fsub_test_false F a b gap Hrep E). }
    split; [exact Hexp|]. split; [exact Hzero|].
    intros Hm t [i [Hi Hsp]].
    apply combine_loop_covers; [apply He, Hm|].
    exists i. split; [apply Hni, Hi|exact Hsp].
Qed.

(** *** [split_audio_by_intervals] without intervals *)

(** With no interval list, or an empty one, the single window returned
    holds the whole array and starts at 0, its end is the number of
    samples, and the interval returned next to it ends at the duration. *)
Lemma split_audio_without_intervals (Sample : Type)
      (audio_array : list Sample) (sr : positive) :
  split_audio_by_intervals audio_array None sr
  = ([Window 0 (Z.of_nat (length audio_array) # 1) audio_array],
     [Interval 0 (duration audio_array sr)])
  /\ split_audio_by_intervals audio_array (Some []) sr
     = split_audio_by_intervals audio_array None sr.
Proof. split; reflexivity. Qed.

(** For every non-empty array and every sample rate other than 1, the
    end of that window is not the duration. *)
Lemma whole_audio_window_end_is_not_duration (Sample : Type)
      (audio_array : list Sample) (sr : positive) :
  audio_array <> [] -> sr <> 1%positive ->
  forall w,
    In w (fst (split_audio_by_intervals audio_array None sr)) ->
    ~ wend w == duration audio_array sr.
Proof.
  intros Hne Hsr w [<-|[]]. simpl. unfold duration, Qeq. simpl.
  destruct audio_array as [|x t]; [congruence|].
  intro H. apply Hsr.
  assert (Hpos : (0 < Z.of_nat (length (x :: t)))%Z) by (simpl; lia).
  assert (Hz : (Z.pos sr = 1)%Z) by nia.
  congruence.
Qed.

(** *** [combine_overlapping_intervals] *)

(** C6, amended: with an absent second argument the operation returns
    the first list sorted by start (the same list when it is already in
    that order); with both arguments absent it returns [None]; and an
    empty second list gives the empty list, so an absent restriction and
    an empty one are told apart. *)
Theorem combine_overlapping_intervals_absent (l : list interval) :
  combine_overlapping_intervals (AList l) ANone
  = Some (Py.sorted istart l)
  /\ (sorted_by_start l ->
      combine_overlapping_intervals (AList l) ANone = Some l)
  /\ combine_overlapping_intervals ANone ANone = None
  /\ combine_overlapping_intervals (AList l) (AList []) = Some [].
Proof.
  split; [reflexivity|]. split; [|split].
  - intros Hs. unfold combine_overlapping_intervals. simpl.
    rewrite (PyFacts.sorted_id istart Hs). reflexivity.
  - reflexivity.
  - unfold combine_overlapping_intervals, intersecting. simpl.
    induction (Py.sorted istart l) as [|x t IH]; [reflexivity|exact IH].
Qed.

(** *** [exclude_segments_by_intervals] *)

Lemma overlaps_iff (a b : interval) :
  overlaps a b <->
  istart a < iend a /\ istart a < iend b
  /\ istart b < iend a /\ istart b < iend b.
Proof.
  unfold overlaps, qmax, qmin.
  destruct (Py.ltb (istart a) (istart b)) eqn:E1;
    destruct (Py.ltb (iend b) (iend a)) eqn:E2;
    py_tests; split; intros; repeat split; lra.
Qed.

Lemma within_no_overlap (p q e : interval) :
  within p q -> ~ overlaps q e -> ~ overlaps p e.
Proof.
  intros [H1 H2] Hq Hp. apply Hq.
  apply overlaps_iff. apply overlaps_iff in Hp. lra.
Qed.

Lemma exclude_one_sound (e t p : interval) :
  In p (exclude_one e t) -> within p t /\ ~ overlaps p e.
Proof.
  unfold exclude_one, within. rewrite overlaps_iff.
  destruct (Py.leb (iend e) (istart t)) eqn:E1;
    destruct (Py.leb (iend t) (istart e)) eqn:E2; simpl; py_tests;
    try (intros [<-|[]]; split; lra).
  destruct (Py.ltb (istart t) (istart e)) eqn:E3;
    destruct (Py.ltb (iend e) (iend t)) eqn:E4; simpl; py_tests;
    intros Hp;
    repeat match goal with
      | H : _ \/ _ |- _ => destruct H
      | H : False |- _ => destruct H
      end; subst p; simpl; split; lra.
Qed.

Lemma exclude_fold_sound (es : list interval) :
  forall temps p,
    In p (fold_left
            (fun temp_intervals excluded_interval =>
               flat_map (exclude_one excluded_interval) temp_intervals)
            es temps) ->
    exists q, In q temps /\ within p q
              /\ forall e, In e es -> ~ overlaps p e.
Proof.
  induction es as [|e es IH]; intros temps p Hp; simpl in Hp.
  - exists p. split; [exact Hp|]. split; [split; lra|intros e []].
  - destruct (IH _ _ Hp) as [q' [Hq' [Hw Hno]]].
    apply in_flat_map in Hq'. destruct Hq' as [q [Hq Hin]].
    destruct (exclude_one_sound _ _ _ Hin) as [Hw' Hno'].
    exists q. split; [exact Hq|]. split.
    + destruct Hw, Hw'. split; lra.
    + intros e' [<-|He'].
      * apply (within_no_overlap Hw Hno').
      * apply Hno, He'.
Qed.

Lemma exclude_intervals_sound (kept excluded : list interval) (p e : interval) :
  In p (exclude_intervals kept excluded) -> In e excluded ->
  ~ overlaps p e.
Proof.
  unfold exclude_intervals, exclude_from. intros Hp He.
  apply in_flat_map in Hp. destruct Hp as [k [_ Hp]].
  destruct (exclude_fold_sound _ _ _ Hp) as [q [_ [_ Hno]]].
  apply Hno, PyFacts.sorted_In, He.
Qed.

(** Merging intervals that touch or overlap brings in no excluded time. *)
Lemma combine_loop_zero_no_overlap (e : interval) (rest : list interval) :
  forall cur,
    sorted_by_start (cur :: rest) ->
    ~ overlaps cur e ->
    (forall x, In x rest -> ~ overlaps x e) ->
    forall o, In o (combine_loop 0 [] cur rest) -> ~ overlaps o e.
Proof.
  unfold sorted_by_start.
  induction rest as [|x r IH]; intros cur Hs Hc Hr o Ho.
  - destruct Ho as [<-|[]]. exact Hc.
  - rewrite combine_loop_step in Ho.
    inversion Hs as [|? ? Hxr Hcur]; subst.
    inversion Hcur as [|? ? Hcx Hcr]; subst.
    assert (Hx : ~ overlaps x e) by (apply Hr; left; reflexivity).
    assert (Hr' : forall y, In y r -> ~ overlaps y e)
      by (intros y Hy; apply Hr; right; exact Hy).
    destruct (Py.leb (Py.fsub (istart x) (iend cur)) 0) eqn:E.
    + apply (IH (set_end cur (iend x))); try assumption.
      * inversion Hxr; subst. constructor; [assumption|exact Hcr].
      * apply PyFacts.fsub_test_zero in E.
        rewrite overlaps_iff in *. simpl. lra.
    + destruct Ho as [<-|Ho]; [exact Hc|].
      apply (IH x); assumption.
Qed.

(** A list that is in order and whose intervals do not touch is left
    alone by [combine_intervals] with no gap allowed. *)
Lemma combine_loop_zero_id (rest : list interval) :
  forall cur,
    non_overlapping (cur :: rest) ->
    combine_loop 0 [] cur rest = cur :: rest.
Proof.
  unfold non_overlapping.
  induction rest as [|x r IH]; intros cur Hs.
  - reflexivity.
  - rewrite combine_loop_step.
    inversion Hs as [|? ? Hxr Hcur]; subst.
    inversion Hcur as [|? ? Hcx Hcr]; subst.
    assert (E : Py.leb (Py.fsub (istart x) (iend cur)) 0 = false)
      by (apply PyFacts.fsub_test_zero_false; lra).
    rewrite E, (IH x Hxr). reflexivity.
Qed.

Lemma combine_intervals_sorted (l : list interval) (g : Q) :
  combine_intervals (Py.sorted istart l) g = combine_intervals l g.
Proof.
  unfold combine_intervals.
  rewrite (PyFacts.sorted_id istart (PyFacts.sorted_sorted istart l)).
  reflexivity.
Qed.

Lemma split_audio_intervals (Sample : Type) (audio_array : list Sample)
      (l : list interval) (sr : positive) :
  l <> [] ->
  snd (split_audio_by_intervals audio_array (Some l) sr)
  = combine_intervals l 0.
Proof.
  intro Hne. destruct l as [|i l]; [congruence|].
  unfold split_audio_by_intervals. cbn [snd].
  apply combine_intervals_sorted.
Qed.

Lemma split_audio_canonical (Sample : Type) (audio_array : list Sample)
      (l : list interval) (sr : positive) :
  l <> [] -> sorted_by_start l -> non_overlapping l ->
  snd (split_audio_by_intervals audio_array (Some l) sr) = l.
Proof.
  intros Hne Hs Hn. rewrite split_audio_intervals by exact Hne.
  unfold combine_intervals. rewrite (PyFacts.sorted_id istart Hs).
  destruct l as [|i l]; [congruence|].
  apply combine_loop_zero_id, Hn.
Qed.

(** C7, amended: whenever the exclusion leaves at least one range, no
    interval returned by the exclude operation overlaps (with positive
    duration) any excluded interval; and excluding an empty list of
    ranges returns what the windowing operation returns for the kept
    intervals, which is the kept list itself when that list is not
    empty, is sorted by start and has no two intervals that touch or
    overlap. *)
Theorem exclude_segments_by_intervals_spec (Sample : Type)
        (audio_array : list Sample) (kept excluded : list interval)
        (sr : positive) :
  (exclude_intervals kept excluded <> [] ->
   forall r e,
     In r (snd (exclude_segments_by_intervals
                  audio_array (Some kept) (Some excluded) sr)) ->
     In e excluded -> ~ overlaps r e)
  /\ exclude_segments_by_intervals audio_array (Some kept) (Some []) sr
     = split_audio_by_intervals audio_array (Some kept) sr
  /\ (kept <> [] -> sorted_by_start kept -> non_overlapping kept ->
      snd (exclude_segments_by_intervals
             audio_array (Some kept) (Some []) sr) = kept).
Proof.
  split; [|split].
  - intros Hne r e Hr He.
    destruct excluded as [|e0 es]; [destruct He|].
    destruct kept as [|k0 ks]; [exfalso; apply Hne; reflexivity|].
    unfold exclude_segments_by_intervals in Hr. simpl truthy in Hr.
    simpl negb in Hr. cbv iota in Hr.
    rewrite split_audio_intervals in Hr by exact Hne.
    unfold combine_intervals in Hr.
    pose proof (PyFacts.sorted_sorted
                  istart (exclude_intervals (k0 :: ks) (e0 :: es))) as Hs.
    pose proof (fun x => proj1 (PyFacts.sorted_In
                  istart x (exclude_intervals (k0 :: ks) (e0 :: es))))
      as Hin.
    destruct (Py.sorted istart (exclude_intervals (k0 :: ks) (e0 :: es)))
      as [|first rest]; [destruct Hr|].
    assert (Hno : forall x, In x (first :: rest) -> ~ overlaps x e).
    { intros x Hx. apply Hin in Hx.
      apply (@exclude_intervals_sound _ _ _ _ Hx He). }
    apply (combine_loop_zero_no_overlap (e := e) (rest := rest)
             (cur := first)); try assumption.
    + apply Hno. left. reflexivity.
    + intros x Hx. apply Hno. right. exact Hx.
  - unfold exclude_segments_by_intervals. reflexivity.
  - intros Hne Hs Hn.
    unfold exclude_segments_by_intervals. simpl.
    apply split_audio_canonical; assumption.
Qed.

End WithFloat.

(** *** Concrete inputs

    The statements below are about given inputs and are computed with
    [Py.unrounded]. *)

(** C1, as the claim states it, fails: with a positive [min_gap] the
    output covers the gaps it closes.  The intervals [[0,5]] and
    [[5.5,8]] combined with [min_gap = 1] give [[0,8]], which contains
    the time 5.25 that no input interval contains. *)
Lemma combine_intervals_adds_bridged_time :
  ~ exact_union [Interval 0 5; Interval (11 # 2) 8] 1.
Proof.
  intros [_ [_ Hcov]].
  assert (Hout : covered (combine_intervals
                            [Interval 0 5; Interval (11 # 2) 8] 1) (21 # 4)).
  { exists (Interval 0 8). split; [left; reflexivity|].
    split; simpl; lra. }
  apply Hcov in Hout. destruct Hout as [i [Hi [H1 H2]]].
  destruct Hi as [<-|[<-|[]]]; simpl in H1, H2; lra.
Qed.

Lemma combine_intervals_spec_witness :
  combine_intervals [Interval 3 4; Interval 0 1; Interval (3 # 2) 2] (1 # 2)
  = [Interval 0 2; Interval 3 4]
  /\ sorted_by_start [Interval 0 2; Interval 3 4]
  /\ non_overlapping [Interval 0 2; Interval 3 4]
  /\ separated_by (1 # 2) [Interval 0 2; Interval 3 4].
Proof.
  split; [reflexivity|].
  assert (Hg : 0 <= 1 # 2) by (unfold Qle; simpl; lia).
  pose proof (combine_intervals_spec
                [Interval 3 4; Interval 0 1; Interval (3 # 2) 2] Hg)
    as [H1 [H2 [H3 _]]].
  split; [exact H1|]. split; [exact H2|exact (H3 I)].
Defined.

(** C5: two seconds of audio at 8 samples per second (16 samples) and
    no intervals.  The window returned spans the whole array from 0, but
    its end is 16, the number of samples, where the duration is 2
    seconds (the interval returned next to the window does end at 2). *)
Theorem whole_audio_window_ends_at_sample_count :
  let audio_array := repeat 0%Z 16 in
  let r := split_audio_by_intervals audio_array None 8 in
  map (@wstart Z) (fst r) = [0]
  /\ map (@wsamples Z) (fst r) = [audio_array]
  /\ map (@wend Z) (fst r) = [16]
  /\ duration audio_array 8 == 2
  /\ map iend (snd r) = [duration audio_array 8]
  /\ ~ 16 == duration audio_array 8.
Proof.
  cbv zeta. repeat split; try reflexivity.
  intro H. vm_compute in H. discriminate H.
Qed.

(** C6, as the claim states it, fails: with an absent second argument
    the list [[5,6], [0,1]] comes back as [[0,1], [5,6]]. *)
Lemma absent_restriction_sorts :
  ~ absent_restriction_unchanged [Interval 5 6; Interval 0 1].
Proof. intros [H _]. vm_compute in H. discriminate H. Qed.

Lemma combine_overlapping_intervals_absent_witness :
  combine_overlapping_intervals (AList [Interval 0 1; Interval 5 6]) ANone
  = Some [Interval 0 1; Interval 5 6].
Proof.
  apply (combine_overlapping_intervals_absent [Interval 0 1; Interval 5 6]).
  repeat constructor; unfold Qle; simpl; lia.
Defined.

(** C7, as the claim states it, fails: excluding nothing from
    [[0,1], [1,2]] returns [[0,2]], because the kept intervals go
    through the windowing operation, which merges intervals that touch. *)
Lemma exclude_nothing_merges :
  ~ exclusion_exact [1%Z; 2%Z; 3%Z; 4%Z] [Interval 0 1; Interval 1 2] [] 2.
Proof. intros [_ H]. vm_compute in H. discriminate H. Qed.

Lemma exclude_segments_by_intervals_spec_witness :
  snd (exclude_segments_by_intervals
         [1%Z; 2%Z; 3%Z; 4%Z] (Some [Interval 0 2])
         (Some [Interval (1 # 2) 1]) 2)
  = [Interval 0 (1 # 2); Interval 1 2]
  /\ ~ overlaps (Interval 1 2) (Interval (1 # 2) 1)
  /\ snd (exclude_segments_by_intervals
            [1%Z; 2%Z; 3%Z; 4%Z] (Some [Interval 0 (1 # 2); Interval 1 2])
            (Some []) 2)
     = [Interval 0 (1 # 2); Interval 1 2].
Proof.
  split; [reflexivity|].
  destruct (exclude_segments_by_intervals_spec
              [1%Z; 2%Z; 3%Z; 4%Z] [Interval 0 2] [Interval (1 # 2) 1] 2)
    as [H1 _].
  destruct (exclude_segments_by_intervals_spec
              [1%Z; 2%Z; 3%Z; 4%Z] [Interval 0 (1 # 2); Interval 1 2]
              [] 2)
    as [_ [_ H3]].
  split.
  - apply H1.
    + vm_compute. discriminate.
    + right. left. reflexivity.
    + left. reflexivity.
  - apply H3.
    + discriminate.
    + repeat constructor; unfold Qle; simpl; lia.
    + repeat constructor; unfold Qlt; simpl; lia.
Defined.

End IntervalFacts.

(** ** Segment splitter *)

Unset Implicit Arguments.

Module SplitterFacts.

Import Text Segments Splitter.
Open Scope Q_scope.

(** *** Searching a string *)

Lemma find_nth_error (c : char) (s : str) (i : nat) :
  find c s = Some i -> nth_error s i = Some c.
Proof.
  revert i. induction s as [|x t IH]; intros i H; simpl in H.
  - discriminate.
  - destruct (N.eqb x c) eqn:E.
    + apply N.eqb_eq in E. injection H as <-. simpl. congruence.
    + destruct (find c t) as [j|]; [|discriminate].
      injection H as <-. simpl. apply IH. reflexivity.
Qed.

Lemma nth_error_skipn_shift (s : str) (start j : nat) :
  nth_error (skipn start s) j = nth_error s (start + j).
Proof.
  revert s. induction start as [|n IH]; intros s.
  - reflexivity.
  - destruct s as [|x t]; simpl.
    + destruct j; reflexivity.
    + apply IH.
Qed.

Lemma find_from_nth_error (c : char) (start : nat) (s : str) (i : nat) :
  find_from c start s = Some i -> nth_error s i = Some c.
Proof.
  unfold find_from. intro H.
  destruct (find c (skipn start s)) as [j|] eqn:E; [|discriminate].
  injection H as <-. apply find_nth_error in E.
  rewrite <- nth_error_skipn_shift. exact E.
Qed.

Lemma rfind_all_nth_error (c : char) (s : str) (i : nat) :
  rfind_all c s = Some i -> nth_error s i = Some c.
Proof.
  revert i. induction s as [|x t IH]; intros i H; simpl in H.
  - discriminate.
  - destruct (rfind_all c t) as [j|].
    + injection H as <-. simpl. apply IH. reflexivity.
    + destruct (N.eqb x c) eqn:E; [|discriminate].
      apply N.eqb_eq in E. injection H as <-. simpl. congruence.
Qed.

Lemma nth_error_firstn_some (s : str) (n i : nat) (c : char) :
  nth_error (firstn n s) i = Some c -> nth_error s i = Some c.
Proof.
  revert n i. induction s as [|x t IH]; intros n i H.
  - rewrite firstn_nil in H. exact H.
  - destruct n as [|n]; [destruct i; discriminate|].
    destruct i as [|i]; simpl in *; [exact H|].
    apply (IH n), H.
Qed.

Lemma rfind_nth_error (c : char) (stop : nat) (s : str) (i : nat) :
  rfind c stop s = Some i -> nth_error s i = Some c.
Proof.
  unfold rfind. intro H. apply rfind_all_nth_error in H.
  eapply nth_error_firstn_some; exact H.
Qed.

Lemma find_nth_loop_nth_error (s : str) (n : nat) :
  forall start i,
    (forall j, start = Some j -> nth_error s j = Some space) ->
    find_nth_loop s start n = Some i -> nth_error s i = Some space.
Proof.
  induction n as [|n IH]; intros start i Hs H.
  - simpl in H. apply Hs, H.
  - destruct n as [|m].
    + simpl in H. apply Hs, H.
    + change (find_nth_loop s start (S (S m)))
        with (match start with
              | Some k => find_nth_loop s (find_from space (S k) s) (S m)
              | None => None
              end) in H.
      destruct start as [k|]; [|discriminate].
      apply (IH (find_from space (S k) s)); [|exact H].
      intros j Hj. eapply find_from_nth_error; exact Hj.
Qed.

Lemma char_limit_index_nth_error (text : str) (limit i : nat) :
  char_limit_index text limit = Some i -> nth_error text i = Some space.
Proof.
  unfold char_limit_index.
  destruct (rfind space limit text) as [j|] eqn:E; intro H.
  - injection H as <-. eapply rfind_nth_error; exact E.
  - eapply find_from_nth_error; exact H.
Qed.

Lemma find_nth_nth_error (text : str) (n i : nat) :
  find_nth text n = Some i -> nth_error text i = Some space.
Proof.
  unfold find_nth. apply find_nth_loop_nth_error.
  intros j Hj. eapply find_from_nth_error; exact Hj.
Qed.

(** A text cut at the index of a character is the left part, that
    character and the right part. *)
Lemma cut_at (s : str) (i : nat) (c : char) :
  nth_error s i = Some c ->
  s = firstn i s ++ c :: skipn (S i) s /\ (length (skipn (S i) s) < length s)%nat.
Proof.
  revert i. induction s as [|x t IH]; intros i H.
  - destruct i; discriminate.
  - destruct i as [|i]; simpl in H.
    + injection H as ->. simpl. split; [reflexivity|lia].
    + destruct (IH i H) as [IH1 IH2]. split.
      * simpl. f_equal. exact IH1.
      * simpl in *. lia.
Qed.

Lemma skipn_shorter (s : str) (i : nat) :
  s <> [] -> (length (skipn (S i) s) < length s)%nat.
Proof.
  destruct s as [|x t]; [congruence|]. intros _.
  simpl. rewrite length_skipn. lia.
Qed.

Lemma has_mark_non_empty (marks : list char) (text : str) :
  has_mark marks text = true -> text <> [].
Proof.
  intros H ->. unfold has_mark in H.
  induction marks as [|m ms IH]; simpl in H; [discriminate|].
  apply IH, H.
Qed.

(** *** What the loops return *)

Lemma emit_first_part_non_empty (s : segment) (first : str)
      (words : list word) (res : list segment) :
  first <> [] ->
  exists words' p,
    emit_first_part s first words res = (words', res ++ [p])
    /\ seg_text p = part_text first.
Proof.
  intro Hne. unfold emit_first_part.
  destruct first as [|c f]; [congruence|].
  eexists; eexists; split; reflexivity.
Qed.

Lemma emit_first_part_texts (s : segment) (first : str)
      (words : list word) (res : list segment) :
  exists words' ps,
    emit_first_part s first words res = (words', res ++ ps)
    /\ texts ps = map part_text (filter non_empty [first]).
Proof.
  unfold emit_first_part. destruct first as [|c f].
  - exists (remove_words (first_part_words 1 0 words) words), [].
    rewrite app_nil_r. split; reflexivity.
  - eexists; eexists; split; reflexivity.
Qed.

Lemma emit_rest_texts (s : segment) (text : str) (words : list word)
      (res : list segment) :
  exists ps,
    emit_rest s text words res = res ++ ps
    /\ texts ps = map part_text (filter non_empty [text]).
Proof.
  unfold emit_rest. destruct text as [|c t].
  - exists []. rewrite app_nil_r. split; reflexivity.
  - eexists; split; reflexivity.
Qed.

(** The loops, one iteration at a time. *)
Lemma punctuation_loop_step (fuel : nat) (s : segment)
      (marks : list char) (text : str) (words : list word)
      (res : list segment) :
  punctuation_loop (S fuel) s marks text words res =
    if has_mark marks text
    then
      let index :=
        skip_marks marks (skipn (S (first_mark_index marks text)) text)
                   (first_mark_index marks text) in
      let '(words', res') :=
        emit_first_part s (firstn (S index) text) words res in
      punctuation_loop fuel s marks (skipn (S index) text) words' res'
    else Return (emit_rest s text words res).
Proof. reflexivity. Qed.

Lemma word_limits_loop_step (fuel : nat) (s : segment)
      (wl cl : option nat) (count : nat) (text : str)
      (words : list word) (res : list segment) :
  word_limits_loop (S fuel) s wl cl count text words res =
    if (truthy cl && (limit_value cl <? length text)%nat)
       || (truthy wl && (limit_value wl <? count)%nat)
    then
      match limit_cut wl cl text with
      | Raises e => Raises e
      | OutOfFuel => OutOfFuel
      | Return None => Return (emit_rest s text words res)
      | Return (Some i) =>
          let '(words', res') :=
            emit_first_part s (firstn i text) words res in
          word_limits_loop fuel s wl cl count (skipn (S i) text)
                           words' res'
      end
    else Return (emit_rest s text words res).
Proof. reflexivity. Qed.

(** The punctuation loop returns, and the raw pieces it cut concatenate
    to the text it was given. *)
Lemma punctuation_loop_spec (s : segment) (marks : list char) (fuel : nat) :
  forall text words res,
    (length text < fuel)%nat ->
    exists parts raws,
      punctuation_loop fuel s marks text words res = Return (res ++ parts)
      /\ texts parts = map part_text raws
      /\ concat raws = text.
Proof.
  induction fuel as [|fuel IH]; intros text words res Hlen; [lia|].
  rewrite punctuation_loop_step. destruct (has_mark marks text) eqn:Hm.
  - pose proof (has_mark_non_empty _ _ Hm) as Hne.
    set (index := skip_marks marks
                    (skipn (S (first_mark_index marks text)) text)
                    (first_mark_index marks text)).
    cbv zeta.
    assert (Hfirst : firstn (S index) text <> []).
    { destruct text; [congruence|]. simpl. discriminate. }
    destruct (emit_first_part_non_empty s _ words res Hfirst)
      as [words' [p [He Hp]]].
    rewrite He.
    destruct (IH (skipn (S index) text) words' (res ++ [p]))
      as [parts [raws [Hr [Ht Hc]]]].
    { pose proof (skipn_shorter _ index Hne). lia. }
    exists (p :: parts), (firstn (S index) text :: raws).
    rewrite Hr, <- app_assoc. split; [reflexivity|]. split.
    + unfold texts in *. simpl. rewrite Hp, Ht. reflexivity.
    + change (concat (firstn (S index) text :: raws))
        with (firstn (S index) text ++ concat raws).
      rewrite Hc. apply firstn_skipn.
  - destruct (emit_rest_texts s text words res) as [ps [He Ht]].
    rewrite He. destruct text as [|c t].
    + exists ps, []. split; [reflexivity|]. split; [exact Ht|reflexivity].
    + exists ps, [c :: t]. split; [reflexivity|].
      split; [exact Ht|]. simpl. f_equal. apply app_nil_r.
Qed.

(** The limit loop returns, unless the word-limit branch reads the first
    character of an empty text; the pieces it cut, joined by the spaces
    at which it cut, are the text it was given. *)
Lemma word_limits_loop_spec (s : segment) (wl cl : option nat)
      (count : nat) (fuel : nat) :
  forall text words res,
    (length text < fuel)%nat ->
    (exists parts pieces,
        word_limits_loop fuel s wl cl count text words res
        = Return (res ++ parts)
        /\ texts parts = map part_text (filter non_empty pieces)
        /\ pieces <> []
        /\ join pieces = text)
    \/ (truthy cl = false
        /\ word_limits_loop fuel s wl cl count text words res
           = Raises IndexError).
Proof.
  induction fuel as [|fuel IH]; intros text words res Hlen; [lia|].
  assert (Hfinish :
           exists parts pieces,
             Return (emit_rest s text words res) = Return (res ++ parts)
             /\ texts parts = map part_text (filter non_empty pieces)
             /\ pieces <> []
             /\ join pieces = text).
  { destruct (emit_rest_texts s text words res) as [ps [He Ht]].
    exists ps, [text]. rewrite He.
    split; [reflexivity|]. split; [exact Ht|].
    split; [discriminate|reflexivity]. }
  rewrite word_limits_loop_step.
  destruct ((truthy cl && (limit_value cl <? length text)%nat)
            || (truthy wl && (limit_value wl <? count)%nat)) eqn:Hcond;
    [|left; exact Hfinish].
  assert (Hcut :
           forall i, nth_error text i = Some space ->
             (exists parts pieces,
                 (let '(words0, resulting) :=
                    emit_first_part s (firstn i text) words res in
                  word_limits_loop fuel s wl cl count
                                   (skipn (S i) text) words0 resulting)
                 = Return (res ++ parts)
                 /\ texts parts = map part_text (filter non_empty pieces)
                 /\ pieces <> []
                 /\ join pieces = text)
             \/ (truthy cl = false
                 /\ (let '(words0, resulting) :=
                       emit_first_part s (firstn i text) words res in
                     word_limits_loop fuel s wl cl count
                                      (skipn (S i) text) words0 resulting)
                    = Raises IndexError)).
  { intros i Hi. destruct (cut_at _ _ _ Hi) as [Hsplit Hshort].
    destruct (emit_first_part_texts s (firstn i text) words res)
      as [words' [ps [He Hps]]].
    rewrite He.
    destruct (IH (skipn (S i) text) words' (res ++ ps))
      as [[parts [pieces [Hr [Ht [Hne Hj]]]]]|[Hcl Hr]]; [lia| |].
    - left. exists (ps ++ parts), (firstn i text :: pieces).
      rewrite Hr, <- app_assoc. split; [reflexivity|]. split; [|split].
      + unfold texts in *. rewrite map_app, Hps, Ht.
        simpl. destruct (non_empty (firstn i text)); reflexivity.
      + discriminate.
      + destruct pieces as [|q qs]; [congruence|].
        change (join (firstn i text :: q :: qs))
          with (firstn i text ++ space :: join (q :: qs)).
        rewrite Hj. symmetry. exact Hsplit.
    - right. split; assumption. }
  unfold limit_cut.
  destruct (truthy cl) eqn:Hcl.
  - destruct (char_limit_index text (limit_value cl)) as [i|] eqn:Hi.
    + apply Hcut. eapply char_limit_index_nth_error; exact Hi.
    + left. exact Hfinish.
  - destruct text as [|c t] eqn:Htext.
    + right. split; reflexivity.
    + rewrite <- Htext in *.
      destruct (find_nth text (limit_value wl)) as [i|] eqn:Hi.
      * apply Hcut. eapply find_nth_nth_error; exact Hi.
      * left. exact Hfinish.
Qed.

(** *** The two operations *)

Lemma punctuation_split_returns (s : segment) (marks : list char)
      (text : str) :
  seg_text s = Some (PStr text) -> has_word_timings s = true ->
  exists parts raws,
    split_segment_on_punctuation_marks (Dict s) marks
    = Return (Parts parts)
    /\ texts parts = map part_text raws
    /\ concat raws = replace_dots text.
Proof.
  intros Ht Hw. unfold split_segment_on_punctuation_marks.
  unfold has_word_timings in Hw. rewrite Ht.
  destruct (seg_words s) as [[|w ws]|]; try discriminate.
  destruct (punctuation_loop_spec s marks (S (length (replace_dots text)))
              (replace_dots text) (w :: ws) [])
    as [parts [raws [Hr [Hp Hc]]]]; [lia|].
  exists parts, raws. rewrite Hr. simpl. repeat split; assumption.
Qed.

Lemma limits_split_returns (s : segment) (wl cl : option nat)
      (text : str) :
  seg_text s = Some (PStr text) -> has_word_timings s = true ->
  truthy wl || truthy cl = true ->
  (exists parts pieces,
      split_segment_by_word_limits (Dict s) wl cl = Return (Parts parts)
      /\ texts parts = map part_text (filter non_empty pieces)
      /\ join pieces = text)
  \/ (truthy cl = false
      /\ split_segment_by_word_limits (Dict s) wl cl = Raises IndexError).
Proof.
  intros Ht Hw Hl. unfold split_segment_by_word_limits.
  unfold has_word_timings in Hw. rewrite Ht.
  assert (E : negb (truthy wl) && negb (truthy cl) = false)
    by (destruct (truthy wl), (truthy cl); simpl in *; congruence).
  rewrite E.
  destruct (seg_words s) as [[|w ws]|]; try discriminate.
  destruct (word_limits_loop_spec s wl cl (length (w :: ws))
              (S (length text)) text (w :: ws) [])
    as [[parts [pieces [Hr [Hp [_ Hj]]]]]|[Hcl Hr]]; [lia| |].
  - left. exists parts, pieces. rewrite Hr. simpl.
    repeat split; assumption.
  - right. rewrite Hr. split; [exact Hcl|reflexivity].
Qed.

(** C4, as the claim states it, fails for both strategies, however the
    leading spaces are stripped.  The punctuation split first replaces
    ["..."] by the one-character ellipsis, so ["Wait... ok"] comes back
    as [" Wait"] followed by the ellipsis, and [" ok"]; the limit split
    drops the space at which
    it cuts, so ["a  b"] with a limit of 2 characters comes back as
    [" a"] and [" b"], one space short. *)
Lemma split_round_trip_fails :
  ~ punctuation_round_trip Samples.wait_ok default_punctuation_marks
  /\ ~ limits_round_trip Samples.a_b None (Some 2%nat).
Proof.
  split; intro H.
  - destruct (H _ _ eq_refl eq_refl) as [raws [Hf Hc]].
    inversion Hf as [|p1 r1 ps1 rs1 [t1 [E1 S1]] Hf1]; subst.
    inversion Hf1 as [|p2 r2 ps2 rs2 [t2 [E2 S2]] Hf2]; subst.
    inversion Hf2; subst.
    injection E1 as <-. injection E2 as <-.
    destruct S1 as [S1|S1], S2 as [S2|S2];
      try (injection S1 as <-); try (injection S2 as <-);
      try subst r1; try subst r2; vm_compute in Hc; discriminate Hc.
  - destruct (H _ _ eq_refl eq_refl) as [raws [Hf Hc]].
    inversion Hf as [|p1 r1 ps1 rs1 [t1 [E1 S1]] Hf1]; subst.
    inversion Hf1 as [|p2 r2 ps2 rs2 [t2 [E2 S2]] Hf2]; subst.
    inversion Hf2; subst.
    injection E1 as <-. injection E2 as <-.
    destruct S1 as [S1|S1], S2 as [S2|S2];
      try (injection S1 as <-); try (injection S2 as <-);
      try subst r1; try subst r2; vm_compute in Hc; discriminate Hc.
Qed.

(** C4, amended: for every segment whose text is a string and whose
    word-timing list is not empty, the punctuation split returns parts
    whose texts are consecutive raw pieces of the text in which every
    ["..."] has been replaced by the ellipsis character, each piece with
    a leading space added unless it starts with one, and the raw pieces
    concatenate to that normalised text; the limit split, when a limit is
    given and unless its word-limit branch raises [IndexError], returns
    parts whose texts are the non-empty raw pieces between the spaces at
    which it cut, each with a leading space added unless it starts with
    one, and the raw pieces joined by single spaces are the original
    text. *)
Theorem split_text_reconstruction (s : segment) (text : str) :
  seg_text s = Some (PStr text) -> has_word_timings s = true ->
  (forall marks,
      exists parts raws,
        split_segment_on_punctuation_marks (Dict s) marks
        = Return (Parts parts)
        /\ texts parts = map part_text raws
        /\ concat raws = replace_dots text)
  /\ (forall wl cl,
         truthy wl || truthy cl = true ->
         (exists parts pieces,
             split_segment_by_word_limits (Dict s) wl cl
             = Return (Parts parts)
             /\ texts parts = map part_text (filter non_empty pieces)
             /\ join pieces = text)
         \/ (truthy cl = false
             /\ split_segment_by_word_limits (Dict s) wl cl
                = Raises IndexError)).
Proof.
  intros Ht Hw. split.
  - intro marks. apply punctuation_split_returns; assumption.
  - intros wl cl Hl. apply limits_split_returns; assumption.
Qed.

Lemma split_text_reconstruction_witness :
  exists parts raws,
    split_segment_on_punctuation_marks
      (Dict Samples.hello_world) default_punctuation_marks
    = Return (Parts parts)
    /\ texts parts = map part_text raws
    /\ concat raws = of_string "Hello world. How are you?"%string.
Proof.
  destruct (split_text_reconstruction
              Samples.hello_world _ eq_refl eq_refl) as [H _].
  exact (H default_punctuation_marks).
Defined.

(** C10: each splitting operation returns the segment dict it was given,
    unchanged, when the segment has no word-level timings (and, for the
    limit split, whenever no limit is given); in every other case a value
    it returns is a list of segments.  With a string text the
    punctuation split and the character-limit split do return, and the
    word-limit split returns unless it raises [IndexError]. *)
Theorem split_result_shapes (s : segment) (marks : list char)
        (wl cl : option nat) :
  (has_word_timings s = false ->
   split_segment_on_punctuation_marks (Dict s) marks
   = Return (Unsplit (Dict s))
   /\ split_segment_by_word_limits (Dict s) wl cl
      = Return (Unsplit (Dict s)))
  /\ (truthy wl || truthy cl = false ->
      split_segment_by_word_limits (Dict s) wl cl
      = Return (Unsplit (Dict s)))
  /\ (has_word_timings s = true ->
      (forall v, split_segment_on_punctuation_marks (Dict s) marks
                 = Return v -> exists l, v = Parts l)
      /\ (truthy wl || truthy cl = true ->
          forall v, split_segment_by_word_limits (Dict s) wl cl
                    = Return v -> exists l, v = Parts l))
  /\ (has_word_timings s = true ->
      forall text, seg_text s = Some (PStr text) ->
        (exists l, split_segment_on_punctuation_marks (Dict s) marks
                   = Return (Parts l))
        /\ (truthy cl = true ->
            exists l, split_segment_by_word_limits (Dict s) wl cl
                      = Return (Parts l))
        /\ (truthy wl = true -> truthy cl = false ->
            (exists l, split_segment_by_word_limits (Dict s) wl cl
                       = Return (Parts l))
            \/ split_segment_by_word_limits (Dict s) wl cl
               = Raises IndexError)).
Proof.
  split; [|split; [|split]].
  - intro Hw. unfold has_word_timings in Hw.
    unfold split_segment_on_punctuation_marks,
      split_segment_by_word_limits.
    destruct (seg_words s) as [[|w ws]|]; try discriminate;
      (split; [reflexivity|]);
      destruct (negb (truthy wl) && negb (truthy cl)); reflexivity.
  - intro Hl. unfold split_segment_by_word_limits.
    destruct (truthy wl), (truthy cl); try discriminate. reflexivity.
  - intro Hw. split.
    + intros v Hv.
      destruct (seg_text s) as [[|z|text]|] eqn:Ht.
      * unfold split_segment_on_punctuation_marks in Hv.
        unfold has_word_timings in Hw.
        destruct (seg_words s) as [[|w ws]|]; try discriminate.
        rewrite Ht in Hv. discriminate.
      * unfold split_segment_on_punctuation_marks in Hv.
        unfold has_word_timings in Hw.
        destruct (seg_words s) as [[|w ws]|]; try discriminate.
        rewrite Ht in Hv. discriminate.
      * destruct (punctuation_split_returns s marks text Ht Hw)
          as [parts [_ [Hr _]]].
        rewrite Hr in Hv. injection Hv as <-.
        exists parts. reflexivity.
      * unfold split_segment_on_punctuation_marks in Hv.
        unfold has_word_timings in Hw.
        destruct (seg_words s) as [[|w ws]|]; try discriminate.
        rewrite Ht in Hv. discriminate.
    + intros Hl v Hv.
      destruct (seg_text s) as [[|z|text]|] eqn:Ht.
      * unfold split_segment_by_word_limits in Hv.
        unfold has_word_timings in Hw.
        destruct (truthy wl) eqn:Hwl, (truthy cl) eqn:Hcl;
          try discriminate; simpl in Hv;
          destruct (seg_words s) as [[|w ws]|]; try discriminate;
          rewrite Ht in Hv; unfold word_limits_on_non_string in Hv;
          rewrite Hcl in Hv; try discriminate;
          destruct (limit_value wl <? length (w :: ws))%nat;
          try discriminate; injection Hv as <-; eexists; reflexivity.
      * unfold split_segment_by_word_limits in Hv.
        unfold has_word_timings in Hw.
        destruct (truthy wl) eqn:Hwl, (truthy cl) eqn:Hcl;
          try discriminate; simpl in Hv;
          destruct (seg_words s) as [[|w ws]|]; try discriminate;
          rewrite Ht in Hv; unfold word_limits_on_non_string in Hv;
          rewrite Hcl in Hv; try discriminate;
          destruct (limit_value wl <? length (w :: ws))%nat;
          try discriminate; destruct (Z.eqb z 0); try discriminate;
          injection Hv as <-; eexists; reflexivity.
      * destruct (limits_split_returns s wl cl text Ht Hw Hl)
          as [[parts [_ [Hr _]]]|[_ Hr]]; rewrite Hr in Hv.
        -- injection Hv as <-. exists parts. reflexivity.
        -- discriminate.
      * unfold split_segment_by_word_limits in Hv.
        unfold has_word_timings in Hw.
        destruct (truthy wl), (truthy cl); try discriminate;
          simpl in Hv;
          destruct (seg_words s) as [[|w ws]|]; try discriminate;
          rewrite Ht in Hv; discriminate.
  - intros Hw text Ht. split; [|split].
    + destruct (punctuation_split_returns s marks text Ht Hw)
        as [parts [_ [Hr _]]].
      exists parts. exact Hr.
    + intro Hcl.
      destruct (limits_split_returns s wl cl text Ht Hw)
        as [[parts [_ [Hr _]]]|[Hf _]].
      * rewrite Hcl. apply orb_true_r.
      * exists parts. exact Hr.
      * congruence.
    + intros Hwl Hcl.
      destruct (limits_split_returns s wl cl text Ht Hw)
        as [[parts [_ [Hr _]]]|[_ Hr]].
      * rewrite Hwl. reflexivity.
      * left. exists parts. exact Hr.
      * right. exact Hr.
Qed.

Lemma split_result_shapes_witness :
  split_segment_on_punctuation_marks
    (Dict (set_seg_words Samples.hello_world None))
    default_punctuation_marks
  = Return (Unsplit (Dict (set_seg_words Samples.hello_world None)))
  /\ exists l,
      split_segment_by_word_limits
        (Dict Samples.hello_world) None (Some 12%nat)
      = Return (Parts l).
Proof.
  split.
  - apply (split_result_shapes (set_seg_words Samples.hello_world None)
             default_punctuation_marks None None).
    reflexivity.
  - destruct (split_result_shapes Samples.hello_world
                default_punctuation_marks None (Some 12%nat))
      as [_ [_ [_ H]]].
    apply (H eq_refl _ eq_refl). reflexivity.
Defined.

End SplitterFacts.

(** ** Post-processing *)

Module PostProcessFacts.

Import Text Segments Splitter PostProcess.
Open Scope Q_scope.

Section WithFloat.
Context {F : Py.Float}.

(** *** Equality of entries *)

Lemma str_eqb_refl (a : str) : str_eqb a a = true.
Proof.
  unfold str_eqb. destruct (list_eq_dec N.eq_dec a a); congruence.
Qed.

Lemma atom_eqb_refl (a : atom) : atom_eqb a a = true.
Proof.
  destruct a; simpl;
    [reflexivity|apply Z.eqb_refl|apply str_eqb_refl].
Qed.

Lemma word_eqb_refl (w : word) : word_eqb w w = true.
Proof.
  unfold word_eqb. rewrite str_eqb_refl, !Qeq_bool_refl. reflexivity.
Qed.

Lemma list_eqb_refl (A : Type) (eqb : A -> A -> bool) (l : list A) :
  (forall x, eqb x x = true) -> list_eqb eqb l l = true.
Proof.
  intro H. induction l as [|x t IH]; simpl; [reflexivity|].
  rewrite H, IH. reflexivity.
Qed.

Lemma option_eqb_refl (A : Type) (eqb : A -> A -> bool) (o : option A) :
  (forall x, eqb x x = true) -> option_eqb eqb o o = true.
Proof. intro H. destruct o; simpl; [apply H|reflexivity]. Qed.

Lemma entry_eqb_refl (e : entry) : entry_eqb e e = true.
Proof.
  destruct e as [a|s]; simpl; [apply atom_eqb_refl|].
  unfold segment_eqb.
  rewrite (option_eqb_refl _ Z.eqb (seg_id s) Z.eqb_refl),
    !Qeq_bool_refl,
    (option_eqb_refl _ atom_eqb (seg_text s) atom_eqb_refl),
    (option_eqb_refl _ (list_eqb word_eqb) (seg_words s)
       (fun l => list_eqb_refl _ word_eqb l word_eqb_refl)).
  reflexivity.
Qed.

(** *** Lists and the store *)

(** Removing the first element equal to the one at position [n] leaves
    the list as it was after position [n + 1]: the loop then skips one
    entry. *)
Lemma remove_first_skipn (A : Type) (eqb : A -> A -> bool) (x : A)
      (l : list A) :
  forall n y,
    nth_error l n = Some y -> eqb y x = true ->
    skipn (S n) (remove_first eqb x l) = skipn (S (S n)) l.
Proof.
  induction l as [|z t IH]; intros n y Hn He.
  - destruct n; discriminate.
  - simpl remove_first. destruct (eqb z x) eqn:Ez.
    + reflexivity.
    + destruct n as [|n]; simpl in Hn.
      * injection Hn as ->. congruence.
      * change (skipn (S (S n)) (z :: remove_first eqb x t))
          with (skipn (S n) (remove_first eqb x t)).
        rewrite (IH n y Hn He). reflexivity.
Qed.

Lemma skipn_cons_nth_error (A : Type) (l : list A) (n : nat) (x : A)
      (rest : list A) :
  skipn n l = x :: rest ->
  nth_error l n = Some x /\ skipn (S n) l = rest.
Proof.
  revert n. induction l as [|y t IH]; intros n H.
  - destruct n; discriminate.
  - destruct n as [|n]; simpl in H.
    + injection H as -> ->. split; reflexivity.
    + apply IH, H.
Qed.

Lemma skipn_nil_nth_error (A : Type) (l : list A) (n : nat) :
  skipn n l = [] -> nth_error l n = None.
Proof.
  revert n. induction l as [|y t IH]; intros n H.
  - destruct n; reflexivity.
  - destruct n as [|n]; simpl in H; [discriminate|]. apply IH, H.
Qed.

Lemma update_length (st : list entry) (r : nat) (e : entry) :
  length (update st r e) = length st.
Proof.
  revert r. induction st as [|x t IH]; intros [|r]; simpl;
    try reflexivity. rewrite IH. reflexivity.
Qed.

Lemma lookup_update_same (st : list entry) (r : nat) (e : entry) :
  (r < length st)%nat -> lookup (update st r e) r = e.
Proof.
  unfold lookup. revert r.
  induction st as [|x t IH]; intros [|r] H; simpl in *; try lia.
  - reflexivity.
  - apply IH. lia.
Qed.

Lemma lookup_update_other (st : list entry) (r r' : nat) (e : entry) :
  r <> r' -> lookup (update st r e) r' = lookup st r'.
Proof.
  unfold lookup. revert r r'.
  induction st as [|x t IH]; intros [|r] [|r'] H; simpl;
    try reflexivity; try congruence.
  apply IH. congruence.
Qed.

Lemma map_lookup_update_other (st : list entry) (r : nat) (e : entry)
      (refs : list nat) :
  ~ In r refs ->
  map (lookup (update st r e)) refs = map (lookup st) refs.
Proof.
  intro H. apply map_ext_in. intros a Ha.
  apply lookup_update_other. intros ->. exact (H Ha).
Qed.

(** *** The gap rule on lists *)

Lemma fill_gaps_last (thr : option Q) (l : list segment) (a : segment) :
  exists filled,
    fill_gaps thr (l ++ [a]) = filled ++ [a]
    /\ length filled = length l
    /\ forall b, fill_gaps thr (l ++ [a; b])
                 = filled ++ [close_gap thr a b; b].
Proof.
  induction l as [|c l IH].
  - exists []. repeat split; reflexivity.
  - destruct IH as [filled [H1 [H2 H3]]].
    destruct l as [|d l].
    + exists [close_gap thr c a]. repeat split; reflexivity.
    + exists (close_gap thr c d :: filled).
      split; [|split].
      * change (fill_gaps thr ((c :: d :: l) ++ [a]))
          with (close_gap thr c d :: fill_gaps thr ((d :: l) ++ [a])).
        rewrite H1. reflexivity.
      * simpl in *. rewrite H2. reflexivity.
      * intro b.
        change (fill_gaps thr ((c :: d :: l) ++ [a; b]))
          with (close_gap thr c d :: fill_gaps thr ((d :: l) ++ [a; b])).
        rewrite H3. reflexivity.
Qed.

Lemma list_last_cases (A : Type) (l : list A) :
  l = [] \/ exists l0 a, l = l0 ++ [a].
Proof.
  destruct l as [|x t]; [left; reflexivity|right].
  destruct (@exists_last A (x :: t)) as [l0 [a H]]; [discriminate|].
  exists l0, a. exact H.
Qed.

(** *** The housekeeping loop *)

Lemma housekeeping_loop_done (fuel : nat) (o : options) (n : nat)
      (st : state) :
  nth_error (result_segments st) n = None ->
  housekeeping_loop fuel o n st = Return st.
Proof. intro H. destruct fuel; simpl; rewrite H; reflexivity. Qed.

Lemma housekeeping_loop_step (fuel : nat) (o : options) (n : nat)
      (st : state) (r : nat) :
  nth_error (result_segments st) n = Some r ->
  housekeeping_loop (S fuel) o n st =
    match lookup (store st) r with
    | NonDict _ => housekeeping_loop fuel o (S n) (remove_segment st r)
    | Dict s =>
        if valid_text s
        then housekeeping_loop fuel o (S n) (keep_segment o st r s)
        else housekeeping_loop fuel o (S n) (remove_segment st r)
    end.
Proof. intro H. simpl. rewrite H. reflexivity. Qed.

Lemma kept_refs_invalid (k : nat) (x : entry) (rest : list entry) :
  valid_entry x = false ->
  kept_refs k (x :: rest) = kept_refs (S (S k)) (skipn 1 rest).
Proof. intro H. simpl. rewrite H. destruct rest; reflexivity. Qed.

Lemma kept_segments_invalid (x : entry) (rest : list entry) :
  valid_entry x = false ->
  kept_segments (x :: rest) = kept_segments (skipn 1 rest).
Proof.
  intro H. destruct x as [a|s]; simpl in *.
  - destruct rest; reflexivity.
  - rewrite H. destruct rest; reflexivity.
Qed.

Lemma skipn_lookup (l : list entry) (k : nat) :
  (k < length l)%nat -> skipn k l = lookup l k :: skipn (S k) l.
Proof.
  unfold lookup. revert k.
  induction l as [|x t IH]; intros [|k] H; simpl in *; try lia.
  - reflexivity.
  - apply IH. lia.
Qed.

Lemma last_end_snoc (l : list segment) (a : segment) :
  last_end (l ++ [a]) = Some (seg_end a).
Proof. unfold last_end. rewrite rev_app_distr. reflexivity. Qed.

Lemma map_eq_snoc (A B : Type) (f : A -> B) (l : list A) (xs : list B)
      (y : B) :
  map f l = xs ++ [y] ->
  exists l0 p, l = l0 ++ [p] /\ map f l0 = xs /\ f p = y.
Proof.
  intro H. apply map_eq_app in H.
  destruct H as [l1 [l2 [-> [H1 H2]]]].
  destruct l2 as [|p [|q l2]]; try discriminate.
  injection H2 as H2. exists l1, p. repeat split; assumption.
Qed.

Lemma NoDup_snoc (l : list nat) (x : nat) :
  NoDup l -> ~ In x l -> NoDup (l ++ [x]).
Proof.
  induction 1 as [|y t Hy Ht IH]; intro Hx; simpl.
  - constructor; [intros []|constructor].
  - constructor.
    + intro Hin. apply in_app_or in Hin. destruct Hin as [Hin|[<-|[]]].
      * exact (Hy Hin).
      * apply Hx. left. reflexivity.
    + apply IH. intro Hin. apply Hx. right. exact Hin.
Qed.

(** Removing an entry keeps the invariant, two entries further on. *)
Lemma remove_segment_invariant (o : options) (initial : list entry)
      (k : nat) (st : state) (l : list segment) (r : nat) :
  store_invariant o initial k st l ->
  store_invariant o initial (S (S k)) (remove_segment st r) l.
Proof.
  intros [H1 [H2 [H3 [H4 [H5 H6]]]]]. unfold store_invariant. simpl.
  repeat split; try assumption.
  - intros q Hq. apply H2. lia.
  - intros q Hq. specialize (H4 q Hq). lia.
Qed.

(** Keeping a segment keeps the invariant, one entry further on, with
    the segment added to the list. *)
Lemma keep_segment_invariant (o : options) (initial : list entry)
      (k : nat) (st : state) (l : list segment) (s : segment) :
  store_invariant o initial k st l ->
  (k < length initial)%nat ->
  store_invariant o initial (S k) (keep_segment o st k s)
                  (l ++ [strip_words o s]).
Proof.
  intros [H1 [H2 [H3 [H4 [H5 H6]]]]] Hk.
  set (s1 := strip_words o s).
  set (store1 := update (store st) k (Dict s1)).
  assert (Hlen1 : length store1 = length initial)
    by (unfold store1; rewrite update_length; exact H1).
  assert (Hk1 : lookup store1 k = Dict s1)
    by (apply lookup_update_same; lia).
  assert (Hnk : ~ In k (new_result_segments st))
    by (intro Hin; specialize (H4 k Hin); lia).
  assert (Hout1 : map (lookup store1) (new_result_segments st)
                  = map (lookup (store st)) (new_result_segments st))
    by (apply map_lookup_update_other; exact Hnk).
  destruct (list_last_cases _ l) as [->|[l0 [a ->]]].
  - (* nothing appended yet *)
    simpl in H5. apply map_eq_nil in H5.
    unfold last_end in H6. simpl in H6.
    unfold keep_segment. fold s1. fold store1. rewrite H6, H5.
    unfold store_invariant. simpl.
    split; [exact Hlen1|]. split.
    { intros q Hq. unfold store1.
      rewrite lookup_update_other by lia. apply H2. lia. }
    split; [constructor; [intros []|constructor]|].
    split; [intros q [<-|[]]; lia|].
    split; [rewrite Hk1; reflexivity|reflexivity].
  - (* a segment [a] was appended last *)
    destruct (fill_gaps_last (prevent_short_gaps o) l0 a)
      as [filled [Hf1 [Hf2 Hf3]]].
    rewrite Hf1, map_app in H5. simpl in H5.
    destruct (map_eq_snoc _ _ _ _ _ _ H5) as [out0 [p [Hout [Hm Hp]]]].
    rewrite last_end_snoc in H6.
    assert (Hpk : (p < k)%nat)
      by (apply H4; rewrite Hout; apply in_or_app; right; left;
          reflexivity).
    assert (Hp0 : ~ In p out0).
    { pose proof H3 as Hnd. rewrite Hout in Hnd.
      apply NoDup_remove_2 in Hnd.
      intro Hin. apply Hnd. apply in_or_app. left. exact Hin. }
    assert (Hk0 : ~ In k out0).
    { intro Hin. apply Hnk. rewrite Hout. apply in_or_app. left.
      exact Hin. }
    assert (Hp1 : lookup store1 p = Dict a).
    { unfold store1. rewrite lookup_update_other by lia. exact Hp. }
    assert (Hlast : last (new_result_segments st) 0%nat = p)
      by (rewrite Hout; apply last_last).
    (* the store after the gap rule *)
    assert (Hstore2 :
             exists store2,
               keep_segment o st k s
               = State store2 (result_segments st)
                       (new_result_segments st ++ [k])
                       (Some (seg_end s1))
               /\ length store2 = length initial
               /\ (forall q, q <> p -> lookup store2 q = lookup store1 q)
               /\ lookup store2 p
                  = Dict (close_gap (prevent_short_gaps o) a s1)).
    { unfold keep_segment. fold s1. fold store1. rewrite H6, Hlast.
      unfold close_gap.
      destruct (prevent_short_gaps o) as [t|].
      - destruct (Py.ltb (Py.fsub (seg_start s1) (seg_end a)) t).
        + rewrite Hp1. eexists. split; [reflexivity|].
          split; [rewrite update_length; exact Hlen1|].
          split.
          * intros q Hq. apply lookup_update_other. congruence.
          * apply lookup_update_same. lia.
        + eexists. split; [reflexivity|].
          split; [exact Hlen1|]. split; [reflexivity|exact Hp1].
      - eexists. split; [reflexivity|].
        split; [exact Hlen1|]. split; [reflexivity|exact Hp1]. }
    destruct Hstore2 as [store2 [-> [Hlen2 [Hother Hsame]]]].
    unfold store_invariant. simpl.
    split; [exact Hlen2|]. split.
    { intros q Hq. rewrite Hother by lia. unfold store1.
      rewrite lookup_update_other by lia. apply H2. lia. }
    split.
    { apply NoDup_snoc; assumption. }
    split.
    { intros q Hq. apply in_app_or in Hq. destruct Hq as [Hq|[<-|[]]].
      - specialize (H4 q Hq). lia.
      - lia. }
    split.
    { rewrite <- app_assoc. simpl. rewrite (Hf3 s1).
      rewrite Hout, <- app_assoc, !map_app. simpl.
      rewrite Hsame. rewrite (Hother k) by lia. rewrite Hk1.
      f_equal. rewrite <- Hm. apply map_ext_in. intros q Hq.
      rewrite Hother by (intros ->; exact (Hp0 Hq)).
      unfold store1. apply lookup_update_other.
      intros <-. exact (Hk0 Hq). }
    rewrite last_end_snoc. reflexivity.
Qed.

(** The loop returns; it appends the positions [kept_refs] lists, and
    the segments it leaves there are the kept segments, with their words
    removed when asked, and with the gaps closed. *)
Lemma housekeeping_loop_spec (o : options) (initial : list entry)
      (fuel : nat) :
  forall k n st l,
    store_invariant o initial k st l ->
    skipn n (result_segments st) = seq k (length initial - k) ->
    (length initial - k <= fuel)%nat ->
    exists st',
      housekeeping_loop fuel o n st = Return st'
      /\ new_result_segments st'
         = new_result_segments st ++ kept_refs k (skipn k initial)
      /\ map (lookup (store st')) (new_result_segments st')
         = map Dict
             (fill_gaps (prevent_short_gaps o)
                (l ++ map (strip_words o)
                        (kept_segments (skipn k initial)))).
Proof.
  induction fuel as [|fuel IH]; intros k n st l Hinv Hskip Hfuel.
  - (* nothing left to read *)
    replace (length initial - k)%nat with 0%nat in Hskip by lia.
    simpl in Hskip. exists st.
    rewrite (housekeeping_loop_done 0 o n st
               (skipn_nil_nth_error _ _ _ Hskip)).
    rewrite (skipn_all2 initial) by lia. simpl. rewrite !app_nil_r.
    split; [reflexivity|]. split; [reflexivity|].
    destruct Hinv as [_ [_ [_ [_ [H5 _]]]]]. exact H5.
  - destruct (length initial - k)%nat as [|m] eqn:Hm.
    + simpl in Hskip. exists st.
      rewrite (housekeeping_loop_done (S fuel) o n st
                 (skipn_nil_nth_error _ _ _ Hskip)).
      rewrite (skipn_all2 initial) by lia. simpl. rewrite !app_nil_r.
      split; [reflexivity|]. split; [reflexivity|].
      destruct Hinv as [_ [_ [_ [_ [H5 _]]]]]. exact H5.
    + simpl in Hskip.
      destruct (skipn_cons_nth_error _ _ _ _ _ Hskip) as [Hnth Hrest].
      assert (Hk : (k < length initial)%nat) by lia.
      rewrite (housekeeping_loop_step fuel o n st k Hnth).
      assert (Hlook : lookup (store st) k = lookup initial k).
      { destruct Hinv as [_ [H2 _]]. apply H2. lia. }
      rewrite Hlook, (skipn_lookup initial k Hk).
      assert (Hremove :
               valid_entry (lookup initial k) = false ->
               exists st',
                 housekeeping_loop fuel o (S n) (remove_segment st k)
                 = Return st'
                 /\ new_result_segments st'
                    = new_result_segments st
                        ++ kept_refs k (lookup initial k
                                          :: skipn (S k) initial)
                 /\ map (lookup (store st')) (new_result_segments st')
                    = map Dict
                        (fill_gaps (prevent_short_gaps o)
                           (l ++ map (strip_words o)
                                   (kept_segments
                                      (lookup initial k
                                         :: skipn (S k) initial))))).
      { intro Hv.
        rewrite (kept_refs_invalid k _ _ Hv),
          (kept_segments_invalid _ _ Hv), skipn_skipn.
        change (1 + S k)%nat with (S (S k)).
        apply (IH (S (S k)) (S n) (remove_segment st k) l).
        - apply remove_segment_invariant, Hinv.
        - simpl result_segments.
          rewrite (remove_first_skipn _ _ k (result_segments st) n k Hnth)
            by apply entry_eqb_refl.
          change (S (S n)) with (1 + S n)%nat.
          rewrite <- skipn_skipn, Hrest.
          replace (length initial - S (S k))%nat with (m - 1)%nat by lia.
          destruct m; simpl; rewrite ?Nat.sub_0_r; reflexivity.
        - lia. }
      destruct (lookup initial k) as [a|s] eqn:Hx.
      * apply Hremove. reflexivity.
      * destruct (valid_text s) eqn:Hv.
        -- destruct (IH (S k) (S n) (keep_segment o st k s)
                       (l ++ [strip_words o s]))
             as [st' [Hr [Hrefs Hvals]]].
           ++ apply keep_segment_invariant; assumption.
           ++ unfold keep_segment. simpl result_segments.
              rewrite Hrest. f_equal. lia.
           ++ lia.
           ++ exists st'. split; [exact Hr|]. split.
              ** rewrite Hrefs. unfold keep_segment. simpl.
                 rewrite Hv, <- app_assoc. reflexivity.
              ** rewrite Hvals. simpl. rewrite Hv, <- app_assoc.
                 reflexivity.
        -- apply Hremove. simpl. exact Hv.
Qed.

(** [new_result_segments], as references and as values. *)
Lemma housekeeping_spec (o : options) (segments : list entry) :
  housekeeping_refs o segments = Return (kept_refs 0 segments)
  /\ housekeeping o segments
     = Return (map Dict
                 (fill_gaps (prevent_short_gaps o)
                    (map (strip_words o) (kept_segments segments)))).
Proof.
  destruct (housekeeping_loop_spec o segments (length segments) 0 0
              (State segments (seq 0 (length segments)) [] None) [])
    as [st' [Hr [Hrefs Hvals]]].
  - unfold store_invariant. simpl.
    repeat split; try reflexivity.
    + constructor.
    + intros r [].
  - simpl. rewrite Nat.sub_0_r. reflexivity.
  - lia.
  - unfold housekeeping_refs, housekeeping, housekeeping_state.
    rewrite Hr. simpl in *. rewrite Hrefs, <- Hvals, Hrefs.
    split; reflexivity.
Qed.

Lemma lookup_app_length (pre rest : list entry) (x : entry) :
  lookup (pre ++ x :: rest) (length pre) = x.
Proof.
  unfold lookup. induction pre as [|y pre IH]; [reflexivity|exact IH].
Qed.

(** [kept_segments] lists the segments found at the positions
    [kept_refs] lists. *)
Lemma kept_refs_segments (n : nat) :
  forall l pre,
    (length l <= n)%nat ->
    map (lookup (pre ++ l)) (kept_refs (length pre) l)
    = map Dict (kept_segments l).
Proof.
  induction n as [|n IH]; intros l pre Hn.
  - destruct l; [reflexivity|simpl in Hn; lia].
  - destruct l as [|x rest]; [reflexivity|]. simpl in Hn.
    assert (Hnext :
             map (lookup (pre ++ x :: rest))
                 (kept_refs (S (length pre)) rest)
             = map Dict (kept_segments rest)).
    { replace (pre ++ x :: rest) with ((pre ++ [x]) ++ rest)
        by (rewrite <- app_assoc; reflexivity).
      replace (S (length pre)) with (length (pre ++ [x]))
        by (rewrite length_app; simpl; lia).
      apply IH. lia. }
    assert (Hskip :
             map (lookup (pre ++ x :: rest))
                 (kept_refs (S (S (length pre))) (skipn 1 rest))
             = map Dict (kept_segments (skipn 1 rest))).
    { destruct rest as [|y rest']; [reflexivity|]. simpl skipn.
      replace (pre ++ x :: y :: rest') with ((pre ++ [x; y]) ++ rest')
        by (rewrite <- app_assoc; reflexivity).
      replace (S (S (length pre))) with (length (pre ++ [x; y]))
        by (rewrite length_app; simpl; lia).
      apply IH. simpl in Hn. lia. }
    destruct (valid_entry x) eqn:Hv.
    + destruct x as [a|s]; [discriminate|]. simpl in Hv.
      simpl kept_refs. simpl kept_segments. rewrite Hv. simpl map.
      rewrite lookup_app_length, Hnext. reflexivity.
    + rewrite (kept_refs_invalid _ x rest Hv),
        (kept_segments_invalid x rest Hv).
      exact Hskip.
Qed.

(** Without a splitting option, [split_segments] hands the list on as
    it is, provided its first entry, if any, is a dict. *)
Lemma split_segments_off (o : options) (segments : list entry) :
  split_on_punctuation_marks o = false ->
  max_words_per_segment o = None ->
  max_chars_per_segment o = None ->
  (forall a rest, segments <> NonDict a :: rest) ->
  split_segments segments o = Return segments.
Proof.
  intros Hp Hw Hc Hd. unfold split_segments.
  destruct segments as [|[a|s] rest]; [reflexivity| |].
  - destruct (Hd a rest eq_refl).
  - simpl. rewrite Hp, Hw, Hc.
    destruct (seg_words s); reflexivity.
Qed.

(** *** The gap rule *)

Lemma close_gap_shape (thr : option Q) (a b : segment) :
  exists e, close_gap thr a b = set_seg_end a e.
Proof.
  unfold close_gap. destruct thr as [t|].
  - destruct (Py.ltb (Py.fsub (seg_start b) (seg_end a)) t).
    + exists (seg_start b). reflexivity.
    + exists (seg_end a). destruct a; reflexivity.
  - exists (seg_end a). destruct a; reflexivity.
Qed.

Lemma fill_gaps_length (thr : option Q) (l : list segment) :
  length (fill_gaps thr l) = length l.
Proof.
  induction l as [|a [|b l] IH]; try reflexivity.
  change (fill_gaps thr (a :: b :: l))
    with (close_gap thr a b :: fill_gaps thr (b :: l)).
  simpl length in *. rewrite IH. reflexivity.
Qed.

Lemma fill_gaps_head (thr : option Q) (l : list segment) (b : segment) :
  nth_error l 0 = Some b ->
  exists e, nth_error (fill_gaps thr l) 0 = Some (set_seg_end b e).
Proof.
  destruct l as [|b0 [|c l]]; intro H; try discriminate;
    injection H as ->.
  - exists (seg_end b). destruct b; reflexivity.
  - destruct (close_gap_shape thr b c) as [e He].
    exists e. simpl. rewrite He. reflexivity.
Qed.

(** In the filled list a segment differs from the original at most by
    its end, and its end is set by the segment that follows it. *)
Lemma fill_gaps_pair (thr : option Q) (l : list segment) :
  forall i a b,
    nth_error l i = Some a -> nth_error l (S i) = Some b ->
    nth_error (fill_gaps thr l) i = Some (close_gap thr a b)
    /\ exists e, nth_error (fill_gaps thr l) (S i)
                 = Some (set_seg_end b e).
Proof.
  induction l as [|x l IH]; intros i a b Ha Hb.
  - destruct i; discriminate.
  - destruct l as [|y l]; [destruct i; discriminate|].
    change (fill_gaps thr (x :: y :: l))
      with (close_gap thr x y :: fill_gaps thr (y :: l)).
    destruct i as [|i].
    + simpl in Ha, Hb. injection Ha as ->. injection Hb as ->.
      split; [reflexivity|].
      apply (fill_gaps_head thr (b :: l) b). reflexivity.
    + apply (IH i a b Ha Hb).
Qed.



Lemma post_process_spec (o : options) (segments es : list entry)
      (language : option str) (status_ : option status) :
  split_segments segments o = Return es ->
  post_process_refs (ResultDict (Some segments) language status_) o
  = Return (kept_refs 0 es)
  /\ post_process_whisper_result
       (ResultDict (Some segments) language status_) o
     = Return (ResultDict
                 (Some (map Dict
                          (fill_gaps (prevent_short_gaps o)
                             (map (strip_words o) (kept_segments es)))))
                 language status_).
Proof.
  intro Hs. destruct (housekeeping_spec o es) as [H1 H2].
  unfold post_process_refs, post_process_whisper_result.
  rewrite Hs. simpl. rewrite H1, H2. split; reflexivity.
Qed.


(** *** Entries lost after an invalid entry *)

Lemma kept_refs_bounds (l : list entry) :
  forall n k r,
    (length l <= n)%nat ->
    In r (kept_refs k l) -> (k <= r < k + length l)%nat.
Proof.
  intros n. revert l.
  induction n as [|n IH]; intros l k r Hn Hr.
  - destruct l; [destruct Hr|simpl in Hn; lia].
  - destruct l as [|x rest]; [destruct Hr|]. simpl in Hr, Hn.
    destruct (valid_entry x).
    + destruct Hr as [<-|Hr]; [simpl; lia|].
      apply IH in Hr; [simpl; lia|lia].
    + destruct rest as [|y rest']; [destruct Hr|].
      destruct n as [|n']; [simpl in Hn; lia|].
      assert (Hn' : (length rest' <= S n')%nat) by (simpl in Hn; lia).
      apply (IH rest' (S (S k)) r Hn') in Hr. simpl. lia.
Qed.

(** The entry after a valid entry is always read. *)
Lemma kept_refs_after_valid (n : nat) :
  forall pre k y rest,
    (length pre <= n)%nat -> valid_entry y = true ->
    kept_refs k (pre ++ y :: rest)
    = kept_refs k (pre ++ [y]) ++ kept_refs (k + length pre + 1) rest.
Proof.
  induction n as [|n IH]; intros pre k y rest Hn Hy.
  - destruct pre; [|simpl in Hn; lia]. simpl. rewrite Hy.
    simpl. replace (k + 0 + 1)%nat with (S k) by lia. reflexivity.
  - destruct pre as [|z pre].
    + simpl. rewrite Hy. simpl.
      replace (k + 0 + 1)%nat with (S k) by lia. reflexivity.
    + simpl in Hn.
      replace (k + length (z :: pre) + 1)%nat
        with (S k + length pre + 1)%nat by (simpl; lia).
      destruct (valid_entry z) eqn:Hz.
      * simpl. rewrite Hz.
        rewrite (IH pre (S k) y rest) by (lia || assumption).
        reflexivity.
      * destruct pre as [|w pre].
        -- simpl. rewrite Hz. simpl.
           replace (S (k + 0 + 1))%nat with (S (S k)) by lia.
           reflexivity.
        -- simpl. rewrite Hz.
           rewrite (IH pre (S (S k)) y rest)
             by (simpl in Hn; lia || assumption).
           replace (S (k + S (length pre) + 1))%nat
             with (S (S k) + length pre + 1)%nat by lia.
           reflexivity.
Qed.

(** An even number of invalid entries is passed over as a whole. *)
Lemma kept_refs_even_run (n : nat) :
  forall run k rest,
    (length run <= n)%nat ->
    Forall (fun e => valid_entry e = false) run ->
    Nat.Even (length run) ->
    kept_refs k (run ++ rest) = kept_refs (k + length run) rest.
Proof.
  induction n as [|n IH]; intros run k rest Hn Hrun Heven.
  - destruct run; [|simpl in Hn; lia]. simpl. f_equal. lia.
  - destruct run as [|a [|b run]].
    + simpl. f_equal. lia.
    + destruct Heven as [c Hc]. simpl in Hc. lia.
    + inversion Hrun as [|? ? Ha Hrun']; subst.
      inversion Hrun' as [|? ? Hb Hrun'']; subst.
      simpl app. simpl kept_refs. rewrite Ha.
      rewrite (IH run (S (S k)) rest).
      * f_equal. simpl. lia.
      * simpl in Hn. lia.
      * exact Hrun''.
      * destruct Heven as [c Hc]. simpl in Hc.
        exists (c - 1)%nat. lia.
Qed.

Lemma successor_not_kept (pre run post : list entry) (x v : entry) :
  (pre = [] \/ exists pre' y, pre = pre' ++ [y] /\ valid_entry y = true) ->
  Forall (fun e => valid_entry e = false) run ->
  Nat.Even (length run) ->
  valid_entry x = false ->
  ~ In (S (length pre + length run))
       (kept_refs 0 (pre ++ run ++ x :: v :: post)).
Proof.
  intros Hpre Hrun Heven Hx Hin.
  assert (Htail :
           forall k r,
             In r (kept_refs k (run ++ x :: v :: post)) ->
             (k + length run + 2 <= r)%nat).
  { intros k r Hr.
    rewrite (kept_refs_even_run (length run) run k _ (le_n _) Hrun Heven)
      in Hr.
    rewrite (kept_refs_invalid _ x (v :: post) Hx) in Hr. simpl in Hr.
    apply (kept_refs_bounds post (length post) _ r (le_n _)) in Hr.
    lia. }
  destruct Hpre as [->|[pre' [y [-> Hy]]]].
  - simpl in Hin. apply Htail in Hin. lia.
  - rewrite <- app_assoc in Hin. simpl in Hin.
    rewrite (kept_refs_after_valid (length pre') pre' 0 y _ (le_n _) Hy)
      in Hin.
    rewrite length_app in Hin. simpl in Hin.
    apply in_app_or in Hin. destruct Hin as [Hin|Hin].
    + apply (kept_refs_bounds _ (length (pre' ++ [y])) 0 _ (le_n _))
        in Hin.
      rewrite length_app in Hin. simpl in Hin. lia.
    + apply Htail in Hin. lia.
Qed.

(** *** The segments returned are the ones at the kept positions *)

Lemma map_eq_Forall2 (A B C : Type) (f : A -> C) (g : B -> C)
      (l1 : list A) :
  forall l2, map f l1 = map g l2 -> Forall2 (fun a b => f a = g b) l1 l2.
Proof.
  induction l1 as [|a l1 IH]; intros [|b l2] H; try discriminate.
  - constructor.
  - injection H as Hab H. constructor; [exact Hab|apply IH, H].
Qed.

Lemma fill_gaps_shape (thr : option Q) (f : segment -> segment)
      (l : list segment) :
  Forall2 (fun s a' => exists e, a' = set_seg_end (f s) e)
          l (fill_gaps thr (map f l)).
Proof.
  induction l as [|a l IH]; [constructor|].
  destruct l as [|b l].
  - constructor; [|constructor].
    exists (seg_end (f a)). simpl. destruct (f a); reflexivity.
  - change (fill_gaps thr (map f (a :: b :: l)))
      with (close_gap thr (f a) (f b) :: fill_gaps thr (map f (b :: l))).
    constructor; [apply close_gap_shape|exact IH].
Qed.

Lemma Forall2_compose (A B C : Type) (P : A -> B -> Prop)
      (Q : B -> C -> Prop) (l1 : list A) :
  forall l2 l3,
    Forall2 P l1 l2 -> Forall2 Q l2 l3 ->
    Forall2 (fun a c => exists b, P a b /\ Q b c) l1 l3.
Proof.
  induction l1 as [|a l1 IH]; intros l2 l3 H12 H23.
  - inversion H12; subst. inversion H23; subst. constructor.
  - inversion H12 as [|? b ? l2' Hab H12']; subst.
    inversion H23 as [|? c ? l3' Hbc H23']; subst.
    constructor; [exists b; split; assumption|].
    apply (IH l2' l3' H12' H23').
Qed.

(** Each segment returned is the segment found at the corresponding
    kept position, with its words removed when asked and, at most,
    another end. *)
Lemma returned_segments_at_refs (o : options) (es : list entry) :
  Forall2 (fun r e' => exists s e,
               lookup es r = Dict s
               /\ e' = Dict (set_seg_end (strip_words o s) e))
          (kept_refs 0 es)
          (map Dict (fill_gaps (prevent_short_gaps o)
                       (map (strip_words o) (kept_segments es)))).
Proof.
  pose proof (kept_refs_segments (length es) es [] (le_n _)) as Hk.
  simpl in Hk. apply map_eq_Forall2 in Hk.
  pose proof (fill_gaps_shape (prevent_short_gaps o) (strip_words o)
                (kept_segments es)) as Hf.
  pose proof (Forall2_compose _ _ _ _ _ _ _ _ Hk Hf) as Hc.
  clear Hk Hf.
  induction Hc as [|r a' refs outs [s [Hs [e He]]] Hc IH]; simpl.
  - constructor.
  - constructor; [|exact IH].
    exists s, e. split; [exact Hs|]. rewrite He. reflexivity.
Qed.

(** C9, amended: when the list the loop iterates over contains an
    invalid entry that is preceded by an even number (possibly zero) of
    consecutive invalid entries, these starting the list or following a
    valid entry, and that is immediately followed by a valid segment,
    then [post_process_whisper_result] returns, the segments it returns
    are the ones at the positions the loop kept, and the position of
    that valid successor is not among them; the list may have duplicate
    entries. *)
Theorem invalid_entry_drops_successor (o : options)
        (segments es pre run post : list entry) (x v : entry)
        (language : option str) (status_ : option status) :
  split_segments segments o = Return es ->
  es = pre ++ run ++ x :: v :: post ->
  (pre = [] \/ exists pre' y, pre = pre' ++ [y] /\ valid_entry y = true) ->
  Forall (fun e => valid_entry e = false) run ->
  Nat.Even (length run) ->
  valid_entry x = false ->
  valid_entry v = true ->
  exists refs out,
    post_process_refs (ResultDict (Some segments) language status_) o
    = Return refs
    /\ post_process_whisper_result
         (ResultDict (Some segments) language status_) o
       = Return (ResultDict (Some out) language status_)
    /\ Forall2 (fun r e' => exists s e,
                    lookup es r = Dict s
                    /\ e' = Dict (set_seg_end (strip_words o s) e))
               refs out
    /\ lookup es (S (length pre + length run)) = v
    /\ ~ In (S (length pre + length run)) refs.
Proof.
  intros Hs -> Hpre Hrun Heven Hx Hv.
  destruct (post_process_spec o segments _ language status_ Hs)
    as [H1 H2].
  eexists. eexists. split; [exact H1|]. split; [exact H2|].
  split; [apply returned_segments_at_refs|]. split.
  - rewrite app_assoc.
    replace (S (length pre + length run))
      with (length ((pre ++ run) ++ [x]))
      by (rewrite !length_app; simpl; lia).
    replace ((pre ++ run) ++ x :: v :: post)
      with (((pre ++ run) ++ [x]) ++ v :: post)
      by (rewrite <- (app_assoc (pre ++ run)); reflexivity).
    apply lookup_app_length.
  - apply successor_not_kept; assumption.
Qed.

End WithFloat.

(** *** Concrete inputs

    The statements below are about given inputs and are computed with
    [Py.unrounded]. *)


(** C9, as the claim states it, fails even for a list without
    duplicates: in [[no text, empty text, "hi"]] the entry with the empty
    text is invalid and is followed by a valid segment, and that segment
    (position 2) is returned.  The loop never reads the second entry: it
    is the one the removal of the first entry makes the iterator skip. *)
Lemma second_invalid_entry_keeps_successor :
  ~ drops_successor default_options
      [Samples.no_text; Samples.empty_text; Samples.spoken "hi" 0 1] 1.
Proof.
  intro H.
  destruct (H Samples.empty_text (Samples.spoken "hi" 0 1))
    as [refs [Hr Hn]]; try reflexivity.
  - intros i j a b Hij Ha Hb.
    destruct i as [|[|[|i]]]; destruct j as [|[|[|j]]];
      try congruence; simpl in Ha, Hb;
      try (destruct i; discriminate); try (destruct j; discriminate);
      injection Ha as <-; injection Hb as <-; reflexivity.
  - vm_compute in Hr. injection Hr as <-. apply Hn. left. reflexivity.
Qed.

Lemma invalid_entry_drops_successor_witness :
  exists refs,
    post_process_refs
      (ResultDict (Some [Samples.spoken "a" 0 1; Samples.no_text;
                         Samples.spoken "b" 1 2; Samples.spoken "c" 2 3])
                  None None)
      default_options
    = Return refs
    /\ ~ In 2%nat refs.
Proof.
  destruct (invalid_entry_drops_successor
              default_options
              [Samples.spoken "a" 0 1; Samples.no_text;
               Samples.spoken "b" 1 2; Samples.spoken "c" 2 3]
              [Samples.spoken "a" 0 1; Samples.no_text;
               Samples.spoken "b" 1 2; Samples.spoken "c" 2 3]
              [Samples.spoken "a" 0 1] [] [Samples.spoken "c" 2 3]
              Samples.no_text (Samples.spoken "b" 1 2) None None)
    as [refs [out [H1 [_ [_ [_ H4]]]]]].
  - reflexivity.
  - reflexivity.
  - right. exists [], (Samples.spoken "a" 0 1). split; reflexivity.
  - constructor.
  - exists 0%nat. reflexivity.
  - reflexivity.
  - reflexivity.
  - exists refs. split; [exact H1|exact H4].
Defined.

End PostProcessFacts.

(** ** Segment stitcher *)

Module StitcherFacts.

Import Text Segments Intervals PostProcess Stitcher.
Open Scope Q_scope.

Section WithFloat.
Context {F : Py.Float}.

Lemma ids_from_app (l batch : list segment) :
  forall n,
    ids_from n l ->
    ids_from (n + Z.of_nat (length l)) batch ->
    ids_from n (l ++ batch).
Proof.
  induction l as [|s l IH]; intros n Hl Hb.
  - simpl in *. rewrite Z.add_0_r in Hb. exact Hb.
  - destruct Hl as [Hs Hl]. split; [exact Hs|].
    apply IH; [exact Hl|].
    replace (n + 1 + Z.of_nat (length l))%Z
      with (n + Z.of_nat (length (s :: l)))%Z by (simpl length; lia).
    exact Hb.
Qed.

Lemma ids_from_nth (l : list segment) :
  forall n i a,
    ids_from n l -> nth_error l i = Some a ->
    seg_id a = Some (n + Z.of_nat i)%Z.
Proof.
  induction l as [|s l IH]; intros n i a Hl Ha.
  - destruct i; discriminate.
  - destruct Hl as [Hs Hl]. destruct i as [|i]; simpl in Ha.
    + injection Ha as <-. rewrite Hs. f_equal. simpl. lia.
    + rewrite (IH (n + 1)%Z i a Hl Ha). f_equal. lia.
Qed.

Lemma ids_from_increasing (n : Z) (l : list segment) :
  ids_from n l -> strictly_increasing_ids l.
Proof.
  intros Hl i j a b Hij Ha Hb.
  exists (n + Z.of_nat i)%Z, (n + Z.of_nat j)%Z.
  split; [apply (ids_from_nth l n i a Hl Ha)|].
  split; [apply (ids_from_nth l n j b Hl Hb)|lia].
Qed.

Lemma persisted_app (a b : list store_event) :
  persisted (a ++ b) = persisted a ++ persisted b.
Proof. unfold persisted. apply flat_map_app. Qed.

(** The segments of one window get consecutive ids. *)
Lemma place_segments_ids (ws we : Q) (next : Z)
      (segments : list entry) :
  forall id_count batch,
    place_segments ws we next id_count segments = Return batch ->
    ids_from (next + id_count) batch.
Proof.
  induction segments as [|e rest IH]; intros id_count batch H.
  - injection H as <-. exact I.
  - destruct e as [a|t]; [discriminate|]. simpl in H.
    destruct (place_segments ws we next (id_count + 1) rest)
      as [placed| |] eqn:E; try discriminate.
    injection H as <-. split; [reflexivity|].
    replace (next + id_count + 1)%Z with (next + (id_count + 1))%Z by lia.
    apply IH, E.
Qed.

Section Loop.
Variable Sample : Type.
Variable transcribe : nat -> window Sample -> Q -> whisper_result.
Variable has_transcription : bool.
Variable next_segment_id : Z.

Lemma persisted_log (l : list store_event) (e : store_event) :
  persisted (log has_transcription l e)
  = persisted l ++ (if has_transcription then persisted [e] else []).
Proof.
  unfold log. destruct has_transcription.
  - apply persisted_app.
  - symmetry. apply app_nil_r.
Qed.

Lemma transcribe_loop_step (o : options) (total : Q) (calls : nat)
      (w : window Sample) (rest : list (window Sample)) (v : locals) :
  transcribe_loop transcribe has_transcription next_segment_id o total
                  calls (w :: rest) v
  = let events1 :=
      log has_transcription (l_events v)
          (DeleteSegmentsBetween (wstart w) (wend w)) in
    match post_process_whisper_result (transcribe calls w total)
                                      (stitcher_options o) with
    | Raises e => (events1, Raises e)
    | OutOfFuel => (events1, OutOfFuel)
    | Return r =>
        match r with
        | ResultDict (Some (t :: ts)) language _ =>
            match place_segments (wstart w) (wend w) next_segment_id
                                 (l_id_count v) (t :: ts) with
            | Raises e => (events1, Raises e)
            | OutOfFuel => (events1, OutOfFuel)
            | Return batch =>
                transcribe_loop
                  transcribe has_transcription next_segment_id
                  o total (S calls) rest
                  (Locals (l_segments v ++ batch)
                          (Some (match language with
                                 | Some l => l
                                 | None => []
                                 end))
                          (Some r)
                          (l_id_count v + Z.of_nat (length batch))
                          (log has_transcription
                               (log has_transcription events1
                                    (AddSegments batch))
                               SaveSoon))
            end
        | _ =>
            transcribe_loop
              transcribe has_transcription next_segment_id
              o total (S calls) rest
              (Locals (l_segments v) (l_language v) (Some r)
                      (l_id_count v)
                      (log has_transcription events1 SaveSoon))
        end
    end.
Proof. reflexivity. Qed.

(** Whatever the backend returns and however the call ends, the
    segments handed to the store so far have consecutive ids, and so
    have the segments of the local variables when the loop ends. *)
Lemma transcribe_loop_ids (o : options) (total : Q)
      (audio_segments : list (window Sample)) :
  forall calls v,
    locals_invariant has_transcription next_segment_id v ->
    exists segments,
      ids_from next_segment_id segments
      /\ persisted
           (fst (transcribe_loop transcribe has_transcription
                                 next_segment_id o total calls
                                 audio_segments v))
         = (if has_transcription then segments else [])
      /\ forall v',
          snd (transcribe_loop transcribe has_transcription
                               next_segment_id o total calls
                               audio_segments v) = Return v' ->
          l_segments v' = segments.
Proof.
  induction audio_segments as [|w rest IH];
    intros calls v [Hc [Hids Hp]].
  - exists (l_segments v). simpl.
    split; [exact Hids|]. split; [exact Hp|].
    intros v' Hv'. injection Hv' as <-. reflexivity.
  - rewrite transcribe_loop_step.
    set (events1 := log has_transcription (l_events v)
                        (DeleteSegmentsBetween (wstart w) (wend w))).
    cbv zeta.
    assert (Hp1 : persisted events1
                  = (if has_transcription then l_segments v else [])).
    { unfold events1. rewrite persisted_log, Hp.
      destruct has_transcription; simpl; rewrite ?app_nil_r;
        reflexivity. }
    assert (Hstop :
             forall r : result locals,
               (forall v', r <> Return v') ->
               exists segments,
                 ids_from next_segment_id segments
                 /\ persisted (fst (events1, r))
                    = (if has_transcription then segments else [])
                 /\ forall v', snd (events1, r) = Return v' ->
                               l_segments v' = segments).
    { intros r Hr. exists (l_segments v).
      split; [exact Hids|]. split; [exact Hp1|].
      intros v' Hv'. destruct (Hr v' Hv'). }
    assert (Hskip :
             forall r0,
               exists segments,
                 ids_from next_segment_id segments
                 /\ persisted
                      (fst (transcribe_loop
                              transcribe has_transcription
                              next_segment_id o total (S calls) rest
                              (Locals (l_segments v) (l_language v)
                                      (Some r0) (l_id_count v)
                                      (log has_transcription events1
                                           SaveSoon))))
                    = (if has_transcription then segments else [])
                 /\ forall v',
                     snd (transcribe_loop
                            transcribe has_transcription
                            next_segment_id o total (S calls) rest
                            (Locals (l_segments v) (l_language v)
                                    (Some r0) (l_id_count v)
                                    (log has_transcription events1
                                         SaveSoon)))
                     = Return v' ->
                     l_segments v' = segments).
    { intro r0. apply IH. unfold locals_invariant. simpl.
      split; [exact Hc|]. split; [exact Hids|].
      rewrite persisted_log, Hp1.
      destruct has_transcription; simpl; rewrite ?app_nil_r;
        reflexivity. }
    destruct (post_process_whisper_result
                (transcribe calls w total) (stitcher_options o))
      as [r| |] eqn:Er.
    + destruct r as [|[[|t ts]|] language status_];
        try apply Hskip.
      destruct (place_segments (wstart w) (wend w) next_segment_id
                               (l_id_count v) (t :: ts))
        as [batch| |] eqn:Eb.
      * apply IH. unfold locals_invariant. simpl.
        split; [rewrite length_app, Hc; lia|]. split.
        -- apply ids_from_app; [exact Hids|].
           rewrite <- Hc. apply (place_segments_ids _ _ _ _ _ _ Eb).
        -- rewrite !persisted_log, Hp1.
           destruct has_transcription; simpl; rewrite ?app_nil_r;
             reflexivity.
      * apply Hstop. discriminate.
      * apply Hstop. discriminate.
    + apply Hstop. discriminate.
    + apply Hstop. discriminate.
Qed.
End Loop.

(** C3: within one call of the stitcher, whatever the windows, the
    options and the answers of the backend, the segments handed to the
    transcription store and the segments returned all have an id; the
    ids are the store's next id, the next one, and so on, in the order
    in which the segments are emitted, so a later segment has a larger
    id and no two segments share one.  With a store, the segments handed
    to it are the segments returned. *)
Theorem stitched_ids_strictly_increase (Sample : Type)
        (transcribe : nat -> window Sample -> Q -> whisper_result)
        (has_transcription : bool) (next_segment_id : Z)
        (audio_segments : list (window Sample)) (o : options) :
  let out := whisper_transcribe_segments
               transcribe has_transcription next_segment_id
               audio_segments o in
  ids_from next_segment_id (persisted (events out))
  /\ strictly_increasing_ids (persisted (events out))
  /\ forall r,
      returned out = Return r ->
      ids_from next_segment_id (res_segments r)
      /\ strictly_increasing_ids (res_segments r)
      /\ (has_transcription = true ->
          persisted (events out) = res_segments r).
Proof.
  unfold whisper_transcribe_segments.
  destruct (transcribe_loop_ids
              Sample transcribe has_transcription next_segment_id o
              (total_duration audio_segments) audio_segments 0
              (Locals [] None None 0 []))
    as [segments [Hids [Hp Hret]]].
  { unfold locals_invariant. simpl.
    repeat split. destruct has_transcription; reflexivity. }
  destruct (transcribe_loop transcribe has_transcription next_segment_id
                            o (total_duration audio_segments) 0
                            audio_segments (Locals [] None None 0 []))
    as [ev r] eqn:E.
  simpl in Hp, Hret. cbv zeta. simpl events. simpl returned.
  assert (Hpers : ids_from next_segment_id (persisted ev)).
  { rewrite Hp. destruct has_transcription; [exact Hids|exact I]. }
  split; [exact Hpers|].
  split; [apply (ids_from_increasing next_segment_id _ Hpers)|].
  intros res Hres. destruct r as [v'| |]; try discriminate.
  simpl in Hres. injection Hres as <-. simpl res_segments.
  rewrite (Hret v' eq_refl).
  split; [exact Hids|].
  split; [apply (ids_from_increasing next_segment_id _ Hids)|].
  intros ->. exact Hp.
Qed.

End WithFloat.

(** *** Concrete inputs

    The statements below are about given inputs and are computed with
    [Py.unrounded]. *)

Lemma stitched_ids_strictly_increase_witness :
  strictly_increasing_ids
    (persisted
       (events (whisper_transcribe_segments
                  Samples.canceled_at_second_call true 7
                  Samples.three_windows default_options)))
  /\ map seg_id
       (persisted
          (events (whisper_transcribe_segments
                     Samples.canceled_at_second_call true 7
                     Samples.three_windows default_options)))
     = [Some 7%Z; Some 8%Z].
Proof.
  split; [|reflexivity].
  apply (stitched_ids_strictly_increase
           Z Samples.canceled_at_second_call true 7
           Samples.three_windows default_options).
Defined.

(** C2: a run of three windows in which cancellation is requested
    before the second window, so that the backend reports [canceled]
    for it.  The loop polls nothing between the windows and does not
    look at the status of a result before it goes on: it asks the store
    to delete and the backend to transcribe the third window, hands the
    segment of the third window to the store, and returns without a
    status, so that [whisper_transcribe] goes on to save the files
    instead of marking the item canceled. *)
Theorem stitching_goes_on_after_cancellation :
  let out := whisper_transcribe_segments
               Samples.canceled_at_second_call true 0
               Samples.three_windows default_options in
  events out
  = [DeleteSegmentsBetween 0 1;
     AddSegments [Segment (Some 0%Z) 0 1
                          (Some (PStr (of_string " one"))) None];
     SaveSoon;
     DeleteSegmentsBetween 1 2;
     SaveSoon;
     DeleteSegmentsBetween 2 3;
     AddSegments [Segment (Some 1%Z) 2 3
                          (Some (PStr (of_string " three"))) None];
     SaveSoon]
  /\ (exists r, returned out = Return r /\ res_status r = None)
  /\ whisper_transcribe_status (returned out) = QueueSavingFiles.
Proof.
  cbv zeta. split; [reflexivity|]. split.
  - eexists. split; reflexivity.
  - reflexivity.
Qed.

End StitcherFacts.

(** ** More on the interval algebra *)

Module IntervalExtras.

Import Intervals IntervalShapes.
Open Scope Q_scope.

Section WithFloat.
Context {F : Py.Float}.

(** *** [combine_intervals] *)

(** What the loop returns is never empty, never longer than what it
    read, starts where [cur] starts, and takes every start and every
    end from an interval it read. *)
Lemma combine_loop_endpoints (g : Q) (rest : list interval) :
  forall cur,
    (length (combine_loop g [] cur rest) <= S (length rest))%nat
    /\ (exists o out, combine_loop g [] cur rest = o :: out
                      /\ istart o = istart cur)
    /\ forall o, In o (combine_loop g [] cur rest) ->
                 (exists a, In a (cur :: rest) /\ istart o = istart a)
                 /\ (iend o = iend cur
                     \/ exists b, In b rest /\ iend o = iend b).
Proof.
  induction rest as [|x r IH]; intros cur.
  - simpl. split; [lia|]. split.
    + exists cur, []. split; reflexivity.
    + intros o [<-|[]]. split.
      * exists cur. split; [left|]; reflexivity.
      * left. reflexivity.
  - rewrite IntervalFacts.combine_loop_step.
    destruct (Py.leb (Py.fsub (istart x) (iend cur)) g).
    + destruct (IH (set_end cur (iend x))) as [H1 [H2 H3]].
      split; [simpl in *; lia|]. split.
      * destruct H2 as [o [out [Ho Hs]]].
        exists o, out. split; [exact Ho|exact Hs].
      * intros o Ho. destruct (H3 o Ho) as [[a [Ha Hsa]] He]. split.
        -- destruct Ha as [<-|Ha].
           ++ exists cur. split; [left; reflexivity|exact Hsa].
           ++ exists a. split; [right; right; exact Ha|exact Hsa].
        -- right. destruct He as [He|[b [Hb He]]].
           ++ exists x. split; [left; reflexivity|exact He].
           ++ exists b. split; [right; exact Hb|exact He].
    + destruct (IH x) as [H1 [H2 H3]].
      split; [simpl in *; lia|]. split.
      * eexists. eexists. split; reflexivity.
      * intros o [<-|Ho].
        -- split; [exists cur; split; [left|]; reflexivity|].
           left. reflexivity.
        -- destruct (H3 o Ho) as [[a [Ha Hsa]] He]. split.
           ++ exists a. split; [right; exact Ha|exact Hsa].
           ++ right. destruct He as [He|[b [Hb He]]].
              ** exists x. split; [left; reflexivity|exact He].
              ** exists b. split; [right; exact Hb|exact He].
Qed.

(** The loop leaves the merge test failing between the intervals it
    returns. *)
Lemma combine_loop_unmerged (g : Q) (rest : list interval) :
  forall cur, unmerged g (combine_loop g [] cur rest).
Proof.
  induction rest as [|x r IH]; intros cur.
  - simpl. exact I.
  - rewrite IntervalFacts.combine_loop_step.
    destruct (Py.leb (Py.fsub (istart x) (iend cur)) g) eqn:E.
    + apply IH.
    + destruct (combine_loop_endpoints g r x) as [_ [[o [out [Ho Hs]]] _]].
      specialize (IH x). rewrite Ho in *. simpl.
      split; [rewrite Hs; exact E|exact IH].
Qed.

(** A list between whose intervals the merge test fails is left alone
    by the loop. *)
Lemma combine_loop_unmerged_id (g : Q) (rest : list interval) :
  forall cur,
    unmerged g (cur :: rest) ->
    combine_loop g [] cur rest = cur :: rest.
Proof.
  induction rest as [|x r IH]; intros cur Hs.
  - reflexivity.
  - rewrite IntervalFacts.combine_loop_step.
    destruct Hs as [E Hs]. rewrite E, (IH x Hs). reflexivity.
Qed.

(** X1: combining twice is combining once: the output of
    [combine_intervals] is a fixed point, for every list and every
    gap. *)
Theorem combine_intervals_idempotent (l : list interval) (gap : Q) :
  combine_intervals (combine_intervals l gap) gap
  = combine_intervals l gap.
Proof.
  assert (Hout : sorted_by_start (combine_intervals l gap)
                 /\ unmerged gap (combine_intervals l gap)).
  { unfold combine_intervals.
    pose proof (PyFacts.sorted_sorted istart l) as Hs.
    destruct (Py.sorted istart l) as [|first rest].
    - split; [constructor|exact I].
    - split.
      + apply IntervalFacts.combine_loop_sorted. exact Hs.
      + apply combine_loop_unmerged. }
  destruct Hout as [Hs Hsep].
  unfold combine_intervals at 1.
  rewrite (PyFacts.sorted_id istart Hs).
  destruct (combine_intervals l gap) as [|first rest]; [reflexivity|].
  apply combine_loop_unmerged_id. exact Hsep.
Qed.

Lemma sorted_length (l : list interval) :
  length (Py.sorted istart l) = length l.
Proof.
  assert (Hins : forall x t, length (Py.insert istart x t) = S (length t)).
  { intros x t. induction t as [|y t IH]; simpl; [reflexivity|].
    destruct (Py.leb (istart x) (istart y)); simpl; [reflexivity|].
    rewrite IH. reflexivity. }
  induction l as [|x t IH]; simpl; [reflexivity|].
  rewrite Hins, IH. reflexivity.
Qed.

Lemma combine_intervals_nil (l : list interval) (gap : Q) :
  combine_intervals l gap = [] <-> l = [].
Proof.
  unfold combine_intervals.
  pose proof (sorted_length l) as Hlen.
  destruct (Py.sorted istart l) as [|first rest].
  - split; [|reflexivity]. intros _.
    destruct l; [reflexivity|discriminate].
  - destruct (combine_loop_endpoints gap rest first) as [_ [H2 _]].
    destruct H2 as [o [out [Ho _]]]. rewrite Ho.
    split; [discriminate|]. intros ->. discriminate.
Qed.

(** X2: [combine_intervals] invents no boundary: every interval it returns
    starts where an input interval starts and ends where an input
    interval ends; it returns at most as many intervals as it was given,
    and none exactly when it was given none. *)
Theorem combine_intervals_endpoints (l : list interval) (gap : Q) :
  (forall o, In o (combine_intervals l gap) ->
             (exists a, In a l /\ istart o = istart a)
             /\ (exists b, In b l /\ iend o = iend b))
  /\ (length (combine_intervals l gap) <= length l)%nat
  /\ (combine_intervals l gap = [] <-> l = []).
Proof.
  unfold combine_intervals.
  pose proof (fun x => proj1 (PyFacts.sorted_In istart x l)) as Hin.
  pose proof (sorted_length l) as Hlen.
  destruct (Py.sorted istart l) as [|first rest].
  - split; [intros o []|]. split; [simpl; lia|].
    split; [|reflexivity]. intros _.
    destruct l; [reflexivity|discriminate].
  - destruct (combine_loop_endpoints gap rest first) as [H1 [H2 H3]].
    split; [|split].
    + intros o Ho. destruct (H3 o Ho) as [[a [Ha Hsa]] He]. split.
      * exists a. split; [apply Hin, Ha|exact Hsa].
      * destruct He as [He|[b [Hb He]]].
        -- exists first. split; [apply Hin; left; reflexivity|exact He].
        -- exists b. split; [apply Hin; right; exact Hb|exact He].
    + simpl in Hlen. lia.
    + destruct H2 as [o [out [Ho _]]]. rewrite Ho.
      split; [discriminate|]. intros ->. discriminate.
Qed.

End WithFloat.

(** *** Concrete inputs

    The statements below are about given inputs and are computed with
    [Py.unrounded]. *)

Lemma combine_intervals_endpoints_witness :
  (forall o, In o (combine_intervals [Interval 0 1; Interval 1 2] 0) ->
             (exists a, In a [Interval 0 1; Interval 1 2]
                        /\ istart o = istart a)
             /\ (exists b, In b [Interval 0 1; Interval 1 2]
                           /\ iend o = iend b))
  /\ (length (combine_intervals [Interval 0 1; Interval 1 2] 0) <= 2)%nat
  /\ (combine_intervals [Interval 0 1; Interval 1 2] 0 = []
      <-> [Interval 0 1; Interval 1 2] = []).
Proof.
  apply (combine_intervals_endpoints [Interval 0 1; Interval 1 2] 0).
Defined.

End IntervalExtras.

Module IntersectionExtras.

Import Intervals.
Open Scope Q_scope.

(** *** [combine_overlapping_intervals] on two lists *)

Lemma qmax_le (a b t : Q) : qmax a b <= t <-> a <= t /\ b <= t.
Proof.
  unfold qmax. destruct (Py.ltb a b) eqn:E.
  - apply PyFacts.ltb_true in E. split; [intros; split|intros []]; lra.
  - apply PyFacts.ltb_false in E. split; [intros; split|intros []]; lra.
Qed.

Lemma qmin_ge (a b t : Q) : t <= qmin a b <-> t <= a /\ t <= b.
Proof.
  unfold qmin. destruct (Py.ltb b a) eqn:E.
  - apply PyFacts.ltb_true in E. split; [intros; split|intros []]; lra.
  - apply PyFacts.ltb_false in E. split; [intros; split|intros []]; lra.
Qed.

Lemma intersecting_In (l a : list interval) (r : interval) :
  In r (intersecting l a) <->
  exists i x,
    In i l /\ In x a
    /\ istart x <= iend i /\ istart i <= iend x
    /\ r = Interval (qmax (istart i) (istart x)) (qmin (iend i) (iend x)).
Proof.
  unfold intersecting. rewrite in_flat_map. split.
  - intros [i [Hi Hr]]. apply in_flat_map in Hr.
    destruct Hr as [x [Hx Hr]].
    destruct (Py.leb (istart x) (iend i)) eqn:E1;
      destruct (Py.leb (istart i) (iend x)) eqn:E2;
      simpl in Hr; try contradiction.
    destruct Hr as [<-|[]].
    apply PyFacts.leb_true in E1. apply PyFacts.leb_true in E2.
    exists i, x. repeat split; assumption.
  - intros [i [x [Hi [Hx [H1 [H2 ->]]]]]].
    exists i. split; [exact Hi|].
    apply in_flat_map. exists x. split; [exact Hx|].
    apply PyFacts.leb_true in H1. apply PyFacts.leb_true in H2.
    rewrite H1, H2. left. reflexivity.
Qed.

(** X3: given two lists, [combine_overlapping_intervals] returns their
    intersection, not a union: a time lies in a returned interval
    exactly when it lies in an interval of the first list and in an
    interval of the second. *)
Theorem combine_overlapping_intervals_intersects (l a : list interval) :
  exists r,
    combine_overlapping_intervals (AList l) (AList a) = Some r
    /\ forall t, covered r t <-> covered l t /\ covered a t.
Proof.
  eexists. split; [reflexivity|].
  intros t. unfold covered. split.
  - intros [r [Hr [Hs He]]].
    apply intersecting_In in Hr.
    destruct Hr as [i [x [Hi [Hx [_ [_ ->]]]]]].
    apply PyFacts.sorted_In in Hi. apply PyFacts.sorted_In in Hx.
    simpl in Hs, He.
    apply qmax_le in Hs. apply qmin_ge in He.
    split; [exists i|exists x]; unfold spans; tauto.
  - intros [[i [Hi [Hi1 Hi2]]] [x [Hx [Hx1 Hx2]]]].
    exists (Interval (qmax (istart i) (istart x))
                     (qmin (iend i) (iend x))).
    split.
    + apply intersecting_In. exists i, x.
      repeat split;
        try (apply PyFacts.sorted_In; assumption); try lra.
    + split; simpl; [apply qmax_le|apply qmin_ge]; split; assumption.
Qed.

Lemma combine_overlapping_intervals_intersects_witness :
  exists r,
    combine_overlapping_intervals (AList [Interval 0 2])
                                  (AList [Interval 1 3]) = Some r
    /\ forall t, covered r t
                 <-> covered [Interval 0 2] t /\ covered [Interval 1 3] t.
Proof.
  apply (combine_overlapping_intervals_intersects
           [Interval 0 2] [Interval 1 3]).
Defined.

End IntersectionExtras.

Module AudioExtras.

Import Intervals.
Open Scope Q_scope.

Section WithFloat.
Context {F : Py.Float}.

(** *** [split_audio_by_intervals] *)

Lemma combine_intervals_canonical (l : list interval) (g : Q) :
  0 <= g ->
  sorted_by_start (combine_intervals l g)
  /\ non_overlapping (combine_intervals l g).
Proof.
  intros Hg. unfold combine_intervals.
  pose proof (PyFacts.sorted_sorted istart l) as Hs.
  destruct (Py.sorted istart l) as [|first rest].
  - split; constructor.
  - split.
    + apply IntervalFacts.combine_loop_sorted. exact Hs.
    + apply (IntervalFacts.separated_non_overlapping (g := 0)); [lra|].
      apply IntervalFacts.combine_loop_separated; [|exact Hs].
      intros a b E. apply (@PyFacts.fsub_test_false_pos F a b g Hg) in E.
      lra.
Qed.

(** What is returned for a list of intervals that is not empty. *)
Lemma split_audio_listed (Sample : Type) (audio_array : list Sample)
      (l : list interval) (sr : positive) :
  l <> [] ->
  let r := split_audio_by_intervals audio_array (Some l) sr in
  fst r = map (cut audio_array sr) (snd r)
  /\ map (fun w => Interval (wstart w) (wend w)) (fst r) = snd r
  /\ snd r <> []
  /\ sorted_by_start (snd r)
  /\ non_overlapping (snd r).
Proof.
  intros Hl r.
  assert (Hsnd : snd r = combine_intervals l 0)
    by (apply IntervalFacts.split_audio_intervals; exact Hl).
  assert (Hfst : fst r = map (cut audio_array sr) (snd r)).
  { subst r. destruct l as [|i l]; [contradiction|].
    unfold split_audio_by_intervals. reflexivity. }
  assert (Hne : snd r <> []).
  { rewrite Hsnd. intros E.
    apply (IntervalExtras.combine_intervals_nil l 0) in E.
    contradiction. }
  destruct (combine_intervals_canonical l 0 (Qle_refl 0)) as [Hs Hn].
  rewrite <- Hsnd in Hs, Hn.
  split; [exact Hfst|].
  split; [|split; [exact Hne|split; [exact Hs|exact Hn]]].
  rewrite Hfst, map_map. simpl.
  clear. induction (snd r) as [|[a b] t IH]; simpl; [reflexivity|].
  f_equal. exact IH.
Qed.

(** X4: given at least one interval, [split_audio_by_intervals] returns one
    window per returned interval, with the same bounds and in the same
    order; the returned intervals are sorted and disjoint, there is at
    least one, and splitting again along them returns the same
    windows and intervals. *)
Theorem split_audio_by_intervals_canonical (Sample : Type)
        (audio_array : list Sample) (l : list interval) (sr : positive) :
  l <> [] ->
  let r := split_audio_by_intervals audio_array (Some l) sr in
  map (fun w => Interval (wstart w) (wend w)) (fst r) = snd r
  /\ snd r <> []
  /\ sorted_by_start (snd r)
  /\ non_overlapping (snd r)
  /\ split_audio_by_intervals audio_array (Some (snd r)) sr = r.
Proof.
  intros Hl r.
  destruct (split_audio_listed Sample audio_array l sr Hl)
    as [Hfst [Hb [Hne [Hs Hn]]]].
  fold r in Hfst, Hb, Hne, Hs, Hn.
  split; [exact Hb|split; [exact Hne|split; [exact Hs|split; [exact Hn|]]]].
  destruct (split_audio_listed Sample audio_array (snd r) sr Hne)
    as [Hagain _].
  assert (E : snd (split_audio_by_intervals audio_array (Some (snd r)) sr)
              = snd r)
    by (apply IntervalFacts.split_audio_canonical; assumption).
  rewrite E in Hagain.
  apply injective_projections; [rewrite Hagain, Hfst; reflexivity|exact E].
Qed.

End WithFloat.

(** *** Concrete inputs

    The statements below are about given inputs and are computed with
    [Py.unrounded]. *)

Lemma split_audio_by_intervals_canonical_witness :
  let r := split_audio_by_intervals
             [1%Z; 2%Z; 3%Z; 4%Z] (Some [Interval 1 2; Interval 0 1]) 2 in
  map (fun w => Interval (wstart w) (wend w)) (fst r) = snd r
  /\ snd r <> []
  /\ sorted_by_start (snd r)
  /\ non_overlapping (snd r)
  /\ split_audio_by_intervals [1%Z; 2%Z; 3%Z; 4%Z] (Some (snd r)) 2 = r.
Proof.
  apply (split_audio_by_intervals_canonical
           Z [1%Z; 2%Z; 3%Z; 4%Z] [Interval 1 2; Interval 0 1] 2).
  discriminate.
Defined.

End AudioExtras.

Module ExclusionExtras.

Import Intervals IntervalShapes.
Open Scope Q_scope.

Section WithFloat.
Context {F : Py.Float}.

(** *** [exclude_segments_by_intervals] *)

(** With a gap of [0] the merge adds no time. *)
Lemma combine_intervals_zero_covered (l : list interval) (t : Q) :
  covered (combine_intervals l 0) t -> covered l t.
Proof.
  unfold combine_intervals.
  pose proof (fun x => proj1 (PyFacts.sorted_In istart x l)) as Hin.
  destruct (Py.sorted istart l) as [|first rest].
  - intros [i [[] _]].
  - intros [o [Ho Hsp]].
    destruct (@IntervalFacts.combine_loop_explained
                F l 0 rest first
                (fun x Hx => Hin x (or_intror Hx))
                (ex_intro _ first (conj (Hin first (or_introl eq_refl))
                                        eq_refl))
                (fun u Hu => or_introl
                               (ex_intro _ first
                                  (conj (Hin first (or_introl eq_refl)) Hu)))
                o t Ho Hsp) as [H|[a [b [_ [_ [H1 [H2 H3]]]]]]].
    + exact H.
    + exfalso.
      assert (Hp : 0 < Py.fsub (istart b) (iend a))
        by (apply PyFacts.fsub_pos; lra).
      lra.
Qed.

(** The merge loses no time when no interval ends after one that starts
    at the same time or later. *)
Lemma combine_intervals_covers (l : list interval) (g t : Q) :
  ends_follow_starts l -> covered l t -> covered (combine_intervals l g) t.
Proof.
  intros Hm [i [Hi Hsp]]. unfold combine_intervals.
  pose proof (fun x => proj2 (PyFacts.sorted_In istart x l)) as Hni.
  pose proof (@IntervalFacts.sorted_ends l Hm) as He.
  destruct (Py.sorted istart l) as [|first rest].
  - destruct (Hni i Hi).
  - apply IntervalFacts.combine_loop_covers; [exact He|].
    exists i. split; [apply Hni, Hi|exact Hsp].
Qed.

Lemma exclude_intervals_within (kept excluded : list interval)
      (p : interval) :
  In p (exclude_intervals kept excluded) ->
  exists q, In q kept /\ within p q.
Proof.
  unfold exclude_intervals, exclude_from. intros Hp.
  apply in_flat_map in Hp. destruct Hp as [q [Hq Hp]].
  apply IntervalFacts.exclude_fold_sound in Hp.
  destruct Hp as [q' [[<-|[]] [Hw _]]].
  exists q. split; assumption.
Qed.

(** The intervals the exclusion works out, before the final split. *)
Lemma exclude_segments_intervals (Sample : Type) (audio_array : list Sample)
      (kept excluded : list interval) (sr : positive) :
  exclude_intervals kept excluded <> [] ->
  snd (exclude_segments_by_intervals
         audio_array (Some kept) (Some excluded) sr)
  = combine_intervals (exclude_intervals kept excluded) 0.
Proof.
  intros Hne. unfold exclude_segments_by_intervals.
  destruct excluded as [|e es].
  - simpl truthy. simpl negb.
    assert (E : exclude_intervals kept [] = kept).
    { unfold exclude_intervals, exclude_from. simpl.
      clear. induction kept as [|q k IH]; simpl; [reflexivity|].
      rewrite IH. reflexivity. }
    rewrite E in *.
    apply IntervalFacts.split_audio_intervals. exact Hne.
  - destruct kept as [|q k].
    + exfalso. apply Hne. reflexivity.
    + simpl truthy. simpl negb. cbv iota.
      apply IntervalFacts.split_audio_intervals. exact Hne.
Qed.

(** X6: exclusion adds no time: as long as something is left of the kept
    intervals, every time in a returned interval lies in one of the kept
    intervals the caller gave. *)
Theorem exclusion_adds_no_time (Sample : Type) (audio_array : list Sample)
        (kept excluded : list interval) (sr : positive) :
  exclude_intervals kept excluded <> [] ->
  forall t,
    covered (snd (exclude_segments_by_intervals
                    audio_array (Some kept) (Some excluded) sr)) t ->
    covered kept t.
Proof.
  intros Hne t Hc.
  rewrite (exclude_segments_intervals Sample audio_array kept excluded sr Hne)
    in Hc.
  apply combine_intervals_zero_covered in Hc.
  destruct Hc as [p [Hp [H1 H2]]].
  apply exclude_intervals_within in Hp.
  destruct Hp as [q [Hq [Hw1 Hw2]]].
  exists q. split; [exact Hq|]. split; lra.
Qed.

(** **** Nothing else is taken away *)

Lemma exclude_one_keeps (e p : interval) (t : Q) :
  spans p t -> outside e t -> covered (exclude_one e p) t.
Proof.
  intros [H1 H2] Ho. unfold exclude_one.
  destruct (Py.leb (iend e) (istart p) || Py.leb (iend p) (istart e)) eqn:E.
  - exists p. split; [left; reflexivity|split; assumption].
  - apply orb_false_iff in E. destruct E as [E1 E2].
    apply PyFacts.leb_false in E1. apply PyFacts.leb_false in E2.
    destruct Ho as [Ho|Ho].
    + assert (L : Py.ltb (istart p) (istart e) = true)
        by (apply PyFacts.ltb_true; lra).
      rewrite L. eexists. split; [left; reflexivity|].
      split; simpl; lra.
    + assert (L : Py.ltb (iend e) (iend p) = true)
        by (apply PyFacts.ltb_true; lra).
      rewrite L. eexists. split; [apply in_or_app; right; left; reflexivity|].
      split; simpl; lra.
Qed.

Lemma exclude_fold_keeps (es : list interval) (t : Q) :
  forall temps,
    covered temps t ->
    (forall e, In e es -> outside e t) ->
    covered (fold_left
               (fun temp_intervals excluded_interval =>
                  flat_map (exclude_one excluded_interval) temp_intervals)
               es temps) t.
Proof.
  induction es as [|e es IH]; intros temps Hc Ho; simpl; [exact Hc|].
  apply IH; [|intros e' He'; apply Ho; right; exact He'].
  destruct Hc as [p [Hp Hsp]].
  destruct (exclude_one_keeps e p t Hsp (Ho e (or_introl eq_refl)))
    as [r [Hr Hrs]].
  exists r. split; [|exact Hrs].
  apply in_flat_map. exists p. split; assumption.
Qed.

Lemma exclude_intervals_keeps (kept excluded : list interval) (t : Q) :
  covered kept t ->
  (forall e, In e excluded -> outside e t) ->
  covered (exclude_intervals kept excluded) t.
Proof.
  intros [q [Hq Hsp]] Ho. unfold exclude_intervals, exclude_from.
  destruct (exclude_fold_keeps (Py.sorted istart excluded) t [q])
    as [r [Hr Hrs]].
  - exists q. split; [left; reflexivity|exact Hsp].
  - intros e He. apply Ho. apply PyFacts.sorted_In in He. exact He.
  - exists r. split; [|exact Hrs].
    apply in_flat_map. exists q. split; assumption.
Qed.

Lemma chain_app (a b : list interval) :
  chain a -> chain b ->
  (forall x y, In x a -> In y b -> iend x <= istart y) ->
  chain (a ++ b).
Proof.
  unfold chain. induction a as [|x a IH]; intros Ha Hb Hab; simpl.
  - exact Hb.
  - inversion Ha as [|? ? Ha' Hx]; subst. constructor.
    + apply IH; [exact Ha'|exact Hb|].
      intros u v Hu Hv. apply Hab; [right; exact Hu|exact Hv].
    + apply Forall_app. split; [exact Hx|].
      apply Forall_forall. intros y Hy. apply Hab; [left; reflexivity|exact Hy].
Qed.

Lemma exclude_one_pieces (e p : interval) :
  well_formed e -> proper p ->
  Forall proper (exclude_one e p) /\ chain (exclude_one e p)
  /\ forall x, In x (exclude_one e p) -> within x p.
Proof.
  intros He Hp. unfold exclude_one, well_formed, proper, chain in *.
  destruct (Py.leb (iend e) (istart p) || Py.leb (iend p) (istart e)) eqn:E.
  - split; [repeat constructor; exact Hp|].
    split; [repeat constructor|].
    intros x [<-|[]]. split; lra.
  - apply orb_false_iff in E. destruct E as [E1 E2].
    apply PyFacts.leb_false in E1. apply PyFacts.leb_false in E2.
    destruct (Py.ltb (istart p) (istart e)) eqn:L1;
      destruct (Py.ltb (iend e) (iend p)) eqn:L2;
      try (apply PyFacts.ltb_true in L1);
      try (apply PyFacts.ltb_true in L2);
      try (apply PyFacts.ltb_false in L1);
      try (apply PyFacts.ltb_false in L2);
      simpl.
    + split; [repeat constructor; simpl; lra|].
      split; [repeat constructor; simpl; lra|].
      intros x [<-|[<-|[]]]; split; simpl; lra.
    + split; [repeat constructor; simpl; lra|].
      split; [repeat constructor|].
      intros x [<-|[]]; split; simpl; lra.
    + split; [repeat constructor; simpl; lra|].
      split; [repeat constructor|].
      intros x [<-|[]]; split; simpl; lra.
    + split; [constructor|]. split; [constructor|]. intros x [].
Qed.

Lemma exclude_step_chain (e : interval) (temps : list interval) :
  well_formed e -> Forall proper temps -> chain temps ->
  Forall proper (flat_map (exclude_one e) temps)
  /\ chain (flat_map (exclude_one e) temps)
  /\ forall x, In x (flat_map (exclude_one e) temps) ->
               exists p, In p temps /\ within x p.
Proof.
  intros He. induction temps as [|p temps IH]; intros Hpr Hch; simpl.
  - split; [constructor|]. split; [constructor|]. intros x [].
  - inversion Hpr as [|? ? Hp Hpr']; subst.
    inversion Hch as [|? ? Hch' Hpt]; subst.
    destruct (IH Hpr' Hch') as [I1 [I2 I3]].
    destruct (exclude_one_pieces e p He Hp) as [J1 [J2 J3]].
    split; [apply Forall_app; split; assumption|].
    split.
    + apply chain_app; [exact J2|exact I2|].
      intros x y Hx Hy.
      destruct (J3 x Hx) as [_ Hxe].
      destruct (I3 y Hy) as [p' [Hp' [Hys _]]].
      rewrite Forall_forall in Hpt. specialize (Hpt p' Hp'). lra.
    + intros x Hx. apply in_app_or in Hx. destruct Hx as [Hx|Hx].
      * exists p. split; [left; reflexivity|apply J3, Hx].
      * destruct (I3 x Hx) as [p' [Hp' Hw]].
        exists p'. split; [right; exact Hp'|exact Hw].
Qed.

Lemma exclude_one_whole (e q : interval) :
  well_formed e -> well_formed q ->
  pieces_of q (exclude_one e q).
Proof.
  intros He Hq. unfold pieces_of.
  destruct (Qlt_le_dec (istart q) (iend q)) as [Hp|Hd].
  - right. destruct (exclude_one_pieces e q He Hp) as [J1 [J2 _]].
    split; assumption.
  - unfold well_formed in *. unfold exclude_one.
    destruct (Py.leb (iend e) (istart q) || Py.leb (iend q) (istart e)) eqn:E.
    + left. reflexivity.
    + apply orb_false_iff in E. destruct E as [E1 E2].
      apply PyFacts.leb_false in E1. apply PyFacts.leb_false in E2.
      assert (L1 : Py.ltb (istart q) (istart e) = false)
        by (apply PyFacts.ltb_false; lra).
      assert (L2 : Py.ltb (iend e) (iend q) = false)
        by (apply PyFacts.ltb_false; lra).
      rewrite L1, L2. right. split; constructor.
Qed.

Lemma exclude_fold_pieces (q : interval) (es : list interval) :
  Forall well_formed es ->
  forall temps,
    pieces_of q temps -> well_formed q ->
    pieces_of q (fold_left
                   (fun temp_intervals excluded_interval =>
                      flat_map (exclude_one excluded_interval) temp_intervals)
                   es temps).
Proof.
  induction es as [|e es IH]; intros Hes temps Hp Hq; simpl; [exact Hp|].
  inversion Hes as [|? ? He Hes']; subst.
  apply IH; [exact Hes'| |exact Hq].
  destruct Hp as [->|[Hpr Hch]].
  - simpl. rewrite app_nil_r. apply exclude_one_whole; assumption.
  - right. destruct (exclude_step_chain e temps He Hpr Hch) as [I1 [I2 _]].
    split; assumption.
Qed.

Lemma pieces_ends_follow_starts (q : interval) (temps : list interval) :
  well_formed q -> pieces_of q temps ->
  Forall well_formed temps
  /\ forall a b, In a temps -> In b temps ->
                 istart a <= istart b -> iend a <= iend b.
Proof.
  intros Hq [->|[Hpr Hch]].
  - split; [repeat constructor; exact Hq|].
    intros a b [<-|[]] [<-|[]] _. lra.
  - split.
    + eapply Forall_impl; [|exact Hpr].
      intros a Ha. unfold proper, well_formed in *. lra.
    + unfold chain in Hch.
      induction temps as [|x temps IH]; intros a b Ha Hb Hab;
        [destruct Ha|].
      inversion Hpr as [|? ? Hx Hpr']; subst.
      inversion Hch as [|? ? Hch' Hxt]; subst.
      rewrite Forall_forall in Hxt, Hpr'.
      unfold proper in *.
      destruct Ha as [<-|Ha]; destruct Hb as [<-|Hb].
      * lra.
      * specialize (Hxt b Hb). specialize (Hpr' b Hb). simpl in *. lra.
      * specialize (Hxt a Ha). specialize (Hpr' a Ha). simpl in *. lra.
      * apply IH; try assumption.
        apply Forall_forall. exact Hpr'.
Qed.

Lemma exclude_intervals_ends_follow_starts (excluded : list interval) :
  Forall well_formed excluded ->
  forall kept,
    Forall well_formed kept -> non_overlapping kept ->
    ends_follow_starts (exclude_intervals kept excluded).
Proof.
  intros Hes.
  assert (Hses : Forall well_formed (Py.sorted istart excluded)).
  { apply Forall_forall. intros e He.
    apply PyFacts.sorted_In in He.
    rewrite Forall_forall in Hes. apply Hes, He. }
  unfold exclude_intervals, ends_follow_starts.
  induction kept as [|q kept IH]; intros Hk Hn a b Ha Hb Hab;
    [destruct Ha|].
  inversion Hk as [|? ? Hq Hk']; subst.
  inversion Hn as [|? ? Hn' Hqk]; subst.
  simpl in Ha, Hb.
  assert (Hp : pieces_of q (exclude_from (Py.sorted istart excluded) q)).
  { unfold exclude_from. apply exclude_fold_pieces; [exact Hses| |exact Hq].
    left. reflexivity. }
  destruct (pieces_ends_follow_starts q _ Hq Hp) as [Hwf Hfs].
  assert (Hin : forall x, In x (exclude_from (Py.sorted istart excluded) q) ->
                          within x q).
  { intros x Hx. unfold exclude_from in Hx.
    apply IntervalFacts.exclude_fold_sound in Hx.
    destruct Hx as [q' [[<-|[]] [Hw _]]]. exact Hw. }
  assert (Hlater : forall y,
             In y (flat_map (exclude_from (Py.sorted istart excluded)) kept) ->
             iend q < istart y /\ well_formed y).
  { intros y Hy.
    assert (Hy' := Hy).
    apply (exclude_intervals_within kept excluded) in Hy.
    destruct Hy as [q' [Hq' [Hw1 Hw2]]].
    rewrite Forall_forall in Hqk. specialize (Hqk q' Hq').
    split; [lra|].
    apply in_flat_map in Hy'. destruct Hy' as [q2 [Hq2 Hy2]].
    rewrite Forall_forall in Hk'.
    assert (Hp2 : pieces_of q2 (exclude_from (Py.sorted istart excluded) q2)).
    { unfold exclude_from.
      apply exclude_fold_pieces; [exact Hses| |apply Hk', Hq2].
      left. reflexivity. }
    destruct (pieces_ends_follow_starts q2 _ (Hk' q2 Hq2) Hp2) as [Hwf2 _].
    rewrite Forall_forall in Hwf2. apply Hwf2, Hy2. }
  rewrite Forall_forall in Hwf.
  apply in_app_or in Ha. apply in_app_or in Hb.
  destruct Ha as [Ha|Ha]; destruct Hb as [Hb|Hb].
  - apply Hfs; assumption.
  - destruct (Hin a Ha) as [_ Hae].
    destruct (Hlater b Hb) as [Hqb Hwb]. unfold well_formed in Hwb. lra.
  - exfalso.
    destruct (Hin b Hb) as [_ Hbe].
    destruct (Hlater a Ha) as [Hqa _].
    specialize (Hwf b Hb). unfold well_formed in Hwf. lra.
  - apply (IH Hk' Hn'); assumption.
Qed.

(** X7: exclusion takes away nothing else: when the kept intervals are
    disjoint, and no interval of either list ends before it starts,
    every time of a kept interval that lies strictly outside all the
    excluded intervals is still in a returned interval. *)
Theorem exclusion_keeps_the_rest (Sample : Type) (audio_array : list Sample)
        (kept excluded : list interval) (sr : positive) :
  Forall well_formed kept -> non_overlapping kept ->
  Forall well_formed excluded ->
  forall t,
    covered kept t ->
    (forall e, In e excluded -> outside e t) ->
    covered (snd (exclude_segments_by_intervals
                    audio_array (Some kept) (Some excluded) sr)) t.
Proof.
  intros Hk Hn He t Hc Ho.
  pose proof (exclude_intervals_keeps kept excluded t Hc Ho) as Hc'.
  assert (Hne : exclude_intervals kept excluded <> []).
  { destruct Hc' as [p [Hp _]]. intros E. rewrite E in Hp. destruct Hp. }
  rewrite (exclude_segments_intervals Sample audio_array kept excluded sr Hne).
  apply combine_intervals_covers; [|exact Hc'].
  apply exclude_intervals_ends_follow_starts; assumption.
Qed.

End WithFloat.

(** *** Concrete inputs

    The statements below are about given inputs and are computed with
    [Py.unrounded]. *)

Lemma exclusion_adds_no_time_witness : covered [Interval 0 2] (1 # 4).
Proof.
  apply (exclusion_adds_no_time
           Z [1%Z; 2%Z; 3%Z; 4%Z] [Interval 0 2] [Interval (1 # 2) 1] 2).
  - vm_compute. discriminate.
  - exists (Interval 0 (1 # 2)). split; [left; reflexivity|].
    split; unfold Qle; simpl; lia.
Defined.

Lemma exclusion_keeps_the_rest_witness :
  covered (snd (exclude_segments_by_intervals
                  [1%Z; 2%Z; 3%Z; 4%Z] (Some [Interval 0 2])
                  (Some [Interval (1 # 2) 1]) 2)) (3 # 2).
Proof.
  apply (exclusion_keeps_the_rest
           Z [1%Z; 2%Z; 3%Z; 4%Z] [Interval 0 2] [Interval (1 # 2) 1] 2).
  - repeat constructor. unfold well_formed, Qle. simpl. lia.
  - repeat constructor.
  - repeat constructor. unfold well_formed, Qle. simpl. lia.
  - exists (Interval 0 2). split; [left; reflexivity|].
    split; unfold Qle; simpl; lia.
  - intros e [<-|[]]. right. unfold Qlt. simpl. lia.
Defined.

End ExclusionExtras.

Module WindowExtras.

Import Intervals.
Open Scope Q_scope.

Section WithFloat.
Context {F : Py.Float}.

(** *** The samples of a window *)

(** A slice is a run of consecutive elements of the list. *)
Lemma slice_split (A : Type) (lo hi : Z) (l : list A) :
  let n := Z.of_nat (length l) in
  exists pre post,
    l = pre ++ Py.slice lo hi l ++ post
    /\ length pre = Z.to_nat (Py.slice_bound n lo)
    /\ length (Py.slice lo hi l)
       = Nat.min (Z.to_nat (Py.slice_bound n hi - Py.slice_bound n lo))
                 (length l - Z.to_nat (Py.slice_bound n lo)).
Proof.
  intros n. unfold Py.slice. fold n.
  set (a := Py.slice_bound n lo). set (b := Py.slice_bound n hi).
  assert (Ha : (Z.to_nat a <= length l)%nat).
  { subst a. unfold Py.slice_bound.
    destruct (lo <? 0)%Z eqn:E; subst n; lia. }
  exists (firstn (Z.to_nat a) l),
         (skipn (Z.to_nat (b - a)) (skipn (Z.to_nat a) l)).
  split; [|split].
  - rewrite (firstn_skipn (Z.to_nat (b - a)) (skipn (Z.to_nat a) l)).
    rewrite firstn_skipn. reflexivity.
  - rewrite length_firstn. lia.
  - rewrite length_firstn, length_skipn. reflexivity.
Qed.

(** X5: every window that [split_audio_by_intervals] cuts for a list of
    intervals holds a run of consecutive samples of the audio; when the
    two sample indices the code computes, [int(start * sr)] and
    [int(end * sr)] with the float products, are in order and within
    the audio, the run starts at the first index and stops before the
    second. *)
Theorem windows_hold_consecutive_samples (Sample : Type)
        (audio_array : list Sample) (l : list interval) (sr : positive) :
  l <> [] ->
  forall w,
    In w (fst (split_audio_by_intervals audio_array (Some l) sr)) ->
    exists pre post,
      audio_array = pre ++ wsamples w ++ post
      /\ (let lo := Py.int (Py.fmul (wstart w) (Zpos sr # 1)) in
          let hi := Py.int (Py.fmul (wend w) (Zpos sr # 1)) in
          (0 <= lo)%Z -> (lo <= hi)%Z ->
          (hi <= Z.of_nat (length audio_array))%Z ->
          Z.of_nat (length pre) = lo
          /\ Z.of_nat (length (wsamples w)) = (hi - lo)%Z).
Proof.
  intros Hl w Hw.
  destruct l as [|i0 l0]; [contradiction|].
  unfold split_audio_by_intervals in Hw. simpl fst in Hw.
  apply in_map_iff in Hw. destruct Hw as [i [<- _]].
  unfold cut. cbv zeta. simpl wsamples. simpl wstart. simpl wend.
  set (lo := Py.int (Py.fmul (istart i) (Zpos sr # 1))).
  set (hi := Py.int (Py.fmul (iend i) (Zpos sr # 1))).
  destruct (slice_split Sample lo hi audio_array)
    as [pre [post [E [Lp Ls]]]].
  exists pre, post. split; [exact E|].
  intros H0 H1 H2.
  unfold Py.slice_bound in Lp, Ls.
  destruct (lo <? 0)%Z eqn:B0; [lia|].
  destruct (hi <? 0)%Z eqn:B1; [lia|].
  lia.
Qed.

End WithFloat.

(** *** Concrete inputs

    The statements below are about given inputs and are computed with
    [Py.unrounded]. *)

Lemma windows_hold_consecutive_samples_witness :
  exists pre post,
    [1%Z; 2%Z; 3%Z; 4%Z]
    = pre ++ wsamples (Window (1 # 2) (3 # 2) [2%Z; 3%Z]) ++ post
    /\ Z.of_nat (length pre) = 1%Z
    /\ Z.of_nat (length (wsamples (Window (1 # 2) (3 # 2) [2%Z; 3%Z])))
       = 2%Z.
Proof.
  destruct (windows_hold_consecutive_samples
              Z [1%Z; 2%Z; 3%Z; 4%Z] [Interval (1 # 2) (3 # 2)] 2
              ltac:(discriminate)
              (Window (1 # 2) (3 # 2) [2%Z; 3%Z])
              ltac:(left; reflexivity))
    as [pre [post [E H]]].
  exists pre, post. split; [exact E|].
  apply H; vm_compute; discriminate.
Defined.

End WindowExtras.

Module SpeechFacts.

Import Intervals Segments Speech.
Open Scope Q_scope.

Section WithFloat.
Context {F : Py.Float}.

(** *** [get_speech_intervals] *)

Lemma combine_intervals_shape (l : list interval) (g : Q) :
  sorted_by_start (combine_intervals l g)
  /\ (Py.representable g -> separated_by g (combine_intervals l g))
  /\ (combine_intervals l g = [] <-> l = []).
Proof.
  split; [|split].
  - unfold combine_intervals.
    pose proof (PyFacts.sorted_sorted istart l) as Hs.
    destruct (Py.sorted istart l) as [|first rest]; [constructor|].
    apply IntervalFacts.combine_loop_sorted. exact Hs.
  - intros Hrep. unfold combine_intervals.
    pose proof (PyFacts.sorted_sorted istart l) as Hs.
    destruct (Py.sorted istart l) as [|first rest]; [constructor|].
    apply IntervalFacts.combine_loop_separated; [|exact Hs].
    intros a b E. exact (@PyFacts.fsub_test_false F a b g Hrep E).
  - apply IntervalExtras.combine_intervals_nil.
Qed.

(** X8: whatever the detector reports, [get_speech_intervals] returns a
    list: it is empty exactly when nothing was detected; its intervals
    are sorted and, [combine_speech_min_time] being a float, more than
    [combine_speech_min_time] apart; it ends where the last detected
    speech it merged ends; and its first interval never starts strictly
    between 0 and 1 second. *)
Theorem get_speech_intervals_spec (detected : list speech_timestamp)
        (sample_rate : positive) (combine_speech_min_time : Q) :
  exists l,
    get_speech_intervals detected sample_rate combine_speech_min_time
    = Return l
    /\ (l = [] <-> detected = [])
    /\ sorted_by_start l
    /\ (Py.representable combine_speech_min_time ->
        separated_by combine_speech_min_time l)
    /\ map iend l
       = map iend (combine_intervals (map (to_seconds sample_rate) detected)
                                     combine_speech_min_time)
    /\ forall first rest,
        l = first :: rest -> ~ (0 < istart first /\ istart first < 1).
Proof.
  unfold get_speech_intervals.
  destruct detected as [|d ds].
  - exists []. simpl. repeat split; try constructor; try discriminate.
  - set (ts := map (to_seconds sample_rate) (d :: ds)).
    assert (Hts : exists x xs, ts = x :: xs)
      by (eexists; eexists; reflexivity).
    destruct Hts as [x [xs Hts]]. rewrite Hts. rewrite <- Hts.
    destruct (combine_intervals_shape ts combine_speech_min_time)
      as [Hs [Hsep Hnil]].
    destruct (combine_intervals ts combine_speech_min_time)
      as [|first rest] eqn:E.
    + exfalso. rewrite Hts in Hnil.
      destruct Hnil as [Hnil _]. specialize (Hnil eq_refl). discriminate.
    + destruct (Py.ltb 0 (istart first) && Py.ltb (istart first) 1) eqn:B.
      * exists (set_start first 0 :: rest).
        split; [reflexivity|].
        split; [split; discriminate|].
        apply andb_true_iff in B. destruct B as [B1 B2].
        apply PyFacts.ltb_true in B1. apply PyFacts.ltb_true in B2.
        inversion Hs as [|? ? Hs' Hf]; subst.
        split; [|split; [|split]].
        -- constructor; [exact Hs'|].
           eapply Forall_impl; [|exact Hf]. simpl. intros a Ha. lra.
        -- intros Hrep. specialize (Hsep Hrep).
           inversion Hsep as [|? ? Hsep' Hg]; subst.
           constructor; [exact Hsep'|exact Hg].
        -- reflexivity.
        -- intros f r Hfr. inversion Hfr; subst. simpl. lra.
      * exists (first :: rest).
        split; [reflexivity|].
        split; [split; discriminate|].
        split; [exact Hs|]. split; [exact Hsep|]. split; [reflexivity|].
        intros f r Hfr. inversion Hfr; subst.
        apply andb_false_iff in B. destruct B as [B|B];
          apply PyFacts.ltb_false in B; lra.
Qed.

Lemma get_speech_intervals_returns (detected : list speech_timestamp)
      (sample_rate : positive) (combine_speech_min_time : Q) :
  exists l,
    get_speech_intervals detected sample_rate combine_speech_min_time
    = Return l
    /\ (l = [] <-> detected = []).
Proof.
  unfold get_speech_intervals.
  destruct detected as [|d ds].
  - exists []. split; [reflexivity|split; reflexivity].
  - set (ts := map (to_seconds sample_rate) (d :: ds)).
    assert (Hts : exists x xs, ts = x :: xs)
      by (eexists; eexists; reflexivity).
    destruct Hts as [x [xs Hts]]. rewrite Hts. rewrite <- Hts.
    pose proof (IntervalExtras.combine_intervals_nil
                  ts combine_speech_min_time) as Hnil.
    destruct (combine_intervals ts combine_speech_min_time)
      as [|first rest].
    + exfalso. rewrite Hts in Hnil.
      destruct Hnil as [Hnil _]. specialize (Hnil eq_refl). discriminate.
    + destruct (Py.ltb 0 (istart first) && Py.ltb (istart first) 1);
        eexists; (split; [reflexivity|split; discriminate]).
Qed.

(** *** [_split_audio_into_segments] *)

(** What [split_audio_by_intervals] returns in every case. *)
Lemma split_audio_shape (Sample : Type) (audio_array : list Sample)
      (time_intervals_ : option (list interval)) (sr : positive) :
  let r := split_audio_by_intervals audio_array time_intervals_ sr in
  fst r <> [] /\ aligned (fst r) (snd r)
  /\ sorted_by_start (snd r) /\ non_overlapping (snd r).
Proof.
  destruct time_intervals_ as [[|i l]|].
  - simpl. repeat split; try discriminate; repeat constructor.
  - assert (Hne : i :: l <> []) by discriminate.
    destruct (AudioExtras.split_audio_listed
                Sample audio_array (i :: l) sr Hne)
      as [_ [H1 [H2 [H3 H4]]]].
    intros r. fold r in H1, H2, H3, H4.
    assert (Ha : aligned (fst r) (snd r)).
    { unfold aligned. rewrite <- H1, map_map. reflexivity. }
    split; [|split; [exact Ha|split; assumption]].
    intros E. unfold aligned in Ha. rewrite E in Ha.
    destruct (snd r); [apply H2; reflexivity|discriminate].
  - simpl. repeat split; try discriminate; repeat constructor.
Qed.

Lemma exclude_segments_is_a_split (Sample : Type)
      (audio_array : list Sample)
      (time_intervals_ excluded : option (list interval)) (sr : positive) :
  exists l,
    exclude_segments_by_intervals audio_array time_intervals_ excluded sr
    = split_audio_by_intervals audio_array l sr.
Proof.
  unfold exclude_segments_by_intervals.
  destruct (negb (Intervals.truthy excluded
                  && Intervals.truthy time_intervals_)).
  - eexists. reflexivity.
  - destruct time_intervals_ as [t|]; [|eexists; reflexivity].
    destruct excluded as [e|]; eexists; reflexivity.
Qed.

(** X9: whenever [_split_audio_into_segments] returns windows, there is at
    least one, each window starts where the interval of the same rank
    starts, and the intervals are sorted and disjoint: whatever was
    detected, requested or excluded, and also when everything was
    excluded. *)
Theorem split_audio_into_segments_shape (Sample : Type)
        (audio_array : list Sample) (canceled : nat -> bool)
        (detected : list speech_timestamp) (has_queue_id : bool)
        (kwargs : request) (audio_segments : list (window Sample))
        (intervals : list interval) :
  snd (_split_audio_into_segments audio_array canceled detected
                                  has_queue_id kwargs)
  = Return (Some (audio_segments, intervals)) ->
  audio_segments <> [] /\ aligned audio_segments intervals
  /\ sorted_by_start intervals /\ non_overlapping intervals.
Proof.
  unfold _split_audio_into_segments.
  destruct (canceled 0%nat); [discriminate|].
  assert (Hfin : forall u t,
             snd (split_selected audio_array canceled kwargs u t)
             = Return (Some (audio_segments, intervals)) ->
             audio_segments <> [] /\ aligned audio_segments intervals
             /\ sorted_by_start intervals /\ non_overlapping intervals).
  { intros u t. unfold split_selected.
    match goal with
    | |- context [split_audio_by_intervals audio_array ?x sr] =>
        pose proof (split_audio_shape Sample audio_array x sr) as Hshape;
        destruct (split_audio_by_intervals audio_array x sr)
          as [segs ivs] eqn:Es
    end.
    destruct (canceled 1%nat); [discriminate|].
    destruct (requested (excluded_time_intervals kwargs)) as [excluded|].
    - destruct (exclude_segments_is_a_split Sample
                  audio_array (Some ivs) (Some excluded) sr) as [l El].
      rewrite El.
      pose proof (split_audio_shape Sample audio_array l sr) as Hshape2.
      destruct (split_audio_by_intervals audio_array l sr)
        as [segs2 ivs2].
      destruct (canceled 2%nat); [discriminate|].
      simpl. intros H. inversion H; subst. exact Hshape2.
    - destruct (canceled 2%nat); [discriminate|].
      simpl. intros H. inversion H; subst. exact Hshape. }
  destruct (pre_detect_speech kwargs); [|apply Hfin].
  destruct (get_speech_intervals detected 16000 3) as [[|s ss]|e|];
    try discriminate.
  apply Hfin.
Qed.

Lemma intersecting_apart (l a : list interval) :
  (forall i s, In i l -> In s a -> apart i s) ->
  intersecting l a = [].
Proof.
  intros H.
  destruct (intersecting l a) as [|r rs] eqn:E; [reflexivity|].
  exfalso.
  assert (Hr : In r (intersecting l a)) by (rewrite E; left; reflexivity).
  apply IntersectionExtras.intersecting_In in Hr.
  destruct Hr as [i [x [Hi [Hx [H1 [H2 _]]]]]].
  destruct (H i x Hi Hx) as [A|A]; lra.
Qed.

(** X10: when speech is pre-detected and the request asks for intervals none
    of which touches the detected speech, the intersection is empty and
    the whole audio becomes the one window to transcribe. *)
Theorem request_outside_speech_selects_whole_audio (Sample : Type)
        (audio_array : list Sample) (canceled : nat -> bool)
        (detected : list speech_timestamp) (has_queue_id : bool)
        (from_request speech : list interval) :
  (forall k, canceled k = false) ->
  from_request <> [] -> speech <> [] ->
  get_speech_intervals detected 16000 3 = Return speech ->
  (forall i s, In i from_request -> In s speech -> apart i s) ->
  _split_audio_into_segments
    audio_array canceled detected has_queue_id
    (Request true (AList from_request) ANone)
  = ([PreDetectingSpeech],
     Return (Some ([Window 0 (Z.of_nat (length audio_array) # 1)
                           audio_array],
                   [Interval 0 (duration audio_array sr)]))).
Proof.
  intros Hc Hr Hs Hd Hap.
  unfold _split_audio_into_segments, split_selected.
  rewrite !Hc. simpl pre_detect_speech. cbv iota.
  rewrite Hd.
  destruct speech as [|s ss]; [contradiction|].
  destruct from_request as [|i l]; [contradiction|].
  simpl requested. cbv iota.
  assert (E : combine_overlapping_intervals (AList (i :: l))
                                            (AList (s :: ss))
              = Some []).
  { unfold combine_overlapping_intervals. simpl is_none_or_bool.
    simpl is_none. simpl is_bool. simpl orb. cbv iota. simpl andb.
    cbv iota. f_equal. apply intersecting_apart.
    intros a b Ha Hb.
    apply PyFacts.sorted_In in Ha. apply PyFacts.sorted_In in Hb.
    apply Hap; assumption. }
  rewrite E. reflexivity.
Qed.

(** With speech detection switched on and nothing detected, nothing is
    returned, whatever the request holds; the queue item is marked as
    failed only when there is a queue id.  A cancellation noticed at
    one of the three checkpoints returns nothing either, and never
    marks the item as failed. *)
Theorem no_speech_or_cancel_returns_nothing (Sample : Type)
        (audio_array : list Sample) (canceled : nat -> bool)
        (detected : list speech_timestamp) (has_queue_id : bool)
        (kwargs : request) :
  let out := _split_audio_into_segments audio_array canceled detected
                                        has_queue_id kwargs in
  (canceled 0%nat = false -> pre_detect_speech kwargs = true ->
   detected = [] ->
   out = ([PreDetectingSpeech]
            ++ (if has_queue_id then [FailedNoSpeechDetected] else []),
          Return None))
  /\ ((canceled 0%nat = true \/ canceled 1%nat = true
       \/ canceled 2%nat = true) ->
      (detected <> [] \/ pre_detect_speech kwargs = false) ->
      snd out = Return None /\ ~ In FailedNoSpeechDetected (fst out)).
Proof.
  intros out. subst out. split.
  - intros Hc Hp ->. unfold _split_audio_into_segments.
    rewrite Hc, Hp. reflexivity.
  - intros Hc Hd. unfold _split_audio_into_segments.
    destruct (canceled 0%nat) eqn:C0.
    { simpl. split; [reflexivity|intros []]. }
    assert (Hfin : forall u t,
               ~ In FailedNoSpeechDetected u ->
               snd (split_selected audio_array canceled kwargs u t)
               = Return None
               /\ ~ In FailedNoSpeechDetected
                      (fst (split_selected audio_array canceled kwargs
                                           u t))).
    { intros u t Hu. unfold split_selected.
      match goal with
      | |- context [split_audio_by_intervals audio_array ?x sr] =>
          destruct (split_audio_by_intervals audio_array x sr)
            as [segs ivs]
      end.
      destruct (canceled 1%nat) eqn:C1.
      { simpl. split; [reflexivity|exact Hu]. }
      destruct (match requested (excluded_time_intervals kwargs) with
                | Some excluded =>
                    exclude_segments_by_intervals
                      audio_array (Some ivs) (Some excluded) sr
                | None => (segs, ivs)
                end) as [segs2 ivs2].
      destruct (canceled 2%nat) eqn:C2.
      { simpl. split; [reflexivity|exact Hu]. }
      exfalso. destruct Hc as [Hc|[Hc|Hc]]; discriminate. }
    destruct (pre_detect_speech kwargs) eqn:P.
    + destruct Hd as [Hd|Hd]; [|discriminate].
      destruct (get_speech_intervals_returns detected 16000 3)
        as [l [El Hnil]].
      rewrite El.
      destruct l as [|s ss].
      * exfalso. apply Hd, Hnil. reflexivity.
      * apply Hfin. intros [H|[]]. discriminate.
    + apply Hfin. intros [].
Qed.

End WithFloat.

(** *** Concrete inputs

    The statements below are about given inputs and are computed with
    [Py.unrounded]. *)

Lemma get_speech_intervals_spec_witness :
  exists l,
    get_speech_intervals [SpeechTimestamp 8000 32000] 16000 3 = Return l
    /\ (l = [] <-> [SpeechTimestamp 8000 32000] = [])
    /\ sorted_by_start l
    /\ separated_by 3 l
    /\ map iend l
       = map iend (combine_intervals
                     (map (to_seconds 16000) [SpeechTimestamp 8000 32000])
                     3)
    /\ forall first rest,
        l = first :: rest -> ~ (0 < istart first /\ istart first < 1).
Proof.
  destruct (get_speech_intervals_spec [SpeechTimestamp 8000 32000] 16000 3)
    as [l [H1 [H2 [H3 [H4 [H5 H6]]]]]].
  exists l. repeat split; try assumption; try apply H2.
  apply H4. exact I.
Defined.

Lemma split_audio_into_segments_shape_witness :
  [Window 0 (4 # 1) [1%Z; 2%Z; 3%Z; 4%Z]] <> []
  /\ aligned [Window 0 (4 # 1) [1%Z; 2%Z; 3%Z; 4%Z]]
             [Interval 0 (4 # 16000)]
  /\ sorted_by_start [Interval 0 (4 # 16000)]
  /\ non_overlapping [Interval 0 (4 # 16000)].
Proof.
  apply (split_audio_into_segments_shape
           Z [1%Z; 2%Z; 3%Z; 4%Z] (fun _ => false) [] true
           (Request false ANone ANone)).
  reflexivity.
Defined.

Lemma request_outside_speech_selects_whole_audio_witness :
  _split_audio_into_segments
    [1%Z; 2%Z; 3%Z; 4%Z] (fun _ => false)
    [SpeechTimestamp 32000 48000] true
    (Request true (AList [Interval 10 11]) ANone)
  = ([PreDetectingSpeech],
     Return (Some ([Window 0 (4 # 1) [1%Z; 2%Z; 3%Z; 4%Z]],
                   [Interval 0 (duration [1%Z; 2%Z; 3%Z; 4%Z] sr)]))).
Proof.
  apply (request_outside_speech_selects_whole_audio
           Z [1%Z; 2%Z; 3%Z; 4%Z] (fun _ => false)
           [SpeechTimestamp 32000 48000] true
           [Interval 10 11] [Interval (32000 # 16000) (48000 # 16000)]).
  - reflexivity.
  - discriminate.
  - discriminate.
  - reflexivity.
  - intros i s [<-|[]] [<-|[]]. right. unfold Qlt. simpl. lia.
Defined.

Lemma no_speech_or_cancel_returns_nothing_witness :
  _split_audio_into_segments
    [1%Z; 2%Z; 3%Z; 4%Z] (fun _ => false) [] false
    (Request true ANone ANone)
  = ([PreDetectingSpeech], Return None).
Proof.
  apply (no_speech_or_cancel_returns_nothing
           Z [1%Z; 2%Z; 3%Z; 4%Z] (fun _ => false) [] false
           (Request true ANone ANone)); reflexivity.
Defined.

End SpeechFacts.

Module SplitterExtras.

Import Text Segments Splitter SplitterShapes.
Open Scope Q_scope.

(** *** The parts a split returns *)

Lemma new_segment_part_of (s : segment) (text : str) (words : list word) :
  text <> [] -> part_of s (new_segment s text words).
Proof.
  intros Ht. unfold part_of, new_segment. simpl.
  split; [reflexivity|]. split.
  - destruct text as [|c t]; [contradiction|].
    unfold with_leading_space.
    destruct (N.eqb c space) eqn:E.
    + apply N.eqb_eq in E. subst c. exists t. reflexivity.
    + exists (c :: t). reflexivity.
  - exists words. repeat split.
Qed.

Lemma first_part_words_prefix (room : nat) (ws : list word) :
  forall c, exists rest, ws = first_part_words room c ws ++ rest.
Proof.
  induction ws as [|w ws IH]; intros c; simpl.
  - exists []. reflexivity.
  - destruct (room <? c + length (w_word w))%nat.
    + exists (w :: ws). reflexivity.
    + destruct (IH (c + length (w_word w))%nat) as [rest E].
      exists rest. simpl. f_equal. exact E.
Qed.

Lemma remove_words_prefix (kept : list word) :
  forall rest, remove_words kept (kept ++ rest) = rest.
Proof.
  unfold remove_words.
  induction kept as [|w kept IH]; intros rest; simpl; [reflexivity|].
  rewrite PostProcessFacts.word_eqb_refl. apply IH.
Qed.

(** One pass: the words kept and the words left make up the words there
    were, and a part is appended exactly when the first part has a
    text. *)
Lemma emit_first_part_words (s : segment) (first : str)
      (words : list word) (res : list segment) :
  exists kept left,
    words = kept ++ left
    /\ emit_first_part s first words res
       = (left, match first with
                | [] => res
                | _ => res ++ [new_segment s first kept]
                end).
Proof.
  unfold emit_first_part.
  destruct (first_part_words_prefix (S (length first)) words 0)
    as [left E].
  set (kept := first_part_words (S (length first)) 0 words) in *.
  assert (R : remove_words kept words = left)
    by (rewrite E; apply remove_words_prefix).
  exists kept, left. split; [exact E|].
  cbv zeta. rewrite R. destruct first; reflexivity.
Qed.

Lemma emit_first_part_parts (s : segment) (first : str)
      (words : list word) (res : list segment) :
  Forall (part_of s) res ->
  Forall (part_of s) (snd (emit_first_part s first words res)).
Proof.
  intros Hres.
  destruct (emit_first_part_words s first words res)
    as [kept [left [_ E]]].
  rewrite E. simpl. destruct first as [|c t]; [exact Hres|].
  apply Forall_app. split; [exact Hres|].
  constructor; [|constructor].
  apply new_segment_part_of. discriminate.
Qed.

Lemma emit_rest_parts (s : segment) (text : str) (words : list word)
      (res : list segment) :
  Forall (part_of s) res ->
  Forall (part_of s) (emit_rest s text words res).
Proof.
  intros Hres. unfold emit_rest. destruct text as [|c t]; [exact Hres|].
  apply Forall_app. split; [exact Hres|].
  constructor; [|constructor].
  apply new_segment_part_of. discriminate.
Qed.

Lemma punctuation_loop_parts (s : segment) (marks : list char)
      (fuel : nat) :
  forall text words res out,
    Forall (part_of s) res ->
    punctuation_loop fuel s marks text words res = Return out ->
    Forall (part_of s) out.
Proof.
  induction fuel as [|fuel IH]; intros text words res out Hres H.
  - simpl in H. destruct (has_mark marks text); [discriminate|].
    inversion H; subst. apply emit_rest_parts. exact Hres.
  - rewrite SplitterFacts.punctuation_loop_step in H.
    destruct (has_mark marks text).
    + cbv zeta in H.
      match type of H with
      | context [emit_first_part s ?f words res] =>
          pose proof (emit_first_part_parts s f words res Hres) as Hp;
          destruct (emit_first_part s f words res) as [words' res']
      end.
      simpl in Hp. eapply IH; [exact Hp|exact H].
    + inversion H; subst. apply emit_rest_parts. exact Hres.
Qed.

Lemma word_limits_loop_parts (s : segment) (wl cl : option nat)
      (count : nat) (fuel : nat) :
  forall text words res out,
    Forall (part_of s) res ->
    word_limits_loop fuel s wl cl count text words res = Return out ->
    Forall (part_of s) out.
Proof.
  induction fuel as [|fuel IH]; intros text words res out Hres H.
  - simpl in H.
    destruct ((truthy cl && (limit_value cl <? length text)%nat)
              || (truthy wl && (limit_value wl <? count)%nat));
      [discriminate|].
    inversion H; subst. apply emit_rest_parts. exact Hres.
  - rewrite SplitterFacts.word_limits_loop_step in H.
    destruct ((truthy cl && (limit_value cl <? length text)%nat)
              || (truthy wl && (limit_value wl <? count)%nat)).
    + destruct (limit_cut wl cl text) as [[i|]|e|]; try discriminate.
      * match type of H with
        | context [emit_first_part s ?f words res] =>
            pose proof (emit_first_part_parts s f words res Hres) as Hp;
            destruct (emit_first_part s f words res) as [words' res']
        end.
        simpl in Hp. eapply IH; [exact Hp|exact H].
      * inversion H; subst. apply emit_rest_parts. exact Hres.
    + inversion H; subst. apply emit_rest_parts. exact Hres.
Qed.

(** X11: whichever way a segment is split, every part it is split into has
    no id, has a text that starts with a space, carries a list of
    words, and starts and ends with its first and last word; a part
    without words gets the start and the end of the whole segment. *)
Theorem split_parts_shape (s : segment) (marks : list char)
        (wl cl : option nat) (parts : list segment) :
  split_segment_on_punctuation_marks (Dict s) marks = Return (Parts parts)
  \/ split_segment_by_word_limits (Dict s) wl cl = Return (Parts parts) ->
  Forall (part_of s) parts.
Proof.
  intros [H|H].
  - unfold split_segment_on_punctuation_marks in H.
    destruct (seg_words s) as [[|w ws]|]; try discriminate.
    destruct (seg_text s) as [[| |text]|]; try discriminate.
    destruct (punctuation_loop (S (length (replace_dots text))) s marks
                               (replace_dots text) (w :: ws) [])
      as [out|e|] eqn:E; try discriminate.
    simpl in H. inversion H; subst.
    eapply punctuation_loop_parts; [constructor|exact E].
  - unfold split_segment_by_word_limits in H.
    destruct (negb (truthy wl) && negb (truthy cl)); [discriminate|].
    destruct (seg_words s) as [[|w ws]|]; try discriminate.
    destruct (seg_text s) as [[|z|text]|]; try discriminate.
    + unfold word_limits_on_non_string in H.
      destruct (truthy cl); [discriminate|].
      destruct (limit_value wl <? length (w :: ws))%nat; [discriminate|].
      inversion H; subst. constructor.
    + unfold word_limits_on_non_string in H.
      destruct (truthy cl); [discriminate|].
      destruct (limit_value wl <? length (w :: ws))%nat; [discriminate|].
      destruct (Z.eqb z 0); [|discriminate].
      inversion H; subst. constructor.
    + destruct (word_limits_loop (S (length text)) s wl cl
                                 (length (w :: ws)) text (w :: ws) [])
        as [out|e|] eqn:E; try discriminate.
      simpl in H. inversion H; subst.
      eapply word_limits_loop_parts; [constructor|exact E].
Qed.

Lemma split_parts_shape_witness :
  Forall (part_of Samples.hello_world)
         [new_segment Samples.hello_world (of_string "Hello world."%string)
                      [Word (of_string "Hello"%string) 0 1;
                       Word (of_string " world."%string) 1 2];
          new_segment Samples.hello_world (of_string " How are you?"%string)
                      [Word (of_string " How"%string) 2 3;
                       Word (of_string " are"%string) 3 4;
                       Word (of_string " you?"%string) 4 5]].
Proof.
  apply (split_parts_shape Samples.hello_world default_punctuation_marks
                           None None).
  left. reflexivity.
Defined.

(** *** Where the word timings go *)

Lemma concat_part_words_snoc (res : list segment) (p : segment) :
  concat (map part_words (res ++ [p]))
  = concat (map part_words res) ++ part_words p.
Proof.
  rewrite map_app, concat_app. simpl. rewrite app_nil_r. reflexivity.
Qed.

Lemma punctuation_loop_words (s : segment) (marks : list char)
      (fuel : nat) :
  forall text words res out,
    punctuation_loop fuel s marks text words res = Return out ->
    exists dropped,
      concat (map part_words res) ++ words
      = concat (map part_words out) ++ dropped.
Proof.
  induction fuel as [|fuel IH]; intros text words res out H.
  - simpl in H. destruct (has_mark marks text) eqn:M; [discriminate|].
    inversion H; subst. unfold emit_rest.
    destruct text as [|c t].
    + exists words. reflexivity.
    + exists []. rewrite concat_part_words_snoc, app_nil_r. reflexivity.
  - rewrite SplitterFacts.punctuation_loop_step in H.
    destruct (has_mark marks text) eqn:M.
    + cbv zeta in H.
      pose proof (SplitterFacts.has_mark_non_empty marks text M) as Hne.
      match type of H with
      | context [emit_first_part s ?f words res] =>
          destruct (emit_first_part_words s f words res)
            as [kept [left [Ew Ee]]];
          assert (Hf : f <> [])
      end.
      { destruct text as [|c t]; [contradiction|]. discriminate. }
      rewrite Ee in H.
      match type of H with
      | context [firstn ?k text] =>
          destruct (firstn k text) as [|c0 t0] eqn:F
      end; [contradiction|].
      apply IH in H. destruct H as [dropped Hd].
      exists dropped. rewrite <- Hd.
      rewrite concat_part_words_snoc. simpl.
      rewrite Ew, app_assoc. reflexivity.
    + inversion H; subst. unfold emit_rest.
      destruct text as [|c t].
      * exists words. reflexivity.
      * exists []. rewrite concat_part_words_snoc, app_nil_r. reflexivity.
Qed.

(** X12: splitting on punctuation marks hands the word timings out in
    order: the words of the parts, read part after part, are the first
    words of the segment; none is repeated or moved, and the only words
    that may be missing are the last ones. *)
Theorem punctuation_split_words_in_order (s : segment)
        (marks : list char) (words : list word) (parts : list segment) :
  seg_words s = Some words ->
  split_segment_on_punctuation_marks (Dict s) marks = Return (Parts parts) ->
  exists dropped, words = concat (map part_words parts) ++ dropped.
Proof.
  intros Hw H. unfold split_segment_on_punctuation_marks in H.
  rewrite Hw in H.
  destruct words as [|w ws]; [discriminate|].
  destruct (seg_text s) as [[| |text]|]; try discriminate.
  destruct (punctuation_loop (S (length (replace_dots text))) s marks
                             (replace_dots text) (w :: ws) [])
    as [out|e|] eqn:E; try discriminate.
  simpl in H. inversion H; subst.
  apply punctuation_loop_words in E. exact E.
Qed.

Lemma punctuation_split_words_in_order_witness :
  exists dropped,
    [Word (of_string "Hello"%string) 0 1;
     Word (of_string " world."%string) 1 2;
     Word (of_string " How"%string) 2 3;
     Word (of_string " are"%string) 3 4;
     Word (of_string " you?"%string) 4 5]
    = concat
        (map part_words
           [new_segment Samples.hello_world
                        (of_string "Hello world."%string)
                        [Word (of_string "Hello"%string) 0 1;
                         Word (of_string " world."%string) 1 2];
            new_segment Samples.hello_world
                        (of_string " How are you?"%string)
                        [Word (of_string " How"%string) 2 3;
                         Word (of_string " are"%string) 3 4;
                         Word (of_string " you?"%string) 4 5]])
      ++ dropped.
Proof.
  apply (punctuation_split_words_in_order
           Samples.hello_world default_punctuation_marks).
  - reflexivity.
  - reflexivity.
Defined.

End SplitterExtras.

Module PostProcessExtras.

Import Text Segments Splitter PostProcess.
Open Scope Q_scope.

Section WithFloat.
Context {F : Py.Float}.

(** *** What [post_process_whisper_result] returns *)

Lemma kept_segments_valid (n : nat) :
  forall l,
    (length l <= n)%nat ->
    Forall (fun s => valid_text s = true) (kept_segments l).
Proof.
  induction n as [|n IH]; intros l Hl.
  - destruct l; [constructor|simpl in Hl; lia].
  - destruct l as [|x rest]; [constructor|].
    simpl in Hl. simpl.
    destruct x as [a|s].
    + destruct rest as [|y rest']; [constructor|].
      apply IH. simpl in Hl. lia.
    + destruct (valid_text s) eqn:V.
      * constructor; [exact V|]. apply IH. lia.
      * destruct rest as [|y rest']; [constructor|].
        apply IH. simpl in Hl. lia.
Qed.

Lemma fill_gaps_Forall (thr : option Q) (P : segment -> Prop)
      (l : list segment) :
  (forall s e, P s -> P (set_seg_end s e)) ->
  Forall P l -> Forall P (fill_gaps thr l).
Proof.
  intros HP. induction l as [|a rest IH]; intros H; [constructor|].
  inversion H as [|? ? Ha Hrest]; subst.
  simpl. destruct rest as [|b rest'].
  - constructor; [exact Ha|constructor].
  - constructor; [|apply IH; exact Hrest].
    destruct (PostProcessFacts.close_gap_shape thr a b) as [e ->].
    apply HP. exact Ha.
Qed.

Lemma strip_words_text (o : options) (s : segment) :
  seg_text (strip_words o s) = seg_text s.
Proof.
  unfold strip_words. destruct (remove_words_option o); reflexivity.
Qed.

(** X13: whatever list of segments the backend hands over, every entry that
    [post_process_whisper_result] returns is a segment with a
    non-empty text; the language and the status pass through; and when
    word timestamps are to be removed, no returned segment has any. *)
Theorem post_process_returns_valid_segments (o : options)
        (segments : list entry) (language : option str)
        (status_ : option status) (r : whisper_result) :
  post_process_whisper_result (ResultDict (Some segments) language status_) o
  = Return r ->
  exists out,
    r = ResultDict (Some (map Dict out)) language status_
    /\ Forall (fun s => valid_text s = true) out
    /\ (remove_words_option o = true ->
        Forall (fun s => seg_words s = None) out).
Proof.
  intros H.
  destruct (split_segments segments o) as [es|e|] eqn:E.
  - destruct (PostProcessFacts.post_process_spec
                o segments es language status_ E) as [_ Hp].
    rewrite Hp in H. inversion H; subst.
    eexists. split; [reflexivity|]. split.
    + apply fill_gaps_Forall; [intros s e Hs; exact Hs|].
      apply Forall_map.
      eapply Forall_impl;
        [|apply (kept_segments_valid (length es)); lia].
      intros s Hs. unfold valid_text in *.
      rewrite strip_words_text. exact Hs.
    + intros Hr.
      apply fill_gaps_Forall; [intros s e Hs; exact Hs|].
      apply Forall_map. apply Forall_forall. intros s _.
      unfold strip_words. rewrite Hr. reflexivity.
  - simpl in H. rewrite E in H. discriminate.
  - simpl in H. rewrite E in H. discriminate.
Qed.

(** *** Order *)

Lemma kept_refs_increasing (n : nat) :
  forall l k,
    (length l <= n)%nat ->
    StronglySorted lt (kept_refs k l).
Proof.
  induction n as [|n IH]; intros l k Hl.
  - destruct l; [constructor|simpl in Hl; lia].
  - destruct l as [|x rest]; [constructor|].
    simpl in Hl. simpl.
    destruct (valid_entry x).
    + constructor; [apply IH; lia|].
      apply Forall_forall. intros r Hr.
      apply (PostProcessFacts.kept_refs_bounds rest (length rest)) in Hr;
        lia.
    + destruct rest as [|y rest']; [constructor|].
      apply IH. simpl in Hl. lia.
Qed.

(** X14: the segments [post_process_whisper_result] returns are entries of
    the list the splitter produced, at strictly increasing positions:
    the order is kept and nothing is returned twice.  Each one is the
    segment at its position, with its end possibly moved and its words
    possibly removed. *)
Theorem post_process_keeps_order (o : options) (segments es : list entry)
        (language : option str) (status_ : option status) :
  split_segments segments o = Return es ->
  exists refs out,
    post_process_refs (ResultDict (Some segments) language status_) o
    = Return refs
    /\ post_process_whisper_result
         (ResultDict (Some segments) language status_) o
       = Return (ResultDict (Some out) language status_)
    /\ StronglySorted lt refs
    /\ Forall (fun r => (r < length es)%nat) refs
    /\ Forall2 (fun r e' => exists s e,
                    lookup es r = Dict s
                    /\ e' = Dict (set_seg_end (strip_words o s) e))
               refs out.
Proof.
  intros E.
  destruct (PostProcessFacts.post_process_spec
              o segments es language status_ E) as [Hr Hp].
  eexists. eexists. split; [exact Hr|]. split; [exact Hp|].
  split; [apply (kept_refs_increasing (length es)); lia|].
  split.
  - apply Forall_forall. intros r Hin.
    apply (PostProcessFacts.kept_refs_bounds es (length es)) in Hin; lia.
  - apply PostProcessFacts.returned_segments_at_refs.
Qed.

(** *** A list without invalid entries *)

Lemma kept_segments_all_valid (l : list entry) :
  Forall (fun e => valid_entry e = true) l ->
  map Dict (kept_segments l) = l.
Proof.
  induction l as [|x rest IH]; intros H; [reflexivity|].
  inversion H as [|? ? Hx Hrest]; subst.
  destruct x as [a|s]; [discriminate|].
  simpl in Hx. simpl. rewrite Hx. simpl. f_equal. apply IH. exact Hrest.
Qed.

Lemma fill_gaps_none (l : list segment) : fill_gaps None l = l.
Proof.
  induction l as [|a rest IH]; [reflexivity|].
  simpl. destruct rest as [|b rest']; [reflexivity|].
  simpl close_gap. f_equal. exact IH.
Qed.

Lemma map_strip_words_off (o : options) (l : list segment) :
  remove_words_option o = false -> map (strip_words o) l = l.
Proof.
  intros H. induction l as [|a rest IH]; [reflexivity|].
  simpl. unfold strip_words at 1. rewrite H, IH. reflexivity.
Qed.

(** X15: with every option off, a result whose entries are all segments
    with a non-empty text comes back as it was: nothing is dropped,
    moved or changed. *)
Theorem post_process_without_options_is_identity (o : options)
        (segments : list entry) (language : option str)
        (status_ : option status) :
  split_on_punctuation_marks o = false ->
  max_words_per_segment o = None ->
  max_chars_per_segment o = None ->
  prevent_short_gaps o = None ->
  remove_words_option o = false ->
  Forall (fun e => valid_entry e = true) segments ->
  post_process_whisper_result (ResultDict (Some segments) language status_) o
  = Return (ResultDict (Some segments) language status_).
Proof.
  intros Hp Hw Hc Hg Hr Hv.
  assert (E : split_segments segments o = Return segments).
  { apply PostProcessFacts.split_segments_off; try assumption.
    intros a rest ->. inversion Hv; subst. discriminate. }
  destruct (PostProcessFacts.post_process_spec
              o segments segments language status_ E) as [_ H].
  rewrite H, Hg, fill_gaps_none, (map_strip_words_off o _ Hr).
  rewrite (kept_segments_all_valid segments Hv). reflexivity.
Qed.

(** *** The gap rule *)

Lemma nth_error_same_length (A B : Type) (l : list A) (l' : list B)
      (i : nat) (x : A) :
  length l = length l' -> nth_error l i = Some x ->
  exists y, nth_error l' i = Some y.
Proof.
  intros Hl Hx.
  assert (Hi : (i < length l')%nat).
  { rewrite <- Hl. apply nth_error_Some. rewrite Hx. discriminate. }
  destruct (nth_error l' i) as [y|] eqn:E; [exists y; reflexivity|].
  apply nth_error_None in E. lia.
Qed.

(** X16: when gaps are to be prevented, none that the code finds shorter
    than the threshold is left between two consecutive returned
    segments: each segment ends exactly where the next one starts, or
    the float difference between the next start and its end, the one
    the code compares with the threshold, is at least the threshold. *)
Theorem no_short_gap_remains (o : options) (segments es : list entry)
        (language : option str) (status_ : option status)
        (threshold : Q) :
  prevent_short_gaps o = Some threshold ->
  split_segments segments o = Return es ->
  exists out,
    post_process_whisper_result
      (ResultDict (Some segments) language status_) o
    = Return (ResultDict (Some (map Dict out)) language status_)
    /\ forall i a b,
        nth_error out i = Some a -> nth_error out (S i) = Some b ->
        seg_end a = seg_start b
        \/ threshold <= Py.fsub (seg_start b) (seg_end a).
Proof.
  intros Hg E.
  destruct (PostProcessFacts.post_process_spec
              o segments es language status_ E) as [_ Hp].
  eexists. split; [exact Hp|].
  rewrite Hg.
  set (l := map (strip_words o) (kept_segments es)).
  intros i a' b' Ha Hb.
  pose proof (PostProcessFacts.fill_gaps_length (Some threshold) l) as Hl.
  destruct (nth_error_same_length _ _ _ l i a' Hl Ha) as [a Hla].
  destruct (nth_error_same_length _ _ _ l (S i) b' Hl Hb) as [b Hlb].
  destruct (PostProcessFacts.fill_gaps_pair (Some threshold) l i a b
              Hla Hlb) as [Ha' [e Hb']].
  rewrite Ha in Ha'. rewrite Hb in Hb'.
  inversion Ha'; subst a'. inversion Hb'; subst b'.
  simpl seg_start. unfold close_gap.
  destruct (Py.ltb (Py.fsub (seg_start b) (seg_end a)) threshold) eqn:B.
  - left. reflexivity.
  - right. apply PyFacts.ltb_false in B. exact B.
Qed.

End WithFloat.

(** *** Concrete inputs

    The statements below are about given inputs and are computed with
    [Py.unrounded]. *)

Lemma post_process_returns_valid_segments_witness :
  exists out,
    ResultDict (Some [Samples.spoken "a" 0 1]) None None
    = ResultDict (Some (map Dict out)) None None
    /\ Forall (fun s => valid_text s = true) out
    /\ (remove_words_option default_options = true ->
        Forall (fun s => seg_words s = None) out).
Proof.
  apply (post_process_returns_valid_segments
           default_options
           [Samples.no_text; Samples.empty_text; Samples.spoken "a" 0 1]
           None None).
  reflexivity.
Defined.

Lemma post_process_keeps_order_witness :
  exists refs out,
    post_process_refs
      (ResultDict (Some [Samples.spoken "a" 0 1; Samples.no_text;
                         Samples.spoken "b" 1 2; Samples.spoken "c" 2 3])
                  None None) default_options
    = Return refs
    /\ post_process_whisper_result
         (ResultDict (Some [Samples.spoken "a" 0 1; Samples.no_text;
                            Samples.spoken "b" 1 2; Samples.spoken "c" 2 3])
                     None None) default_options
       = Return (ResultDict (Some out) None None)
    /\ StronglySorted lt refs
    /\ Forall (fun r => (r < 4)%nat) refs
    /\ Forall2 (fun r e' => exists s e,
                    lookup [Samples.spoken "a" 0 1; Samples.no_text;
                            Samples.spoken "b" 1 2; Samples.spoken "c" 2 3]
                           r = Dict s
                    /\ e' = Dict (set_seg_end
                                    (strip_words default_options s) e))
               refs out.
Proof.
  apply (post_process_keeps_order
           default_options
           [Samples.spoken "a" 0 1; Samples.no_text;
            Samples.spoken "b" 1 2; Samples.spoken "c" 2 3]
           [Samples.spoken "a" 0 1; Samples.no_text;
            Samples.spoken "b" 1 2; Samples.spoken "c" 2 3]
           None None).
  reflexivity.
Defined.

Lemma post_process_without_options_is_identity_witness :
  post_process_whisper_result
    (ResultDict (Some [Samples.spoken "a" 0 1; Samples.spoken "b" 1 2])
                None None) default_options
  = Return (ResultDict
              (Some [Samples.spoken "a" 0 1; Samples.spoken "b" 1 2])
              None None).
Proof.
  apply (post_process_without_options_is_identity
           default_options
           [Samples.spoken "a" 0 1; Samples.spoken "b" 1 2] None None);
    try reflexivity.
  repeat constructor.
Defined.

Lemma no_short_gap_remains_witness :
  exists out,
    post_process_whisper_result
      (ResultDict (Some [Samples.spoken "a" 0 1;
                         Samples.spoken "b" (5 # 4) 2])
                  None None)
      (Options false [] None None (Some (1 # 2)) None)
    = Return (ResultDict (Some (map Dict out)) None None)
    /\ forall i a b,
        nth_error out i = Some a -> nth_error out (S i) = Some b ->
        seg_end a = seg_start b
        \/ (1 # 2) <= Py.fsub (seg_start b) (seg_end a).
Proof.
  apply (no_short_gap_remains
           (Options false [] None None (Some (1 # 2)) None)
           [Samples.spoken "a" 0 1; Samples.spoken "b" (5 # 4) 2]
           [Samples.spoken "a" 0 1; Samples.spoken "b" (5 # 4) 2]
           None None (1 # 2)).
  - reflexivity.
  - reflexivity.
Defined.

End PostProcessExtras.

Module StitcherExtras.

Import Text Segments Intervals PostProcess Stitcher StitcherShapes.
Open Scope Q_scope.

Section WithFloat.
Context {F : Py.Float}.

(** *** Clipping *)

Lemma place_segment_clipped (ws we : Q) (id : Z) (t : segment) :
  clipped_to ws we (place_segment ws we id t).
Proof.
  unfold clipped_to, place_segment. simpl. split; [|split].
  - destruct (Py.ltb (seg_start t + ws) ws) eqn:E.
    + lra.
    + apply PyFacts.ltb_false in E. exact E.
  - destruct (Py.ltb we (seg_end t + ws)) eqn:E.
    + lra.
    + apply PyFacts.ltb_false in E. exact E.
  - intros l w Hl Hw.
    destruct (seg_words t) as [words|]; [|discriminate].
    simpl in Hl. inversion Hl; subst l.
    apply in_map_iff in Hw. destruct Hw as [w0 [<- _]].
    unfold clip_word. simpl. split.
    + destruct (Py.ltb (w_start w0 + ws) ws) eqn:E.
      * lra.
      * apply PyFacts.ltb_false in E. exact E.
    + destruct (Py.ltb we (w_end w0 + ws)) eqn:E.
      * lra.
      * apply PyFacts.ltb_false in E. exact E.
Qed.

Lemma place_segments_clipped (ws we : Q) (next : Z)
      (segments : list entry) :
  forall id_count batch,
    place_segments ws we next id_count segments = Return batch ->
    Forall (clipped_to ws we) batch
    /\ length batch = length segments.
Proof.
  induction segments as [|x rest IH]; intros id_count batch H.
  - simpl in H. inversion H; subst. split; [constructor|reflexivity].
  - simpl in H. destruct x as [a|t]; [discriminate|].
    destruct (place_segments ws we next (id_count + 1) rest)
      as [placed|e|] eqn:E; try discriminate.
    simpl in H. inversion H; subst.
    destruct (IH _ _ E) as [H1 H2].
    split; [|simpl; rewrite H2; reflexivity].
    constructor; [apply place_segment_clipped|exact H1].
Qed.

Section Loop.
Variable Sample : Type.
Variable transcribe : nat -> window Sample -> Q -> whisper_result.
Variable has_transcription : bool.
Variable next_segment_id : Z.

Lemma persisted_logged (l : list store_event) (e : store_event) :
  persisted (log has_transcription l e)
  = persisted l ++ (if has_transcription then persisted [e] else []).
Proof.
  unfold log. destruct has_transcription.
  - apply StitcherFacts.persisted_app.
  - rewrite app_nil_r. reflexivity.
Qed.

Lemma transcribe_loop_clipped (all : list (window Sample))
      (o : options) (total : Q)
      (audio_segments : list (window Sample)) :
  forall calls v,
    (forall w, In w audio_segments -> In w all) ->
    Forall (within_a_window all) (l_segments v) ->
    Forall (within_a_window all) (persisted (l_events v)) ->
    Forall (within_a_window all)
           (persisted
              (fst (transcribe_loop transcribe has_transcription
                                    next_segment_id o total calls
                                    audio_segments v)))
    /\ forall v',
        snd (transcribe_loop transcribe has_transcription
                             next_segment_id o total calls
                             audio_segments v) = Return v' ->
        Forall (within_a_window all) (l_segments v').
Proof.
  induction audio_segments as [|w rest IH]; intros calls v Hin Hs He.
  - simpl. split; [exact He|]. intros v' H. inversion H; subst. exact Hs.
  - rewrite StitcherFacts.transcribe_loop_step. cbv zeta.
    assert (He1 : Forall (within_a_window all)
                    (persisted
                       (log has_transcription (l_events v)
                            (DeleteSegmentsBetween (wstart w) (wend w))))).
    { rewrite persisted_logged. apply Forall_app. split; [exact He|].
      destruct has_transcription; constructor. }
    assert (Hrest : forall x, In x rest -> In x all)
      by (intros x Hx; apply Hin; right; exact Hx).
    destruct (post_process_whisper_result
                (transcribe calls w total) (stitcher_options o))
      as [r|e|].
    + assert (Hskip :
               Forall (within_a_window all)
                 (persisted
                    (fst (transcribe_loop
                            transcribe has_transcription next_segment_id
                            o total (S calls) rest
                            (Locals (l_segments v) (l_language v) (Some r)
                                    (l_id_count v)
                                    (log has_transcription
                                         (log has_transcription
                                              (l_events v)
                                              (DeleteSegmentsBetween
                                                 (wstart w) (wend w)))
                                         SaveSoon)))))
               /\ forall v',
                   snd (transcribe_loop
                          transcribe has_transcription next_segment_id
                          o total (S calls) rest
                          (Locals (l_segments v) (l_language v) (Some r)
                                  (l_id_count v)
                                  (log has_transcription
                                       (log has_transcription
                                            (l_events v)
                                            (DeleteSegmentsBetween
                                               (wstart w) (wend w)))
                                       SaveSoon))) = Return v' ->
                   Forall (within_a_window all) (l_segments v')).
      { apply IH; [exact Hrest|exact Hs|]. simpl l_events.
        rewrite !persisted_logged.
        repeat (apply Forall_app; split); try exact He;
          destruct has_transcription; constructor. }
      destruct r as [|[[|t ts]|] language status_]; try exact Hskip.
      destruct (place_segments (wstart w) (wend w) next_segment_id
                               (l_id_count v) (t :: ts))
        as [batch|e|] eqn:Ep.
      * destruct (place_segments_clipped _ _ _ _ _ _ Ep) as [Hb _].
        assert (Hbw : Forall (within_a_window all) batch).
        { eapply Forall_impl; [|exact Hb].
          intros p Hp. exists w. split; [|exact Hp].
          apply Hin. left. reflexivity. }
        apply IH; [exact Hrest| |].
        -- simpl. apply Forall_app. split; assumption.
        -- simpl l_events. rewrite !persisted_logged.
           repeat (apply Forall_app; split); try exact He;
             destruct has_transcription; simpl; rewrite ?app_nil_r;
             try constructor; exact Hbw.
      * simpl. split; [exact He1|discriminate].
      * simpl. split; [exact He1|discriminate].
    + simpl. split; [exact He1|discriminate].
    + simpl. split; [exact He1|discriminate].
Qed.
End Loop.

(** X17: every segment the stitcher stores or returns lies within the
    window it was transcribed from, as far as the clipping goes: it
    starts no earlier than the window starts and ends no later than the
    window ends, and so does each of its words. *)
Theorem stitched_segments_are_clipped (Sample : Type)
        (transcribe : nat -> window Sample -> Q -> whisper_result)
        (has_transcription : bool) (next_segment_id : Z)
        (audio_segments : list (window Sample)) (o : options) :
  let out := whisper_transcribe_segments
               transcribe has_transcription next_segment_id
               audio_segments o in
  Forall (within_a_window audio_segments) (persisted (events out))
  /\ forall r,
      returned out = Return r ->
      Forall (within_a_window audio_segments) (res_segments r).
Proof.
  intros out. subst out. unfold whisper_transcribe_segments.
  destruct (transcribe_loop_clipped
              Sample transcribe has_transcription next_segment_id
              audio_segments o (total_duration audio_segments)
              audio_segments 0 (Locals [] None None 0 [])
              (fun w H => H) (Forall_nil _) (Forall_nil _)) as [H1 H2].
  destruct (transcribe_loop transcribe has_transcription next_segment_id
                            o (total_duration audio_segments) 0
                            audio_segments (Locals [] None None 0 []))
    as [ev r] eqn:E.
  simpl in *. split; [exact H1|].
  intros res Hres. destruct r as [v|e|]; try discriminate.
  simpl in Hres. inversion Hres; subst. simpl. apply H2. reflexivity.
Qed.

(** *** The requests made to the store *)

Section Requests.
Variable Sample : Type.
Variable transcribe : nat -> window Sample -> Q -> whisper_result.
Variable next_segment_id : Z.

Lemma transcribe_loop_silent (o : options) (total : Q)
      (audio_segments : list (window Sample)) :
  forall calls v,
    fst (transcribe_loop transcribe false next_segment_id o total calls
                         audio_segments v) = l_events v.
Proof.
  induction audio_segments as [|w rest IH]; intros calls v;
    [reflexivity|].
  rewrite StitcherFacts.transcribe_loop_step. cbv zeta.
  unfold log.
  destruct (post_process_whisper_result
              (transcribe calls w total) (stitcher_options o))
    as [r|e|]; try reflexivity.
  destruct r as [|[[|t ts]|] language status_];
    try (rewrite IH; reflexivity).
  destruct (place_segments (wstart w) (wend w) next_segment_id
                           (l_id_count v) (t :: ts))
    as [batch|e|]; try reflexivity.
  rewrite IH. reflexivity.
Qed.

Lemma deleted_app (a b : list store_event) :
  deleted (a ++ b) = deleted a ++ deleted b.
Proof. unfold deleted. apply flat_map_app. Qed.

Lemma batches_app (a b : list store_event) :
  batches (a ++ b) = batches a ++ batches b.
Proof. unfold batches. apply flat_map_app. Qed.

Lemma saves_app (a b : list store_event) :
  saves (a ++ b) = (saves a + saves b)%nat.
Proof. unfold saves. rewrite filter_app, length_app. reflexivity. Qed.

Lemma transcribe_loop_requests (o : options) (total : Q)
      (audio_segments : list (window Sample)) :
  forall calls v v',
    snd (transcribe_loop transcribe true next_segment_id o total calls
                         audio_segments v) = Return v' ->
    Forall (fun b => b <> []) (batches (l_events v)) ->
    deleted (fst (transcribe_loop transcribe true next_segment_id o
                                  total calls audio_segments v))
    = deleted (l_events v) ++ map (@bounds Sample) audio_segments
    /\ saves (fst (transcribe_loop transcribe true next_segment_id o
                                   total calls audio_segments v))
       = (saves (l_events v) + length audio_segments)%nat
    /\ Forall (fun b => b <> [])
              (batches (fst (transcribe_loop
                               transcribe true next_segment_id o total
                               calls audio_segments v))).
Proof.
  induction audio_segments as [|w rest IH]; intros calls v v' H Hb.
  - simpl. rewrite app_nil_r, Nat.add_0_r. repeat split. exact Hb.
  - rewrite StitcherFacts.transcribe_loop_step in H |- *.
    cbv zeta in H |- *. unfold log in H |- *.
    destruct (post_process_whisper_result
                (transcribe calls w total) (stitcher_options o))
      as [r|e|]; try discriminate.
    assert (Hskip : forall x,
               snd (transcribe_loop
                      transcribe true next_segment_id o total (S calls)
                      rest
                      (Locals (l_segments v) (l_language v) (Some x)
                              (l_id_count v)
                              ((l_events v
                                  ++ [DeleteSegmentsBetween
                                        (wstart w) (wend w)])
                                 ++ [SaveSoon]))) = Return v' ->
               deleted (fst (transcribe_loop
                               transcribe true next_segment_id o total
                               (S calls) rest
                               (Locals (l_segments v) (l_language v)
                                       (Some x) (l_id_count v)
                                       ((l_events v
                                           ++ [DeleteSegmentsBetween
                                                 (wstart w) (wend w)])
                                          ++ [SaveSoon]))))
               = deleted (l_events v)
                   ++ map (@bounds Sample) (w :: rest)
               /\ saves (fst (transcribe_loop
                                transcribe true next_segment_id o total
                                (S calls) rest
                                (Locals (l_segments v) (l_language v)
                                        (Some x) (l_id_count v)
                                        ((l_events v
                                            ++ [DeleteSegmentsBetween
                                                  (wstart w) (wend w)])
                                           ++ [SaveSoon]))))
                  = (saves (l_events v) + length (w :: rest))%nat
               /\ Forall (fun b => b <> [])
                         (batches (fst (transcribe_loop
                                          transcribe true next_segment_id
                                          o total (S calls) rest
                                          (Locals (l_segments v)
                                                  (l_language v)
                                                  (Some x) (l_id_count v)
                                                  ((l_events v
                                                      ++ [DeleteSegmentsBetween
                                                            (wstart w)
                                                            (wend w)])
                                                     ++ [SaveSoon])))))).
    { intros x Hx.
      destruct (IH _ _ _ Hx) as [H1 [H2 H3]].
      - simpl l_events. rewrite !batches_app. simpl.
        rewrite !app_nil_r. exact Hb.
      - rewrite H1, H2. simpl l_events.
        rewrite !deleted_app, !saves_app. simpl.
        rewrite !app_nil_r, <- app_assoc. simpl.
        split; [reflexivity|]. split; [unfold saves; simpl; lia|exact H3]. }
    destruct r as [|[[|t ts]|] language status_]; try (apply Hskip, H).
    destruct (place_segments (wstart w) (wend w) next_segment_id
                             (l_id_count v) (t :: ts))
      as [batch|e|] eqn:Ep; try discriminate.
    destruct (place_segments_clipped _ _ _ _ _ _ Ep) as [_ Hlen].
    destruct (IH _ _ _ H) as [H1 [H2 H3]].
    + simpl l_events. rewrite !batches_app. simpl.
      rewrite !app_nil_r. apply Forall_app. split; [exact Hb|].
      constructor; [|constructor].
      intros ->. discriminate.
    + rewrite H1, H2. simpl l_events.
      rewrite !deleted_app, !saves_app. simpl.
      rewrite !app_nil_r, <- app_assoc. simpl.
      split; [reflexivity|]. split; [unfold saves; simpl; lia|exact H3].
Qed.

Lemma transcribe_loop_failure (o : options) (total : Q)
      (audio_segments : list (window Sample)) :
  forall calls v e,
    snd (transcribe_loop transcribe true next_segment_id o total calls
                         audio_segments v) = Raises e ->
    exists pre w,
      In w audio_segments
      /\ fst (transcribe_loop transcribe true next_segment_id o total
                              calls audio_segments v)
         = pre ++ [DeleteSegmentsBetween (wstart w) (wend w)].
Proof.
  induction audio_segments as [|w rest IH]; intros calls v e H.
  - simpl in H. discriminate.
  - rewrite StitcherFacts.transcribe_loop_step in H |- *.
    cbv zeta in H |- *. unfold log in H |- *.
    destruct (post_process_whisper_result
                (transcribe calls w total) (stitcher_options o))
      as [r|e'|].
    + assert (Hskip : forall v0,
                 snd (transcribe_loop transcribe true next_segment_id o
                                      total (S calls) rest v0)
                 = Raises e ->
                 exists pre w0,
                   In w0 (w :: rest)
                   /\ fst (transcribe_loop
                             transcribe true next_segment_id o total
                             (S calls) rest v0)
                      = pre ++ [DeleteSegmentsBetween
                                  (wstart w0) (wend w0)]).
      { intros v0 Hv. destruct (IH _ _ _ Hv) as [pre [w0 [Hw0 E]]].
        exists pre, w0. split; [right; exact Hw0|exact E]. }
      destruct r as [|[[|t ts]|] language status_]; try (apply Hskip, H).
      destruct (place_segments (wstart w) (wend w) next_segment_id
                               (l_id_count v) (t :: ts))
        as [batch|e'|].
      * apply Hskip, H.
      * simpl. exists (l_events v), w.
        split; [left; reflexivity|reflexivity].
      * discriminate.
    + simpl. exists (l_events v), w.
      split; [left; reflexivity|reflexivity].
    + discriminate.
Qed.
End Requests.

(** X18: without a transcription file the stitcher asks nothing of the
    store.  With one, a run that returns has asked for exactly one
    deletion per window, with the bounds of that window and in the
    order of the windows, and for one save per window; and it never
    hands over an empty batch of segments. *)
Theorem store_requests_follow_the_windows (Sample : Type)
        (transcribe : nat -> window Sample -> Q -> whisper_result)
        (next_segment_id : Z) (audio_segments : list (window Sample))
        (o : options) :
  events (whisper_transcribe_segments
            transcribe false next_segment_id audio_segments o) = []
  /\ forall r,
      returned (whisper_transcribe_segments
                  transcribe true next_segment_id audio_segments o)
      = Return r ->
      let ev := events (whisper_transcribe_segments
                          transcribe true next_segment_id
                          audio_segments o) in
      deleted ev = map (@bounds Sample) audio_segments
      /\ saves ev = length audio_segments
      /\ Forall (fun b => b <> []) (batches ev).
Proof.
  split.
  - unfold whisper_transcribe_segments.
    pose proof (transcribe_loop_silent
                  Sample transcribe next_segment_id o
                  (total_duration audio_segments) audio_segments 0
                  (Locals [] None None 0 [])) as H.
    destruct (transcribe_loop transcribe false next_segment_id o
                              (total_duration audio_segments) 0
                              audio_segments (Locals [] None None 0 []))
      as [ev r].
    simpl in *. exact H.
  - intros r. unfold whisper_transcribe_segments.
    pose proof (transcribe_loop_requests
                  Sample transcribe next_segment_id o
                  (total_duration audio_segments) audio_segments 0
                  (Locals [] None None 0 [])) as H.
    destruct (transcribe_loop transcribe true next_segment_id o
                              (total_duration audio_segments) 0
                              audio_segments (Locals [] None None 0 []))
      as [ev res].
    simpl in *. intros Hr.
    destruct res as [v|e|]; try discriminate.
    destruct (H v eq_refl (Forall_nil _)) as [H1 [H2 H3]].
    split; [exact H1|]. split; [exact H2|exact H3].
Qed.

(** X19: when an exception ends the run, the last thing asked of the store
    is the deletion of the segments of the window being worked on:
    nothing is added for that window, and no save follows. *)
Theorem failure_follows_a_deletion (Sample : Type)
        (transcribe : nat -> window Sample -> Q -> whisper_result)
        (next_segment_id : Z) (audio_segments : list (window Sample))
        (o : options) (e : exn) :
  returned (whisper_transcribe_segments
              transcribe true next_segment_id audio_segments o)
  = Raises e ->
  exists pre w,
    In w audio_segments
    /\ events (whisper_transcribe_segments
                 transcribe true next_segment_id audio_segments o)
       = pre ++ [DeleteSegmentsBetween (wstart w) (wend w)].
Proof.
  unfold whisper_transcribe_segments.
  pose proof (transcribe_loop_failure
                Sample transcribe next_segment_id o
                (total_duration audio_segments) audio_segments 0
                (Locals [] None None 0 [])) as H.
  destruct (transcribe_loop transcribe true next_segment_id o
                            (total_duration audio_segments) 0
                            audio_segments (Locals [] None None 0 []))
    as [ev res].
  simpl in *. intros Hr.
  destruct res as [v|e'|]; try discriminate.
  simpl in Hr. inversion Hr; subst e'.
  apply (H e eq_refl).
Qed.

End WithFloat.

(** *** Concrete inputs

    The statements below are about given inputs and are computed with
    [Py.unrounded]. *)

Lemma stitched_segments_are_clipped_witness :
  Forall (within_a_window Samples.three_windows)
         (persisted
            (events (whisper_transcribe_segments
                       Samples.canceled_at_second_call true 0
                       Samples.three_windows default_options))).
Proof.
  apply (stitched_segments_are_clipped
           Z Samples.canceled_at_second_call true 0
           Samples.three_windows default_options).
Defined.

Lemma store_requests_follow_the_windows_witness :
  let ev := events (whisper_transcribe_segments
                      Samples.canceled_at_second_call true 0
                      Samples.three_windows default_options) in
  deleted ev = map (@bounds Z) Samples.three_windows
  /\ saves ev = 3%nat
  /\ Forall (fun b => b <> []) (batches ev).
Proof.
  destruct (store_requests_follow_the_windows
              Z Samples.canceled_at_second_call 0
              Samples.three_windows default_options) as [_ H].
  eapply H. reflexivity.
Defined.

Lemma failure_follows_a_deletion_witness :
  exists pre w,
    In w Samples.three_windows
    /\ events (whisper_transcribe_segments
                 MoreSamples.not_a_segment_at_second_call true 0
                 Samples.three_windows default_options)
       = pre ++ [DeleteSegmentsBetween (wstart w) (wend w)].
Proof.
  apply (failure_follows_a_deletion
           Z MoreSamples.not_a_segment_at_second_call 0
           Samples.three_windows default_options TypeError).
  reflexivity.
Defined.

End StitcherExtras.

Module WhisperOptionsFacts.

Import Text WhisperOptions.
Local Open Scope string_scope.
Local Open Scope list_scope.

(** *** [whisper_options] *)

Lemma get_filter_parameters (allowed : list (String.string * param_type))
      (parameters : dict value) (k : String.string) :
  NoDup (map fst allowed) ->
  get k (filter_parameters allowed parameters)
  = match get k allowed, get k parameters with
    | Some t, Some v => if isinstance v t then Some v else None
    | _, _ => None
    end.
Proof.
  induction allowed as [|[k' t] rest IH]; intros Hnd; [reflexivity|].
  inversion Hnd as [|? ? Hk' Hrest]; subst.
  specialize (IH Hrest).
  change (filter_parameters ((k', t) :: rest) parameters)
    with (match get k' parameters with
          | Some v => if isinstance v t then [(k', v)] else []
          | None => []
          end ++ filter_parameters rest parameters).
  change (get k ((k', t) :: rest))
    with (if String.eqb k k' then Some t else get k rest).
  destruct (String.eqb k k') eqn:E.
  - apply String.eqb_eq in E. subst k'.
    assert (Hnone : get k rest = None).
    { clear -Hk'. induction rest as [|[k2 t2] r IHr]; [reflexivity|].
      simpl in *. destruct (String.eqb k k2) eqn:E2.
      - apply String.eqb_eq in E2. subst. exfalso. apply Hk'. left.
        reflexivity.
      - apply IHr. intros H. apply Hk'. right. exact H. }
    rewrite Hnone in IH.
    destruct (get k parameters) as [v|] eqn:Ev.
    + destruct (isinstance v t) eqn:Ei.
      * simpl. rewrite String.eqb_refl. reflexivity.
      * simpl. exact IH.
    + simpl. exact IH.
  - destruct (get k' parameters) as [v|] eqn:Ev.
    + destruct (isinstance v t) eqn:Ei.
      * simpl. rewrite E. exact IH.
      * simpl. exact IH.
    + simpl. exact IH.
Qed.

Lemma allowed_parameters_distinct : NoDup (map fst allowed_parameters).
Proof.
  simpl.
  repeat (constructor;
          [simpl; intros H;
           repeat (destruct H as [H|H]; [discriminate H|]); exact H|]).
  constructor.
Qed.

Lemma filter_parameters_keys (allowed : list (String.string * param_type))
      (parameters : dict value) :
  NoDup (map fst allowed) ->
  NoDup (keys (filter_parameters allowed parameters))
  /\ forall k, In k (keys (filter_parameters allowed parameters)) ->
               In k (map fst allowed).
Proof.
  unfold filter_parameters, keys.
  induction allowed as [|[k t] rest IH]; intros Hnd.
  - split; [constructor|intros k []].
  - inversion Hnd as [|? ? Hk Hrest]; subst.
    destruct (IH Hrest) as [I1 I2].
    simpl flat_map. simpl fst. simpl snd.
    destruct (get k parameters) as [v|]; [destruct (isinstance v t)|];
      simpl.
    + split.
      * constructor; [|exact I1]. intros H. apply Hk, I2, H.
      * intros k' [<-|H]; [left; reflexivity|right; apply I2, H].
    + split; [exact I1|]. intros k' H. right. apply I2, H.
    + split; [exact I1|]. intros k' H. right. apply I2, H.
Qed.

Lemma get_whisper_options (parameters : dict value) (k : String.string) :
  get k (whisper_options parameters) = admitted parameters k.
Proof.
  unfold whisper_options, admitted.
  apply get_filter_parameters. apply allowed_parameters_distinct.
Qed.

(** X20: [whisper_options] keeps a parameter exactly when its name is one of
    the allowed names and its value has the type listed for that name;
    it keeps the value as it is, and it returns every name at most
    once.  A parameter of another name or of another type is dropped,
    an [int] given for a [float] parameter included. *)
Theorem whisper_options_spec (parameters : dict value) :
  (forall k, get k (whisper_options parameters) = admitted parameters k)
  /\ NoDup (keys (whisper_options parameters))
  /\ (forall k z, (k = "temperature" \/ k = "no_speech_threshold"
                   \/ k = "logprob_threshold"
                   \/ k = "compression_ratio_threshold") ->
                  get k parameters = Some (VInt z) ->
                  get k (whisper_options parameters) = None).
Proof.
  pose proof (get_whisper_options parameters) as H.
  split; [exact H|]. split.
  - apply filter_parameters_keys. apply allowed_parameters_distinct.
  - intros k z Hk Hz. rewrite H. unfold admitted. rewrite Hz.
    destruct Hk as [-> | [-> | [-> | ->]]]; reflexivity.
Qed.

Lemma whisper_options_spec_witness :
  get "temperature" (whisper_options [("temperature", VInt 0)]) = None.
Proof.
  apply (whisper_options_spec [("temperature", VInt 0)]) with (z := 0%Z).
  - left. reflexivity.
  - reflexivity.
Defined.

Lemma get_allowed (allowed : list (String.string * param_type))
      (k : String.string) (t : param_type) :
  NoDup (map fst allowed) -> In (k, t) allowed -> get k allowed = Some t.
Proof.
  induction allowed as [|[k' t'] rest IH]; intros Hnd Hin; [destruct Hin|].
  inversion Hnd as [|? ? Hk Hrest]; subst.
  simpl. destruct Hin as [Hin|Hin].
  - inversion Hin; subst. rewrite String.eqb_refl. reflexivity.
  - destruct (String.eqb k k') eqn:E.
    + apply String.eqb_eq in E. subst k'. exfalso. apply Hk.
      apply (in_map fst) in Hin. exact Hin.
    + apply IH; assumption.
Qed.

Lemma filter_parameters_ext (allowed : list (String.string * param_type))
      (p q : dict value) :
  (forall k t, In (k, t) allowed ->
               match get k p with
               | Some v => if isinstance v t then [(k, v)] else []
               | None => []
               end
               = match get k q with
                 | Some v => if isinstance v t then [(k, v)] else []
                 | None => []
                 end) ->
  filter_parameters allowed p = filter_parameters allowed q.
Proof.
  unfold filter_parameters.
  induction allowed as [|[k t] rest IH]; intros H; [reflexivity|].
  simpl. rewrite (H k t (or_introl eq_refl)).
  f_equal. apply IH. intros k' t' Hk'. apply H. right. exact Hk'.
Qed.

(** X21: filtering twice is filtering once: options that went through
    [whisper_options] go through it again unchanged. *)
Theorem whisper_options_idempotent (parameters : dict value) :
  whisper_options (whisper_options parameters)
  = whisper_options parameters.
Proof.
  unfold whisper_options at 1 3.
  apply filter_parameters_ext. intros k t Hin.
  unfold whisper_options.
  rewrite (get_filter_parameters allowed_parameters parameters k
             allowed_parameters_distinct).
  rewrite (get_allowed allowed_parameters k t
             allowed_parameters_distinct Hin).
  destruct (get k parameters) as [v|]; [|reflexivity].
  destruct (isinstance v t) eqn:E; [|reflexivity].
  rewrite E. reflexivity.
Qed.

(** *** The language handed to the backend *)

Lemma get_del_same (A : Type) (k : String.string) (d : dict A) :
  get k (del k d) = None.
Proof.
  induction d as [|[k' v] rest IH]; [reflexivity|].
  simpl. destruct (String.eqb k k') eqn:E; [exact IH|].
  simpl. rewrite E. exact IH.
Qed.

Lemma get_del_other (A : Type) (k k' : String.string) (d : dict A) :
  k <> k' -> get k (del k' d) = get k d.
Proof.
  intros Hk. induction d as [|[k2 v] rest IH]; [reflexivity|].
  simpl. destruct (String.eqb k' k2) eqn:E.
  - apply String.eqb_eq in E. subst k2.
    destruct (String.eqb k k') eqn:E2.
    + apply String.eqb_eq in E2. contradiction.
    + exact IH.
  - simpl. destruct (String.eqb k k2); [reflexivity|exact IH].
Qed.

(** X22: the backend is never handed an empty language, nor one that is
    not a string: a language reaches it exactly when the caller gave a
    non-empty string.  Every other option is handed over as
    [whisper_options] filtered it. *)
Theorem decoding_options_language (parameters : dict value) :
  get "language" (decoding_options parameters)
  = match get "language" parameters with
    | Some (VStr (c :: s)) => Some (VStr (c :: s))
    | _ => None
    end
  /\ forall k, k <> "language" ->
               get k (decoding_options parameters) = admitted parameters k.
Proof.
  pose proof (get_whisper_options parameters) as H.
  unfold decoding_options.
  pose proof (H "language") as Hl.
  unfold admitted in Hl. simpl get at 2 in Hl.
  split.
  - rewrite Hl.
    destruct (get "language" parameters) as [[|b|z|q|[|c s]|]|];
      simpl isinstance; cbv iota;
      try (rewrite Hl; reflexivity);
      try (apply get_del_same).
  - intros k Hk. rewrite Hl.
    destruct (get "language" parameters) as [[|b|z|q|[|c s]|]|];
      simpl isinstance; cbv iota;
      try (apply H);
      try (rewrite (get_del_other _ k "language" _ Hk); apply H).
Qed.

Lemma decoding_options_language_witness :
  get "beam_size" (decoding_options [("language", VStr []);
                                     ("beam_size", VBool true)])
  = Some (VBool true).
Proof.
  apply (proj2 (decoding_options_language
                  [("language", VStr []); ("beam_size", VBool true)])
               "beam_size").
  discriminate.
Defined.

End WhisperOptionsFacts.

Module ObserverFacts.

Import WhisperOptions Observers.
Local Open Scope list_scope.

(** *** The registry of observers *)

Lemma get_In (A : Type) (k : String.string) (d : dict A) (v : A) :
  get k d = Some v -> In (k, v) d.
Proof.
  induction d as [|[k' v'] rest IH]; [discriminate|].
  simpl. destruct (String.eqb k k') eqn:E.
  - apply String.eqb_eq in E. subst k'. intros H. inversion H; subst.
    left. reflexivity.
  - intros H. right. apply IH, H.
Qed.

Lemma get_set_same (A : Type) (k : String.string) (v : A) (d : dict A) :
  get k (set k v d) = Some v.
Proof.
  induction d as [|[k' v'] rest IH]; simpl.
  - rewrite String.eqb_refl. reflexivity.
  - destruct (String.eqb k k') eqn:E; simpl.
    + rewrite String.eqb_refl. reflexivity.
    + rewrite E. exact IH.
Qed.

Lemma get_set_other (A : Type) (k k' : String.string) (v : A)
      (d : dict A) :
  k <> k' -> get k (set k' v d) = get k d.
Proof.
  intros Hk. induction d as [|[k2 v2] rest IH]; simpl.
  - destruct (String.eqb k k') eqn:E; [|reflexivity].
    apply String.eqb_eq in E. contradiction.
  - destruct (String.eqb k' k2) eqn:E; simpl.
    + apply String.eqb_eq in E. subst k2.
      destruct (String.eqb k k') eqn:E2; [|reflexivity].
      apply String.eqb_eq in E2. contradiction.
    + destruct (String.eqb k k2); [reflexivity|exact IH].
Qed.

Lemma set_In (A : Type) (k : String.string) (v : A) (d : dict A)
      (k' : String.string) (v' : A) :
  In (k', v') (set k v d) -> (k' = k /\ v' = v) \/ In (k', v') d.
Proof.
  induction d as [|[k2 v2] rest IH]; simpl.
  - intros [H|[]]. inversion H; subst. left. split; reflexivity.
  - destruct (String.eqb k k2) eqn:E; simpl.
    + intros [H|H].
      * inversion H; subst. left. split; reflexivity.
      * right. right. exact H.
    + intros [H|H].
      * right. left. exact H.
      * destruct (IH H) as [L|R]; [left; exact L|right; right; exact R].
Qed.

Lemma set_keys (A : Type) (k : String.string) (v : A) (d : dict A) :
  NoDup (keys d) ->
  NoDup (keys (set k v d))
  /\ forall k', In k' (keys (set k v d)) -> k' = k \/ In k' (keys d).
Proof.
  unfold keys. induction d as [|[k2 v2] rest IH]; intros Hnd; simpl.
  - split; [repeat constructor; intros []|].
    intros k' [H|[]]. left. symmetry. exact H.
  - inversion Hnd as [|? ? Hk2 Hrest]; subst.
    destruct (String.eqb k k2) eqn:E; simpl.
    + apply String.eqb_eq in E. subst k2. split.
      * constructor; assumption.
      * intros k' [H|H]; [left; symmetry; exact H|right; right; exact H].
    + destruct (IH Hrest) as [I1 I2]. split.
      * constructor; [|exact I1]. intros H.
        destruct (I2 k2 H) as [L|R].
        -- subst k2. rewrite String.eqb_refl in E. discriminate.
        -- apply Hk2, R.
      * intros k' [H|H]; [right; left; exact H|].
        destruct (I2 k' H) as [L|R]; [left; exact L|right; right; exact R].
Qed.

Lemma del_In (A : Type) (k : String.string) (d : dict A)
      (k' : String.string) (v' : A) :
  In (k', v') (del k d) -> In (k', v') d.
Proof.
  induction d as [|[k2 v2] rest IH]; simpl; [intros []|].
  destruct (String.eqb k k2); simpl.
  - intros H. right. apply IH, H.
  - intros [H|H]; [left; exact H|right; apply IH, H].
Qed.

Lemma del_keys (A : Type) (k : String.string) (d : dict A) :
  NoDup (keys d) -> NoDup (keys (del k d)).
Proof.
  unfold keys. induction d as [|[k2 v2] rest IH]; intros Hnd; simpl;
    [constructor|].
  inversion Hnd as [|? ? Hk2 Hrest]; subst.
  destruct (String.eqb k k2); simpl; [apply IH, Hrest|].
  constructor; [|apply IH, Hrest].
  intros H. apply Hk2.
  apply in_map_iff in H. destruct H as [[k3 v3] [E H]].
  simpl in E. subst k3. apply del_In in H.
  apply (in_map fst) in H. exact H.
Qed.

Lemma attach_observer_tidy (d : observers) (a : String.string)
      (o : observer) :
  tidy d -> tidy (attach_observer d a o).
Proof.
  intros [Hk Hl]. unfold attach_observer.
  destruct (get a d) as [l|].
  - split; [apply set_keys, Hk|].
    intros a' l' H. apply set_In in H.
    destruct H as [[_ ->]|H]; [|apply (Hl a' l' H)].
    destruct l; discriminate.
  - split; [apply set_keys, Hk|].
    intros a' l' H. apply set_In in H.
    destruct H as [[_ ->]|H]; [discriminate|apply (Hl a' l' H)].
Qed.

Lemma dettach_observer_tidy (d : observers) (a : String.string)
      (o : observer) :
  tidy d -> tidy (fst (dettach_observer d a o)).
Proof.
  intros [Hk Hl]. unfold dettach_observer.
  destruct (get a d) as [l|]; [|split; assumption].
  destruct (remove o l) as [[|y l']|]; simpl.
  - split; [apply del_keys, Hk|].
    intros a' l2 H. apply del_In in H. apply (Hl a' l2 H).
  - split; [apply set_keys, Hk|].
    intros a' l2 H. apply set_In in H.
    destruct H as [[_ ->]|H]; [discriminate|apply (Hl a' l2 H)].
  - split; assumption.
Qed.

(** X23: whatever calls of [attach_observer] and [dettach_observer] were
    made, failed ones included, the registry holds no action without
    observers and no action twice; so [notify_observers] either
    returns [False] or has at least one observer to call. *)
Theorem registry_stays_tidy (calls : list call) (action : String.string) :
  tidy (after calls)
  /\ match notify_observers (after calls) action with
     | None => True
     | Some l => l <> []
     end.
Proof.
  assert (H : tidy (after calls)).
  { unfold after.
    assert (G : forall d, tidy d -> tidy (fold_left step calls d)).
    { induction calls as [|c cs IH]; intros d Hd; [exact Hd|].
      simpl. apply IH. destruct c as [a o|a o]; simpl.
      - apply attach_observer_tidy, Hd.
      - apply dettach_observer_tidy, Hd. }
    apply G. split; [constructor|intros a l []]. }
  split; [exact H|].
  unfold notify_observers.
  destruct (get action (after calls)) as [l|] eqn:E; [|exact I].
  destruct H as [_ Hl]. apply (Hl action l). apply get_In, E.
Qed.

(** Attaching appends: the next notification of the action calls the
    observers that were attached before, in their order, and then the
    new one; the other actions are not affected. *)
Theorem attach_then_notify (d : observers) (action : String.string)
        (o : observer) :
  notify_observers (attach_observer d action o) action
  = Some (match notify_observers d action with
          | Some l => l ++ [o]
          | None => [o]
          end)
  /\ forall other,
      other <> action ->
      notify_observers (attach_observer d action o) other
      = notify_observers d other.
Proof.
  unfold notify_observers, attach_observer. split.
  - destruct (get action d) as [l|]; apply get_set_same.
  - intros other Ho.
    destruct (get action d) as [l|]; apply get_set_other, Ho.
Qed.

Lemma remove_last (o : observer) (l : list observer) :
  ~ In o l -> remove o (l ++ [o]) = Some l.
Proof.
  induction l as [|y l IH]; intros Hn; simpl.
  - rewrite Nat.eqb_refl. reflexivity.
  - destruct (Nat.eqb y o) eqn:E.
    + apply Nat.eqb_eq in E. exfalso. apply Hn. left. exact E.
    + rewrite IH; [reflexivity|]. intros H. apply Hn. right. exact H.
Qed.

Lemma set_same (A : Type) (k : String.string) (v : A) (d : dict A) :
  get k d = Some v -> set k v d = d.
Proof.
  induction d as [|[k' v'] rest IH]; [discriminate|].
  simpl. destruct (String.eqb k k') eqn:E.
  - apply String.eqb_eq in E. subst k'. intros H. inversion H; subst.
    reflexivity.
  - intros H. rewrite (IH H). reflexivity.
Qed.

Lemma set_set (A : Type) (k : String.string) (v v' : A) (d : dict A) :
  get k d <> None -> set k v (set k v' d) = set k v d.
Proof.
  induction d as [|[k2 v2] rest IH]; [intros H; contradiction|].
  simpl. destruct (String.eqb k k2) eqn:E; simpl.
  - rewrite String.eqb_refl. reflexivity.
  - intros H. rewrite E, (IH H). reflexivity.
Qed.

Lemma del_set_new (A : Type) (k : String.string) (v : A) (d : dict A) :
  get k d = None -> del k (set k v d) = d.
Proof.
  induction d as [|[k2 v2] rest IH]; simpl.
  - rewrite String.eqb_refl. reflexivity.
  - destruct (String.eqb k k2) eqn:E; [discriminate|].
    intros H. simpl. rewrite E, (IH H). reflexivity.
Qed.

(** X24: detaching an observer right after attaching it puts the registry
    back as it was, provided the observer was not already attached to
    that action.  (When it was, the call removes its earliest
    registration.) *)
Theorem dettach_undoes_attach (d : observers) (action : String.string)
        (o : observer) :
  tidy d ->
  (forall l, get action d = Some l -> ~ In o l) ->
  dettach_observer (attach_observer d action o) action o
  = (d, ReturnsNone).
Proof.
  intros [_ Hl] Hn. unfold attach_observer, dettach_observer.
  destruct (get action d) as [l|] eqn:E.
  - rewrite get_set_same, (remove_last o l (Hn l eq_refl)).
    destruct l as [|y l'].
    + exfalso. apply (Hl action []); [apply get_In, E|reflexivity].
    + rewrite set_set by (rewrite E; discriminate).
      rewrite (set_same _ action (y :: l') d E). reflexivity.
  - rewrite get_set_same. simpl. rewrite Nat.eqb_refl.
    rewrite (del_set_new _ action [o] d E). reflexivity.
Qed.

Lemma dettach_undoes_attach_witness :
  dettach_observer
    (attach_observer [("done"%string, [1%nat; 2%nat])] "done"%string 3%nat)
    "done"%string 3%nat
  = ([("done"%string, [1%nat; 2%nat])], ReturnsNone).
Proof.
  apply (dettach_undoes_attach
           [("done"%string, [1%nat; 2%nat])] "done"%string 3%nat).
  - split.
    + repeat constructor. intros [].
    + intros a l [H|[]]. inversion H; subst. discriminate.
  - intros l H. simpl in H. inversion H; subst.
    intros [H1|[H1|[]]]; discriminate.
Defined.

End ObserverFacts.

Module NotificationFacts.

Import Text WhisperOptions Notifications.
Local Open Scope list_scope.

(** *** [push] *)

Lemma logged_app (a b : list event) : logged (a ++ b) = logged a ++ logged b.
Proof. unfold logged. apply flat_map_app. Qed.

Lemma received_by_app (r : receiver) (a b : list event) :
  received_by r (a ++ b) = received_by r a ++ received_by r b.
Proof. unfold received_by. apply flat_map_app. Qed.

Lemma deliver_logged (raises : receiver -> notification_message -> bool)
      (m : notification_message) (l : list receiver) :
  logged (fst (deliver raises m l)) = [].
Proof.
  induction l as [|r rest IH]; simpl; [reflexivity|].
  destruct (raises r m); [reflexivity|].
  destruct (deliver raises m rest) as [ev failed]. simpl in *. exact IH.
Qed.

Lemma process_message_logged
      (raises : receiver -> notification_message -> bool)
      (self : notification_service) (m : notification_message) :
  logged (fst (_process_message raises self m)) = [m].
Proof.
  unfold _process_message.
  pose proof (deliver_logged raises m (concat (map snd (receivers self))))
    as H.
  destruct (deliver raises m (concat (map snd (receivers self))))
    as [ev failed].
  simpl in H. destruct failed; simpl.
  - rewrite logged_app, H. reflexivity.
  - rewrite H. reflexivity.
Qed.

Lemma deliver_received (raises : receiver -> notification_message -> bool)
      (m : notification_message) (r : receiver) (l : list receiver) :
  (forall x, In x l -> raises x m = false) ->
  snd (deliver raises m l) = false
  /\ received_by r (fst (deliver raises m l))
     = repeat m (count_occ Nat.eq_dec l r).
Proof.
  induction l as [|x rest IH]; intros Hr; simpl; [split; reflexivity|].
  rewrite (Hr x (or_introl eq_refl)).
  destruct (IH (fun y Hy => Hr y (or_intror Hy))) as [I1 I2].
  destruct (deliver raises m rest) as [ev failed]. simpl in *.
  split; [exact I1|].
  destruct (Nat.eq_dec x r) as [->|Hx].
  - rewrite Nat.eqb_refl. simpl. rewrite I2. reflexivity.
  - assert (E : Nat.eqb x r = false) by (apply Nat.eqb_neq; exact Hx).
    rewrite E. simpl. exact I2.
Qed.

(** X25: [push] logs every message of the batch once and in the order of
    the batch, whatever the receivers do.  When no receiver raises,
    a receiver that was registered once is handed every message of the
    batch, once and in that order. *)
Theorem push_delivers_in_order
        (raises : receiver -> notification_message -> bool)
        (self : notification_service) :
  logged (push raises self) = batch self
  /\ ((forall r m, raises r m = false) ->
      forall r,
        count_occ Nat.eq_dec (concat (map snd (receivers self))) r = 1%nat ->
        received_by r (push raises self) = batch self).
Proof.
  unfold push. split.
  - induction (batch self) as [|m ms IH]; [reflexivity|].
    simpl. rewrite logged_app, process_message_logged, IH. reflexivity.
  - intros Hr r Hc.
    induction (batch self) as [|m ms IH]; [reflexivity|].
    simpl. rewrite received_by_app, IH. clear IH.
    unfold _process_message.
    destruct (deliver_received raises m r
                (concat (map snd (receivers self)))
                (fun x _ => Hr x m)) as [D1 D2].
    destruct (deliver raises m (concat (map snd (receivers self))))
      as [ev failed].
    simpl in D1, D2. subst failed. simpl.
    rewrite D2, Hc. reflexivity.
Qed.

Lemma push_delivers_in_order_witness :
  received_by
    2%nat
    (push (fun _ _ => false)
          (NotificationService
             [NotificationMessage [] [] "info"%string None]
             [("window"%string, [1%nat; 2%nat])]))
  = [NotificationMessage [] [] "info"%string None].
Proof.
  apply (proj2 (push_delivers_in_order
                  (fun _ _ => false)
                  (NotificationService
                     [NotificationMessage [] [] "info"%string None]
                     [("window"%string, [1%nat; 2%nat])]))).
  - reflexivity.
  - reflexivity.
Defined.

(** A receiver that raises ends the delivery of that message: the
    receivers registered after it are not handed the message, the
    failure is logged, and [_process_message] returns [False]. *)
Theorem failing_receiver_ends_the_delivery
        (raises : receiver -> notification_message -> bool)
        (self : notification_service) (m : notification_message)
        (before after_ : list receiver) (r : receiver) :
  concat (map snd (receivers self)) = before ++ r :: after_ ->
  (forall x, In x before -> raises x m = false) ->
  raises r m = true ->
  _process_message raises self m
  = (Logged m :: map (fun x => Received x m) (before ++ [r])
       ++ [LoggedProcessingError],
     false).
Proof.
  intros Hc Hb Hr. unfold _process_message. rewrite Hc.
  assert (D : deliver raises m (before ++ r :: after_)
              = (map (fun x => Received x m) (before ++ [r]), true)).
  { clear Hc. induction before as [|x rest IH]; simpl.
    - rewrite Hr. reflexivity.
    - rewrite (Hb x (or_introl eq_refl)).
      rewrite (IH (fun y Hy => Hb y (or_intror Hy))). reflexivity. }
  rewrite D. reflexivity.
Qed.

Lemma failing_receiver_ends_the_delivery_witness :
  _process_message
    (fun r _ => Nat.eqb r 2)
    (NotificationService [] [("window"%string, [1%nat; 2%nat; 3%nat])])
    (NotificationMessage [] [] "info"%string None)
  = ([Logged (NotificationMessage [] [] "info"%string None);
      Received 1%nat (NotificationMessage [] [] "info"%string None);
      Received 2%nat (NotificationMessage [] [] "info"%string None);
      LoggedProcessingError],
     false).
Proof.
  apply (failing_receiver_ends_the_delivery
           (fun r _ => Nat.eqb r 2)
           (NotificationService [] [("window"%string, [1%nat; 2%nat; 3%nat])])
           (NotificationMessage [] [] "info"%string None)
           [1%nat] [3%nat] 2%nat).
  - reflexivity.
  - intros x [<-|[]]. reflexivity.
  - reflexivity.
Defined.

End NotificationFacts.

Module SpeakerFacts.

Import Text Speakers MarkerShapes.
Local Open Scope list_scope.

(** *** The speaker markers *)

Section Ids.
Variable Id : Type.
Variable truthy : Id -> bool.
Variable eqb : Id -> Id -> bool.
Hypothesis eqb_eq : forall a b, eqb a b = true <-> a = b.

Lemma speaker_changes_truthy (l : list (detected Id)) :
  forall last,
    (forall id, last = Some id -> truthy id = true) ->
    (forall id, In id (speaker_ids l) -> truthy id = true) ->
    map snd (speaker_changes truthy eqb last l)
    = without_repeats eqb last (speaker_ids l).
Proof.
  induction l as [|s rest IH]; intros last Hlast Hl; [reflexivity|].
  simpl. destruct (d_speaker_id s) as [id|] eqn:E.
  - assert (Hid : truthy id = true).
    { apply Hl. simpl. rewrite E. left. reflexivity. }
    assert (Hrest : forall x, In x (speaker_ids rest) -> truthy x = true).
    { intros x Hx. apply Hl. simpl. rewrite E. right. exact Hx. }
    assert (Hnext : forall x, Some id = Some x -> truthy x = true).
    { intros x Hx. inversion Hx; subst. exact Hid. }
    rewrite map_app, (IH (Some id) Hnext Hrest).
    simpl. unfold speaker_changed.
    destruct last as [last|]; [|reflexivity].
    rewrite (Hlast last eq_refl). simpl.
    destruct (eqb id last); reflexivity.
  - simpl. apply IH; [exact Hlast|].
    intros x Hx. apply Hl. simpl. rewrite E. exact Hx.
Qed.

Lemma without_repeats_head (ids : list Id) (last : Id) (x : Id)
      (rest : list Id) :
  without_repeats eqb (Some last) ids = x :: rest -> x <> last.
Proof.
  revert last. induction ids as [|id ids IH]; intros last H;
    [discriminate|].
  simpl in H. destruct (eqb id last) eqn:E.
  - apply eqb_eq in E. subst id. apply (IH last H).
  - inversion H; subst. intros ->.
    assert (T : eqb last last = true) by (apply eqb_eq; reflexivity).
    rewrite T in E. discriminate.
Qed.

Lemma without_repeats_differ (ids : list Id) :
  forall last, adjacent_differ (without_repeats eqb last ids).
Proof.
  induction ids as [|id ids IH]; intros last i a b Ha Hb.
  - destruct i; discriminate.
  - simpl in Ha, Hb.
    assert (Hcons : forall i a b,
               nth_error (id :: without_repeats eqb (Some id) ids) i
               = Some a ->
               nth_error (id :: without_repeats eqb (Some id) ids) (S i)
               = Some b -> a <> b).
    { clear -IH eqb_eq. intros i a b Ha Hb. destruct i as [|i].
      - simpl in Ha, Hb. inversion Ha; subst a.
        destruct (without_repeats eqb (Some id) ids) as [|x r] eqn:E;
          [discriminate|].
        simpl in Hb. inversion Hb; subst b.
        apply without_repeats_head in E. intros ->. apply E. reflexivity.
      - simpl in Ha, Hb. apply (IH (Some id) i a b Ha Hb). }
    destruct last as [last|].
    + destruct (eqb id last).
      * apply (IH (Some id) i a b Ha Hb).
      * apply (Hcons i a b Ha Hb).
    + apply (Hcons i a b Ha Hb).
Qed.

Lemma without_repeats_In (ids : list Id) (x : Id) :
  forall last,
    In x (without_repeats eqb last ids) -> In x ids.
Proof.
  induction ids as [|id ids IH]; intros last H; [destruct H|].
  simpl in H. destruct last as [last|].
  - destruct (eqb id last).
    + right. apply (IH _ H).
    + destruct H as [H|H]; [left; exact H|right; apply (IH _ H)].
  - destruct H as [H|H]; [left; exact H|right; apply (IH _ H)].
Qed.

Lemma without_repeats_keeps (ids : list Id) (x : Id) :
  forall last,
    In x ids ->
    In x (without_repeats eqb last ids) \/ last = Some x.
Proof.
  induction ids as [|id ids IH]; intros last H; [destruct H|].
  simpl. destruct H as [->|H].
  - destruct last as [last|].
    + destruct (eqb x last) eqn:E.
      * apply eqb_eq in E. subst last. right. reflexivity.
      * left. left. reflexivity.
    + left. left. reflexivity.
  - destruct (IH (Some id) H) as [Hin|Hlast].
    + left. destruct last as [last|].
      * destruct (eqb id last); [exact Hin|right; exact Hin].
      * right. exact Hin.
    + inversion Hlast; subst id.
      destruct last as [last|].
      * destruct (eqb x last) eqn:E.
        -- apply eqb_eq in E. subst last. right. reflexivity.
        -- left. left. reflexivity.
      * left. left. reflexivity.
Qed.

Lemma speaker_changes_starts (l : list (detected Id)) :
  forall last start id,
    In (start, id) (speaker_changes truthy eqb last l) ->
    In (Detected start (Some id)) l.
Proof.
  induction l as [|s rest IH]; intros last start id H; [destruct H|].
  simpl in H. destruct (d_speaker_id s) as [id0|] eqn:E.
  - apply in_app_or in H. destruct H as [H|H].
    + destruct (speaker_changed truthy eqb last id0); [|destruct H].
      destruct H as [H|[]]. inversion H; subst.
      left. destruct s as [st sid]. simpl in *. rewrite E. reflexivity.
    + right. apply (IH _ _ _ H).
  - right. apply (IH _ _ _ H).
Qed.

Lemma speaker_changes_falsy (l : list (detected Id)) :
  forall last,
    (forall id, last = Some id -> truthy id = false) ->
    (forall id, In id (speaker_ids l) -> truthy id = false) ->
    map snd (speaker_changes truthy eqb last l) = speaker_ids l.
Proof.
  induction l as [|s rest IH]; intros last Hlast Hl; [reflexivity|].
  simpl. destruct (d_speaker_id s) as [id|] eqn:E.
  - assert (Hid : truthy id = false).
    { apply Hl. simpl. rewrite E. left. reflexivity. }
    rewrite map_app, (IH (Some id)).
    + unfold speaker_changed. destruct last as [last|]; [|reflexivity].
      rewrite (Hlast last eq_refl). reflexivity.
    + intros x Hx. inversion Hx; subst. exact Hid.
    + intros x Hx. apply Hl. simpl. rewrite E. right. exact Hx.
  - simpl. apply IH; [exact Hlast|].
    intros x Hx. apply Hl. simpl. rewrite E. exact Hx.
Qed.
End Ids.

(** X26: when every speaker id is truthy, the markers follow the changes of
    speaker: two consecutive markers never name the same speaker, the
    speakers named are exactly the speakers of the segments, and every
    marker stands at the start of a segment of its speaker.  When the
    ids are falsy (the number 0), every segment that has an id gets a
    marker of its own. *)
Theorem speaker_markers_follow_the_changes (Id : Type)
        (truthy : Id -> bool) (eqb : Id -> Id -> bool)
        (l : list (detected Id)) :
  (forall a b, eqb a b = true <-> a = b) ->
  let changes := speaker_changes truthy eqb None l in
  ((forall id, In id (speaker_ids l) -> truthy id = true) ->
   adjacent_differ (map snd changes)
   /\ (forall id, In id (map snd changes) <-> In id (speaker_ids l)))
  /\ (forall start id,
         In (start, id) changes -> In (Detected start (Some id)) l)
  /\ ((forall id, In id (speaker_ids l) -> truthy id = false) ->
      map snd changes = speaker_ids l).
Proof.
  intros Heq changes. subst changes. split; [|split].
  - intros Ht.
    rewrite (speaker_changes_truthy Id truthy eqb l None)
      by (try discriminate; exact Ht).
    split.
    + apply without_repeats_differ. exact Heq.
    + intros id. split.
      * apply without_repeats_In.
      * intros H.
        destruct (without_repeats_keeps Id eqb Heq (speaker_ids l) id
                    None H) as [Hin|Hn]; [exact Hin|discriminate].
  - apply speaker_changes_starts.
  - intros Hf. apply speaker_changes_falsy; [discriminate|exact Hf].
Qed.

Lemma speaker_markers_follow_the_changes_witness :
  map snd (speaker_changes (fun z => negb (Z.eqb z 0)) Z.eqb None
             [Detected 0%Q (Some 0%Z); Detected 1%Q (Some 0%Z)])
  = [0%Z; 0%Z].
Proof.
  apply (speaker_markers_follow_the_changes
           Z (fun z => negb (Z.eqb z 0)) Z.eqb
           [Detected 0%Q (Some 0%Z); Detected 1%Q (Some 0%Z)]
           Z.eqb_eq).
  intros id [<-|[<-|[]]]; reflexivity.
Defined.

End SpeakerFacts.

Module ClassifierFacts.

Import Text WhisperOptions Classifier MarkerShapes.
Local Open Scope list_scope.

(** *** The arguments of [classify_segments] *)

Section Classify.
Variable Segment : Type.
Variable seg_eqb : Segment -> Segment -> bool.
Variable text_of : Segment -> option str.
Variable words_of : Segment -> option (list str).
Variable is_space : char -> bool.
Variable classifier : str -> list label -> label * Q.

Lemma index_head (g : list label) (gs : list (list label)) :
  index g (g :: gs) = Some 0%nat.
Proof.
  simpl. destruct (list_eq_dec String.string_dec g g) as [_|N];
    [reflexivity|contradiction].
Qed.

Lemma grouped_loop_first_threshold (g : list label)
      (gs : list (list label)) (text : str) (s : Segment)
      (d : dict (list Segment)) (c0 : Q) (cs : list Q) :
  grouped_loop classifier (g :: gs) text s (g :: gs) true d
               (Many (c0 :: cs))
  = grouped_loop classifier (g :: gs) text s (g :: gs) true d (One c0).
Proof.
  simpl grouped_loop.
  destruct (classifier text g) as [best score].
  destruct (list_eq_dec String.string_dec g g) as [_|N];
    [reflexivity|contradiction].
Qed.

Lemma classify_text_first_threshold (g : list label)
      (gs : list (list label)) (text : str) (s : Segment)
      (d : dict (list Segment)) (c0 : Q) (cs : list Q) :
  classify_text classifier (Grouped (g :: gs)) text s d
                (Many (c0 :: cs))
  = classify_text classifier (Grouped (g :: gs)) text s d (One c0).
Proof.
  unfold classify_text. rewrite grouped_loop_first_threshold.
  reflexivity.
Qed.

Lemma classify_loop_first_threshold (g : list label)
      (gs : list (list label)) (has_queue_id : bool)
      (canceled : nat -> bool) (c0 : Q) (cs : list Q)
      (segments : list Segment) :
  forall d p,
    classified
      (classify_loop text_of words_of is_space classifier
                     (Grouped (g :: gs)) has_queue_id canceled segments
                     (State d (Many (c0 :: cs)) p))
    = classified
        (classify_loop text_of words_of is_space classifier
                       (Grouped (g :: gs)) has_queue_id canceled segments
                       (State d (One c0) p)).
Proof.
  induction segments as [|s rest IH]; intros d p; [reflexivity|].
  cbn [classify_loop classified_segments min_confidence polls].
  destruct (segment_text text_of words_of is_space s)
    as [[text|]| | |]; try reflexivity; [|apply IH].
  rewrite classify_text_first_threshold.
  destruct (classify_text classifier (Grouped (g :: gs)) text s d
                          (One c0)) as [[[d' mc']|]| | |];
    try reflexivity.
  apply IH.
Qed.
End Classify.

(** X27: with groups of labels, the list [multi_label_pass] cannot be left
    out: once the first checks are passed, the call raises a
    [TypeError] before it classifies anything. *)
Theorem grouped_labels_need_a_pass_list (Segment : Type)
        (seg_eqb : Segment -> Segment -> bool)
        (text_of : Segment -> option str)
        (words_of : Segment -> option (list str))
        (is_space : char -> bool)
        (classifier : str -> list label -> label * Q)
        (segments : list Segment) (g : list label)
        (groups : list (list label)) (mc : confidence)
        (has_queue_id : bool) (canceled : nat -> bool) :
  segments <> [] ->
  (forall cs, mc = Many cs -> length (g :: groups) = length cs) ->
  classify_segments seg_eqb text_of words_of is_space classifier
                    segments (Grouped (g :: groups)) mc None
                    has_queue_id canceled
  = RaisesTypeError.
Proof.
  intros Hs Hmc. unfold classify_segments.
  destruct segments as [|s rest]; [contradiction|].
  unfold check_arguments.
  destruct mc as [c|cs]; [reflexivity|].
  rewrite (Hmc cs eq_refl), Nat.eqb_refl. reflexivity.
Qed.

Lemma grouped_labels_need_a_pass_list_witness :
  classify_segments
    Nat.eqb (fun _ => Some (of_string "Why?"%string)) (fun _ => None)
    (fun c => N.eqb c space)
    (fun _ _ => ("question"%string, 1%Q))
    [0%nat] (Grouped [["question"%string; "statement"%string]])
    (One (55 # 100)) None false (fun _ => false)
  = RaisesTypeError.
Proof.
  apply (grouped_labels_need_a_pass_list
           nat Nat.eqb (fun _ => Some (of_string "Why?"%string))
           (fun _ => None) (fun c => N.eqb c space)
           (fun _ _ => ("question"%string, 1%Q))
           [0%nat] ["question"%string; "statement"%string] []
           (One (55 # 100)) false (fun _ => false)).
  - discriminate.
  - intros cs H. discriminate H.
Defined.

(** X28: of a list of thresholds only the first one is ever used: with
    groups of labels, a call with the thresholds [c0, c1, ...] does
    what the call with the single threshold [c0] does, for every group
    and every segment. *)
Theorem only_the_first_threshold_is_used (Segment : Type)
        (seg_eqb : Segment -> Segment -> bool)
        (text_of : Segment -> option str)
        (words_of : Segment -> option (list str))
        (is_space : char -> bool)
        (classifier : str -> list label -> label * Q)
        (segments : list Segment) (groups : list (list label))
        (c0 : Q) (cs : list Q) (multi_label_pass : option (list label))
        (has_queue_id : bool) (canceled : nat -> bool) :
  length groups = length (c0 :: cs) ->
  classify_segments seg_eqb text_of words_of is_space classifier
                    segments (Grouped groups) (Many (c0 :: cs))
                    multi_label_pass has_queue_id canceled
  = classify_segments seg_eqb text_of words_of is_space classifier
                      segments (Grouped groups) (One c0)
                      multi_label_pass has_queue_id canceled.
Proof.
  intros Hl. unfold classify_segments.
  destruct segments as [|s rest]; [reflexivity|].
  destruct groups as [|g gs]; [discriminate|].
  assert (Hc : check_arguments (Grouped (g :: gs)) (Many (c0 :: cs))
                               multi_label_pass
               = check_arguments (Grouped (g :: gs)) (One c0)
                                 multi_label_pass).
  { unfold check_arguments. rewrite Hl, Nat.eqb_refl. reflexivity. }
  rewrite Hc.
  destruct (check_arguments (Grouped (g :: gs)) (One c0) multi_label_pass)
    as [pass| | |]; try reflexivity.
  pose proof (classify_loop_first_threshold
                Segment text_of words_of is_space classifier
                g gs has_queue_id canceled c0 cs (s :: rest) [] 0%nat)
    as H.
  destruct (classify_loop text_of words_of is_space classifier
                          (Grouped (g :: gs)) has_queue_id canceled
                          (s :: rest) (State [] (Many (c0 :: cs)) 0))
    as [[st|]| | |];
    destruct (classify_loop text_of words_of is_space classifier
                            (Grouped (g :: gs)) has_queue_id canceled
                            (s :: rest) (State [] (One c0) 0))
      as [[st'|]| | |];
    simpl in H; try discriminate; try reflexivity.
  inversion H as [Hd]. rewrite Hd. reflexivity.
Qed.

Lemma only_the_first_threshold_is_used_witness :
  classify_segments
    Nat.eqb (fun _ => Some (of_string "Why?"%string)) (fun _ => None)
    (fun c => N.eqb c space)
    (fun _ _ => ("question"%string, (1 # 2)%Q))
    [0%nat] (Grouped [["question"%string]; ["short"%string]])
    (Many [(1 # 4)%Q; (3 # 4)%Q]) (Some ["question"%string])
    false (fun _ => false)
  = classify_segments
      Nat.eqb (fun _ => Some (of_string "Why?"%string)) (fun _ => None)
      (fun c => N.eqb c space)
      (fun _ _ => ("question"%string, (1 # 2)%Q))
      [0%nat] (Grouped [["question"%string]; ["short"%string]])
      (One (1 # 4)%Q) (Some ["question"%string])
      false (fun _ => false).
Proof.
  apply (only_the_first_threshold_is_used
           nat Nat.eqb (fun _ => Some (of_string "Why?"%string))
           (fun _ => None) (fun c => N.eqb c space)
           (fun _ _ => ("question"%string, (1 # 2)%Q))
           [0%nat] [["question"%string]; ["short"%string]]
           (1 # 4)%Q [(3 # 4)%Q] (Some ["question"%string])
           false (fun _ => false)).
  reflexivity.
Defined.

(** *** The multi-label pass *)

Section Pass.
Variable Segment : Type.
Variable seg_eqb : Segment -> Segment -> bool.
Hypothesis seg_eqb_eq : forall a b, seg_eqb a b = true <-> a = b.

Lemma intersect_In (a b : list Segment) (x : Segment) :
  In x (intersect seg_eqb a b) <-> In x a /\ In x b.
Proof.
  unfold intersect. rewrite filter_In, existsb_exists. split.
  - intros [Ha [y [Hy E]]]. apply seg_eqb_eq in E. subst y.
    split; assumption.
  - intros [Ha Hb]. split; [exact Ha|].
    exists x. split; [exact Hb|]. apply seg_eqb_eq. reflexivity.
Qed.

Lemma fold_intersect_In (ss : list (list Segment)) (x : Segment) :
  forall acc,
    In x (fold_left (intersect seg_eqb) ss acc)
    <-> In x acc /\ Forall (In x) ss.
Proof.
  induction ss as [|s ss IH]; intros acc; simpl.
  - split; [intros H; split; [exact H|constructor]|intros [H _]; exact H].
  - rewrite IH, intersect_In. split.
    + intros [[Ha Hs] Hss]. split; [exact Ha|constructor; assumption].
    + intros [Ha Hf]. inversion Hf; subst. repeat split; assumption.
Qed.
End Pass.

Lemma pass_loop_intersections (Segment : Type)
      (seg_eqb : Segment -> Segment -> bool)
      (pass : list label) :
  forall (lists : list (list Segment)) (d : dict (list Segment))
         (acc : list Segment),
    Forall2 (fun l s => get l d = Some s /\ l <> pass_key) pass lists ->
    get pass_key d = Some acc ->
    never_empty (intersect seg_eqb) acc lists ->
    get pass_key (multi_label_pass_loop seg_eqb d pass)
    = Some (fold_left (intersect seg_eqb) lists acc).
Proof.
  induction pass as [|l rest IH]; intros lists d acc Hf Hacc Hne.
  - inversion Hf; subst. simpl. exact Hacc.
  - inversion Hf as [|? s ? ss [Hl Hk] Hrest]; subst.
    simpl in Hne. destruct Hne as [Hnon Hne].
    cbn [multi_label_pass_loop]. rewrite Hl, Hacc.
    destruct acc as [|x passed]; [contradiction|].
    simpl fold_left. apply IH.
    + clear -Hrest.
      induction Hrest as [|l' s' r' ss' [H1 H2] _ IHr]; constructor.
      * split; [|exact H2].
        rewrite ObserverFacts.get_set_other by exact H2. exact H1.
      * exact IHr.
    + apply ObserverFacts.get_set_same.
    + exact Hne.
Qed.

(** X29: when every label of [multi_label_pass] has segments, and the
    intersection made so far is never empty when the next label is
    met, the pass list is the intersection: it holds exactly the
    segments of the first label that every other label has too. *)
Theorem multi_label_pass_intersects (Segment : Type)
        (seg_eqb : Segment -> Segment -> bool)
        (d : dict (list Segment)) (l : label) (pass : list label)
        (s : list Segment) (lists : list (list Segment)) :
  (forall a b, seg_eqb a b = true <-> a = b) ->
  Forall2 (fun l s => get l d = Some s /\ l <> pass_key)
          (l :: pass) (s :: lists) ->
  never_empty (intersect seg_eqb) s lists ->
  exists passed,
    get pass_key
        (multi_label_pass_loop seg_eqb (Observers.set pass_key [] d)
                               (l :: pass))
    = Some passed
    /\ forall x, In x passed <-> In x s /\ Forall (In x) lists.
Proof.
  intros Heq Hf Hne.
  inversion Hf as [|? ? ? ? [Hl Hk] Hrest]; subst.
  exists (fold_left (intersect seg_eqb) lists s). split.
  - cbn [multi_label_pass_loop].
    rewrite (ObserverFacts.get_set_other _ l pass_key [] d Hk), Hl.
    rewrite ObserverFacts.get_set_same.
    apply pass_loop_intersections; [| |exact Hne].
    + clear -Hrest.
      induction Hrest as [|l' s' r' ss' [H1 H2] _ IHr]; constructor.
      * split; [|exact H2].
        rewrite !ObserverFacts.get_set_other by exact H2. exact H1.
      * exact IHr.
    + apply ObserverFacts.get_set_same.
  - intros x. apply fold_intersect_In. exact Heq.
Qed.

Lemma multi_label_pass_intersects_witness :
  exists passed,
    get pass_key
        (multi_label_pass_loop
           Nat.eqb
           (Observers.set pass_key []
              [("question"%string, [1%nat; 2%nat]);
               ("short"%string, [2%nat; 3%nat])])
           ["question"%string; "short"%string])
    = Some passed
    /\ forall x, In x passed
                 <-> In x [1%nat; 2%nat] /\ Forall (In x) [[2%nat; 3%nat]].
Proof.
  apply (multi_label_pass_intersects
           nat Nat.eqb
           [("question"%string, [1%nat; 2%nat]);
            ("short"%string, [2%nat; 3%nat])]
           "question"%string ["short"%string]
           [1%nat; 2%nat] [[2%nat; 3%nat]]).
  - apply Nat.eqb_eq.
  - repeat constructor; discriminate.
  - simpl. split; [discriminate|exact I].
Defined.

(** X30: the pass list is not always an intersection.  When a label of
    [multi_label_pass] has no segment at all, the loop stops and the
    pass list keeps what the labels before it gave; and when two
    labels have no segment in common, the next label starts the pass
    list afresh with all of its own segments. *)
Theorem multi_label_pass_keeps_or_restarts (Segment : Type)
        (seg_eqb : Segment -> Segment -> bool)
        (d : dict (list Segment)) (l1 l2 l3 : label)
        (rest : list label) (s1 s2 s3 : list Segment) :
  l1 <> pass_key -> l2 <> pass_key -> l3 <> pass_key ->
  get l1 d = Some s1 ->
  (get l2 d = None ->
   get pass_key
       (multi_label_pass_loop seg_eqb (Observers.set pass_key [] d)
                              (l1 :: l2 :: rest))
   = Some s1)
  /\ (get l2 d = Some s2 -> get l3 d = Some s3 ->
      s1 <> [] -> intersect seg_eqb s1 s2 = [] ->
      get pass_key
          (multi_label_pass_loop seg_eqb (Observers.set pass_key [] d)
                                 [l1; l2; l3])
      = Some s3).
Proof.
  intros H1 H2 H3 G1.
  assert (Hstart :
           forall tail,
             multi_label_pass_loop seg_eqb (Observers.set pass_key [] d)
                                   (l1 :: tail)
             = multi_label_pass_loop
                 seg_eqb
                 (Observers.set pass_key s1 (Observers.set pass_key [] d))
                 tail).
  { intros tail. cbn [multi_label_pass_loop].
    rewrite (ObserverFacts.get_set_other _ l1 pass_key [] d H1), G1.
    rewrite ObserverFacts.get_set_same. reflexivity. }
  split.
  - intros G2. rewrite Hstart. cbn [multi_label_pass_loop].
    rewrite !(ObserverFacts.get_set_other _ l2 pass_key) by exact H2.
    rewrite G2. apply ObserverFacts.get_set_same.
  - intros G2 G3 Hne Hi. rewrite Hstart. cbn [multi_label_pass_loop].
    rewrite !(ObserverFacts.get_set_other _ l2 pass_key) by exact H2.
    rewrite G2, ObserverFacts.get_set_same.
    destruct s1 as [|x s1']; [contradiction|].
    cbv iota. rewrite Hi.
    rewrite !(ObserverFacts.get_set_other _ l3 pass_key) by exact H3.
    rewrite G3, ObserverFacts.get_set_same.
    apply ObserverFacts.get_set_same.
Qed.

Lemma multi_label_pass_keeps_or_restarts_witness :
  get pass_key
      (multi_label_pass_loop
         Nat.eqb
         (Observers.set pass_key []
            [("question"%string, [1%nat]); ("short"%string, [2%nat]);
             ("loud"%string, [3%nat])])
         ["question"%string; "short"%string; "loud"%string])
  = Some [3%nat].
Proof.
  apply (multi_label_pass_keeps_or_restarts
           nat Nat.eqb
           [("question"%string, [1%nat]); ("short"%string, [2%nat]);
            ("loud"%string, [3%nat])]
           "question"%string "short"%string "loud"%string []
           [1%nat] [2%nat] [3%nat]);
    try discriminate; reflexivity.
Defined.

End ClassifierFacts.
